(** * trase: vectors, axis tick layout, series of an axis and point-series
    drawing

    A shallow embedding of [src/Vector.hpp] ([round_off]; the reductions
    [inner_product], [dot], [squaredNorm], [norm], [inf_norm], [minCoeff],
    [maxCoeff], [sum], [all], [any], [none]; [normalize]; the comparison
    and arithmetic operators; [cross], [abs], [abs2]),
    [src/frontend/Axis.cpp] ([plot], [plot_impl], [points], [line],
    [histogram], [calculate_num_ticks], [update_tick_information]) and
    [src/frontend/Points.tcc] ([check_aesthetic], [draw_frames],
    [draw_plot], [draw]).

    Numbers.  The C++ type [float] is modelled by exact rational arithmetic
    extended with the IEEE special values: a value is a rational, one of the
    two infinities, or NaN.  Finite results are exact (no rounding error, no
    overflow, no signed zero); the special values follow the IEEE rules
    (x/0, inf-inf, 0*inf, comparisons with NaN).  Every finite result is
    kept in lowest terms, so equal numbers are equal terms.

    Effects.  A loop that need not terminate is a function with fuel
    together with the lemmas that enough fuel gives the result; undefined
    behaviour (indexing past the end of a [std::vector], a float-to-int cast
    of a non-finite value) and thrown exceptions are faults of an error
    monad; calls to the drawing backend and accesses to the data frames are
    recorded in a trace, the arguments of a call being evaluated left to
    right.

    Collaborators.  [Axis::to_display] and the colormap are parameters, and
    so is what [plot_impl] uses of [Plot1D], [Transform] and [RGBA].
    [bbox], [DataWithAesthetic], the aesthetic indices and
    [Points::update_frame_info] live outside the translated files and follow
    their description in the specification. *)

From Stdlib Require Import ZArith QArith Qround Qreduction Qpower Qabs.
From Stdlib Require Import List Bool Lia Lqa.
Import ListNotations.

Set Implicit Arguments.

(** ** The number model *)

Module F.

Inductive float : Type :=
| NaN : float
| Inf (negative : bool) : float
| Fin (q : Q) : float.

Definition fin (q : Q) : float := Fin (Qred q).

Definition Qltb (p q : Q) : bool := negb (Qle_bool q p).

Definition is_zero (x : float) : bool :=
  match x with Fin q => Qeq_bool q 0 | _ => false end.

Definition is_neg (x : float) : bool :=
  match x with Fin q => Qltb q 0 | Inf s => s | NaN => false end.

Definition is_finite (x : float) : bool :=
  match x with Fin _ => true | _ => false end.

Definition of_Z (z : Z) : float := Fin (inject_Z z).

Definition zero : float := of_Z 0.
Definition one : float := of_Z 1.
Definition ten : float := of_Z 10.
Definition half : float := Fin (1 # 2).

Definition opp (x : float) : float :=
  match x with
  | NaN => NaN
  | Inf s => Inf (negb s)
  | Fin q => fin (- q)
  end.

Definition add (x y : float) : float :=
  match x, y with
  | NaN, _ | _, NaN => NaN
  | Inf a, Inf b => if Bool.eqb a b then Inf a else NaN
  | Inf a, Fin _ | Fin _, Inf a => Inf a
  | Fin p, Fin q => fin (p + q)
  end.

Definition sub (x y : float) : float := add x (opp y).

Definition mul (x y : float) : float :=
  match x, y with
  | NaN, _ | _, NaN => NaN
  | Fin p, Fin q => fin (p * q)
  | _, _ =>
      if is_zero x || is_zero y then NaN
      else Inf (xorb (is_neg x) (is_neg y))
  end.

Definition div (x y : float) : float :=
  match x, y with
  | NaN, _ | _, NaN => NaN
  | Inf _, Inf _ => NaN
  | Inf a, Fin q => Inf (xorb a (Qltb q 0))
  | Fin _, Inf _ => zero
  | Fin p, Fin q =>
      if Qeq_bool q 0
      then (if Qeq_bool p 0 then NaN else Inf (Qltb p 0))
      else fin (p / q)
  end.

(** [std::floor] and [std::ceil]. *)
Definition floor (x : float) : float :=
  match x with Fin q => of_Z (Qfloor q) | _ => x end.

Definition ceil (x : float) : float :=
  match x with Fin q => of_Z (Qceiling q) | _ => x end.

(** IEEE comparison: [None] is "unordered". *)
Definition compare (x y : float) : option comparison :=
  match x, y with
  | NaN, _ | _, NaN => None
  | Inf a, Inf b =>
      Some (if Bool.eqb a b then Eq else if a then Lt else Gt)
  | Inf a, Fin _ => Some (if a then Lt else Gt)
  | Fin _, Inf b => Some (if b then Gt else Lt)
  | Fin p, Fin q => Some (p ?= q)%Q
  end.

Definition ltb (x y : float) : bool :=
  match compare x y with Some Lt => true | _ => false end.

Definition geb (x y : float) : bool :=
  match compare x y with Some Gt | Some Eq => true | _ => false end.

Definition gtb (x y : float) : bool :=
  match compare x y with Some Gt => true | _ => false end.

Definition eqb (x y : float) : bool :=
  match compare x y with Some Eq => true | _ => false end.

(** [std::pow(10.0, k)] for an [int] exponent [k]. *)
Definition pow10 (k : Z) : float := fin (inject_Z 10 ^ k).

(** [static_cast<int>(x)]: truncation toward zero; undefined ([None]) when
    [x] is not finite or the truncated value is not an [int]. *)
Definition int_min : Z := - 2 ^ 31.
Definition int_max : Z := 2 ^ 31 - 1.

Definition truncate (q : Q) : Z :=
  if Qle_bool 0 q then Qfloor q else Qceiling q.

Definition to_int (x : float) : option Z :=
  match x with
  | Fin q =>
      let z := truncate q in
      if (int_min <=? z)%Z && (z <=? int_max)%Z then Some z else None
  | _ => None
  end.

End F.

Definition float : Type := F.float.

Declare Scope float_scope.
Delimit Scope float_scope with flt.
Infix "+" := F.add : float_scope.
Infix "-" := F.sub : float_scope.
Infix "*" := F.mul : float_scope.
Infix "/" := F.div : float_scope.

(** ** Vector.hpp *)

(** [Vector<T,N>]: the [N] elements in order. *)
Definition Vector : Type := list float.

(** [v[i]]; the C++ operator does no bounds check, every index used by the
    translated code is a literal below the vector's size. *)
Definition vget (v : Vector) (i : nat) : float := nth i v F.NaN.

Fixpoint vset (v : Vector) (i : nat) (a : float) : Vector :=
  match v, i with
  | [], _ => []
  | _ :: t, O => a :: t
  | h :: t, S j => h :: vset t j a
  end.

Fixpoint vzip (f : float -> float -> float) (a b : Vector) : Vector :=
  match a, b with
  | x :: a', y :: b' => f x y :: vzip f a' b'
  | _, _ => []
  end.

Definition vadd : Vector -> Vector -> Vector := vzip F.add.
Definition vsub : Vector -> Vector -> Vector := vzip F.sub.
Definition vmul : Vector -> Vector -> Vector := vzip F.mul.
Definition vdiv : Vector -> Vector -> Vector := vzip F.div.
Definition vceil : Vector -> Vector := map F.ceil.
(** [operator*(T, Vector)]. *)
Definition vscale (w : float) : Vector -> Vector := map (F.mul w).

(** The digit-counting loop of [round_off]:
    [for (i = 0; tmp >= 1; ++i) tmp /= 10;], started at [(tmp, i)].
    [None]: the fuel ran out with the condition still true. *)
Fixpoint count_digits (fuel : nat) (tmp : float) (i : Z) : option Z :=
  if F.geb tmp F.one then
    match fuel with
    | O => None
    | S fuel' => count_digits fuel' (tmp / F.ten)%flt (i + 1)
    end
  else Some i.

(** Fuel that suffices whenever the loop terminates at all: the number of
    binary digits of the integer part. *)
Definition digits_fuel (x : float) : nat :=
  match x with
  | F.Fin q => Z.to_nat (Z.log2 (Qfloor q) + 1)
  | _ => O
  end.

(** The body of [round_off]'s outer loop for one element [v = num[j]]. *)
Definition round_off_step (fuel : nat) (v : float) (n : Z) : option float :=
  match count_digits fuel v 0 with
  | None => None
  | Some i =>
      let d := F.pow10 (n - i) in
      Some (F.floor (v * d + F.half) / d)%flt
  end.

Definition round_off_elem (v : float) (n : Z) : option float :=
  round_off_step (digits_fuel v) v n.

(** [round_off(x, n)]: every element is replaced by its rounded value;
    [None] when a digit-counting loop does not terminate. *)
Fixpoint round_off (x : Vector) (n : Z) : option Vector :=
  match x with
  | [] => Some []
  | v :: x' =>
      match round_off_elem v n with
      | None => None
      | Some r =>
          match round_off x' n with
          | None => None
          | Some rs => Some (r :: rs)
          end
      end
  end.

(** ** Vector.hpp: reductions, comparisons and element-wise functions *)

(** [std::abs] and [std::fabs] of a float. *)
Definition fabs (x : float) : float :=
  match x with
  | F.NaN => F.NaN
  | F.Inf _ => F.Inf false
  | F.Fin q => F.fin (Qabs q)
  end.

(** [Vector::Zero()] and [Vector::Constant(c)] of [Vector<T,N>]. *)
Definition Constant (N : nat) (c : float) : Vector := repeat c N.
Definition Zero (N : nat) : Vector := Constant N F.zero.

(** [std::inner_product(begin(), end(), arg.begin(), init)]. *)
Fixpoint inner_product_from (init : float) (a b : Vector) : float :=
  match a, b with
  | x :: a', y :: b' => inner_product_from (init + x * y)%flt a' b'
  | _, _ => init
  end.

Definition inner_product (a b : Vector) : float :=
  inner_product_from F.zero a b.

Definition dot (a b : Vector) : float := inner_product a b.

(** [squaredNorm()]: [ret = 0; for (i...) ret += mem[i] * mem[i];]. *)
Definition squaredNorm (v : Vector) : float :=
  fold_left (fun ret x => (ret + x * x)%flt) v F.zero.

(** The loop of [inf_norm()], from index 1 on. *)
Fixpoint inf_norm_loop (ret : float) (rest : Vector) : float :=
  match rest with
  | [] => ret
  | x :: rest' =>
      let absi := fabs x in
      inf_norm_loop (if F.gtb absi ret then absi else ret) rest'
  end.

(** [inf_norm()]; it starts from [mem[0]], which a vector of size 0 does
    not have ([None]). *)
Definition inf_norm (v : Vector) : option float :=
  match v with
  | [] => None
  | x :: rest => Some (inf_norm_loop (fabs x) rest)
  end.

(** [std::min_element] and [std::max_element] on a non-empty range: the
    scan keeps the first smallest (largest) element seen. *)
Fixpoint min_element (smallest : float) (rest : Vector) : float :=
  match rest with
  | [] => smallest
  | x :: rest' => min_element (if F.ltb x smallest then x else smallest) rest'
  end.

Fixpoint max_element (largest : float) (rest : Vector) : float :=
  match rest with
  | [] => largest
  | x :: rest' => max_element (if F.ltb largest x then x else largest) rest'
  end.

(** [minCoeff()] and [maxCoeff()] dereference the iterator returned by the
    scan, which is [end()] for a vector of size 0 ([None]). *)
Definition minCoeff (v : Vector) : option float :=
  match v with
  | [] => None
  | x :: rest => Some (min_element x rest)
  end.

Definition maxCoeff (v : Vector) : option float :=
  match v with
  | [] => None
  | x :: rest => Some (max_element x rest)
  end.

(** [sum()]: [std::accumulate] from 0. *)
Definition vsum (v : Vector) : float := fold_left F.add v F.zero.

(** [static_cast<bool>(a)] for a float: every value but zero is true. *)
Definition to_bool (a : float) : bool := negb (F.eqb a F.zero).

(** [all()], [any()] and [none()] of [Vector<T,N>], given the cast of [T]
    to [bool]. *)
Definition all {T : Type} (cast : T -> bool) (v : list T) : bool :=
  forallb cast v.

Definition any {T : Type} (cast : T -> bool) (v : list T) : bool :=
  existsb cast v.

Definition none {T : Type} (cast : T -> bool) (v : list T) : bool :=
  forallb (fun a => negb (cast a)) v.

(** The comparison operators: element by element, into a
    [Vector<bool,N>]. *)
Fixpoint vcompare (f : float -> float -> bool) (a b : Vector) : list bool :=
  match a, b with
  | x :: a', y :: b' => f x y :: vcompare f a' b'
  | _, _ => []
  end.

Definition veq : Vector -> Vector -> list bool := vcompare F.eqb.
Definition vne : Vector -> Vector -> list bool :=
  vcompare (fun x y => negb (F.eqb x y)).
Definition vlt : Vector -> Vector -> list bool := vcompare F.ltb.
Definition vgt : Vector -> Vector -> list bool := vcompare F.gtb.
Definition vle : Vector -> Vector -> list bool :=
  vcompare (fun x y => F.geb y x).
Definition vge : Vector -> Vector -> list bool := vcompare F.geb.

(** Unary minus. *)
Definition vneg : Vector -> Vector := map F.opp.

(** [operator+(T, Vector)], [operator+(Vector, T)] and
    [operator*(Vector, T)]; [operator*(T, Vector)] is [vscale]. *)
Definition sadd (a : float) : Vector -> Vector := map (F.add a).
Definition vadds (b : Vector) (a : float) : Vector :=
  map (fun x => (x + a)%flt) b.
Definition vmuls (b : Vector) (a : float) : Vector :=
  map (fun x => (x * a)%flt) b.

(** [cross(arg1, arg2)] for two [Vector<T,3>]. *)
Definition cross (arg1 arg2 : Vector) : Vector :=
  [(vget arg1 1 * vget arg2 2 - vget arg1 2 * vget arg2 1)%flt;
   (F.opp (vget arg1 0) * vget arg2 2 + vget arg1 2 * vget arg2 0)%flt;
   (vget arg1 0 * vget arg2 1 - vget arg1 1 * vget arg2 0)%flt].

(** [abs(x)] and [abs2(x)], element by element. *)
Definition abs : Vector -> Vector := map fabs.
Definition abs2 : Vector -> Vector := map (fun x => (x * x)%flt).

Section Norm.

(** [std::sqrt] has no rational model; it is a parameter. *)
Variable sqrt : float -> float.

(** [norm()]. *)
Definition norm (v : Vector) : float := sqrt (squaredNorm v).

(** [normalize()]: [n = norm(); for (i...) mem[i] /= n;]. *)
Definition normalize (v : Vector) : Vector :=
  let n := norm v in
  map (fun x => (x / n)%flt) v.

End Norm.

(** ** Faults *)

(** What can go wrong in a run: a loop that never exits, a cast whose
    result C++ leaves undefined, an index past the end of a container, an
    exception that leaves the function. *)
Inductive fault : Type :=
| NonTermination
| UndefinedCast
| OutOfBounds
| Thrown.

Inductive result (A : Type) : Type :=
| Ok (a : A)
| Fault (f : fault).

Arguments Ok {A} a.
Arguments Fault {A} f.

Definition rbind {A B : Type} (r : result A) (k : A -> result B) : result B :=
  match r with
  | Ok a => k a
  | Fault f => Fault f
  end.

Definition of_option {A : Type} (f : fault) (o : option A) : result A :=
  match o with
  | Some a => Ok a
  | None => Fault f
  end.

Declare Scope result_scope.
Delimit Scope result_scope with res.
Notation "x <- r ;; k" := (rbind r (fun x => k))
  (at level 61, r at next level, right associativity) : result_scope.

(** ** Aesthetics *)

Module Aesthetic.

Inductive t : Type := x | y | color | size.

(** Modelled from the spec: [Aesthetic::x::index] and its siblings are
    declared outside the translated files; the spec lists the channels in
    the order x, y, color, size. *)
Definition index (a : t) : nat :=
  match a with
  | x => 0
  | y => 1
  | color => 2
  | size => 3
  end%nat.

End Aesthetic.

(** ** Axis.cpp *)

(** Modelled from the spec: [bbox<float,N>], a box given by its two corner
    vectors, comes from a header outside the translated files. *)
Record bbox : Type := mk_bbox { bmin : Vector; bmax : Vector }.

(** Modelled from the spec: [bbox::delta()], declared with [bbox]; the
    spec's spacing is [(max - min) / num_ticks] and its ratio is width over
    height, so [delta] is the extent [bmax - bmin]. *)
Definition delta (b : bbox) : Vector := vsub (bmax b) (bmin b).

Record TickInfo : Type := mk_TickInfo {
  x_val : list float;
  x_pos : list float;
  y_val : list float;
  y_pos : list float
}.

Record Axis : Type := mk_Axis {
  m_limits : bbox;
  m_pixels : bbox;
  m_sig_digits : Z;
  m_nx_ticks : Z;
  m_ny_ticks : Z;
  m_tick_info : TickInfo
}.

Definition set_tick_info (a : Axis) (ti : TickInfo) : Axis :=
  {| m_limits := m_limits a; m_pixels := m_pixels a;
     m_sig_digits := m_sig_digits a; m_nx_ticks := m_nx_ticks a;
     m_ny_ticks := m_ny_ticks a; m_tick_info := ti |}.

Definition calculate_num_ticks (a : Axis) : Vector :=
  if (0 <? m_nx_ticks a)%Z && (0 <? m_ny_ticks a)%Z then
    [F.of_Z (m_nx_ticks a); F.of_Z (m_ny_ticks a)]
  else
    let pix_ratio :=
      (vget (delta (m_pixels a)) 0 / vget (delta (m_pixels a)) 1)%flt in
    if (0 <? m_nx_ticks a)%Z then
      let n := F.of_Z (m_nx_ticks a) in
      [n; F.floor (n / pix_ratio)%flt]
    else if (0 <? m_ny_ticks a)%Z then
      let n := F.of_Z (m_ny_ticks a) in
      [F.floor (n * pix_ratio)%flt; n]
    else
      [F.floor (F.of_Z 5 * pix_ratio)%flt; F.of_Z 5].

(** One round of the loop [for (int i = 0; i < 2; ++i)] that replaces an
    empty range by [0 -> 1]. *)
Definition default_if_empty (b : bbox) (i : nat) : bbox :=
  if F.ltb (vget (bmax b) i) (vget (bmin b) i) then
    {| bmin := vset (bmin b) i F.zero; bmax := vset (bmax b) i F.one |}
  else b.

(** The two tick loops: [count] rounds from index [i], each appending
    [start + i * step] (for the y positions, [start - i * step]). *)
Fixpoint ticks_from (op : float -> float -> float) (count : nat) (i : Z)
    (start step : float) : list float :=
  match count with
  | O => []
  | S c =>
      op start (F.of_Z i * step)%flt :: ticks_from op c (i + 1) start step
  end.

Section AxisTicks.

(** [Axis::to_display<Aesthetic>] is declared in a header outside the
    translated files; it is a parameter here. *)
Variable to_display : Aesthetic.t -> Axis -> float -> float.

Definition update_tick_information (a : Axis) : result Axis :=
  let n_ticks := calculate_num_ticks a in
  let xy_limits :=
    {| bmin := [vget (bmin (m_limits a)) (Aesthetic.index Aesthetic.x);
                vget (bmin (m_limits a)) (Aesthetic.index Aesthetic.y)];
       bmax := [vget (bmax (m_limits a)) (Aesthetic.index Aesthetic.x);
                vget (bmax (m_limits a)) (Aesthetic.index Aesthetic.y)] |} in
  let xy_limits := default_if_empty (default_if_empty xy_limits 0) 1 in
  (tick_dx <- of_option NonTermination
                (round_off (vdiv (delta xy_limits) n_ticks) (m_sig_digits a)) ;;
   let tick_min := vmul (vceil (vdiv (bmin xy_limits) tick_dx)) tick_dx in
   let tick_dx_pixels :=
     vdiv (vmul tick_dx (delta (m_pixels a))) (delta xy_limits) in
   let tick_min_pixels :=
     [to_display Aesthetic.x a (vget tick_min 0);
      to_display Aesthetic.y a (vget tick_min 1)] in
   nx <- of_option UndefinedCast (F.to_int (vget n_ticks 0)) ;;
   let xv := ticks_from F.add (Z.to_nat nx) 0
               (vget tick_min 0) (vget tick_dx 0) in
   let xp := ticks_from F.add (Z.to_nat nx) 0
               (vget tick_min_pixels 0) (vget tick_dx_pixels 0) in
   ny <- of_option UndefinedCast (F.to_int (vget n_ticks 1)) ;;
   let yv := ticks_from F.add (Z.to_nat ny) 0
               (vget tick_min 1) (vget tick_dx 1) in
   let yp := ticks_from F.sub (Z.to_nat ny) 0
               (vget tick_min_pixels 1) (vget tick_dx_pixels 1) in
   Ok (set_tick_info a
         {| x_val := xv; x_pos := xp; y_val := yv; y_pos := yp |}))%res.

End AxisTicks.

(** ** Points.tcc *)

(** Modelled from the spec: [DataWithAesthetic] is declared outside the
    translated files.  It gives [rows()] and, per aesthetic channel, a row
    iterator [begin<T>()] that throws when the channel is not mapped. *)
Record DataWithAesthetic : Type := mk_Data {
  rows : nat;
  column : Aesthetic.t -> option (list float)
}.

Record FrameInfo : Type := mk_FrameInfo {
  frame_above : Z;
  w1 : float;
  w2 : float
}.

Record Points : Type := mk_Points {
  m_data : list DataWithAesthetic;
  m_times : list float;
  m_frame_info : FrameInfo;
  m_axis : Axis
}.

(** What a statement does to a data frame. *)
Inductive access : Type :=
| Rows
| Begin (a : Aesthetic.t)
| Deref (a : Aesthetic.t) (i : nat).

(** A row iterator: the column it walks and where it came from. *)
Record iterator : Type := mk_iterator {
  it_frame : Z;
  it_aes : Aesthetic.t;
  it_col : list float
}.

(** Modelled from the spec: [Points::update_frame_info] is defined outside
    the translated files; this is its search for "the earliest registered
    frame with timestamp >= t", counting indices from [i]. *)
Fixpoint first_at_or_after (times : list float) (t : float) (i : Z)
    : option Z :=
  match times with
  | [] => None
  | ti :: rest =>
      if F.geb ti t then Some i else first_at_or_after rest t (i + 1)
  end.

(** [m_times[i]]. *)
Definition time_at (times : list float) (i : Z) : float :=
  nth (Z.to_nat i) times F.NaN.

(** Modelled from the spec: the frame info of a query time, as
    [Points::update_frame_info] (outside the translated files) derives it.
    [frame_above] is the index of the earliest frame whose timestamp is at
    least the query time, or the last frame when the time exceeds every
    timestamp; [w1] and [w2 = 1 - w1] are the linear blend weights toward
    [frame_above] and [frame_above - 1]; before the first and after the last
    timestamp the endpoint frame is used alone, with [w2 = 0]. *)
Definition resolve_frame (times : list float) (t : float) : FrameInfo :=
  match first_at_or_after times t 0 with
  | None =>
      {| frame_above := Z.of_nat (length times) - 1;
         w1 := F.one; w2 := F.zero |}
  | Some f =>
      if (f =? 0)%Z then {| frame_above := 0; w1 := F.one; w2 := F.zero |}
      else
        let t0 := time_at times (f - 1) in
        let t1 := time_at times f in
        let w := ((t - t0) / (t1 - t0))%flt in
        {| frame_above := f; w1 := w; w2 := (F.one - w)%flt |}
  end.

(** Modelled from the spec: [Points::update_frame_info(time)] stores the
    frame info of the query time in [m_frame_info]. *)
Definition update_frame_info (p : Points) (time : float) : Points :=
  {| m_data := m_data p; m_times := m_times p;
     m_frame_info := resolve_frame (m_times p) time;
     m_axis := m_axis p |}.

Section Drawing.

(** The colormap ([m_colormap->to_color]) and the axis transform are
    collaborators declared outside the translated files. *)
Variable Color : Type.
Variable to_color : float -> Color.
Variable to_display : Aesthetic.t -> Axis -> float -> float.

(** Calls to the backend, and accesses made to the frames of [m_data]. *)
Inductive event : Type :=
| stroke_width (w : float)
| fill_color (c : Color)
| circle (px py r : float)
| add_animated_circle (px py r time : float)
| end_animated_circle
| frame_access (f : Z) (what : access).

(** A run: the events so far, and a value or the fault that stopped it. *)
Definition M (A : Type) : Type := (list event * result A)%type.

Definition ret {A : Type} (a : A) : M A := ([], Ok a).
Definition fail {A : Type} (f : fault) : M A := ([], Fault f).
Definition emit (e : event) : M unit := ([e], Ok tt).

Definition bind {A B : Type} (m : M A) (k : A -> M B) : M B :=
  match m with
  | (tr, Ok a) => let (tr', r) := k a in (tr ++ tr', r)
  | (tr, Fault f) => (tr, Fault f)
  end.

Notation "x <- m ;; k" := (bind m (fun x => k))
  (at level 61, m at next level, right associativity).
Notation "m ;; k" := (bind m (fun _ => k))
  (at level 61, right associativity).

(** [m_data[f]]. *)
Definition frame (p : Points) (f : Z) : M DataWithAesthetic :=
  if (f <? 0)%Z then fail OutOfBounds
  else
    match nth_error (m_data p) (Z.to_nat f) with
    | Some d => ret d
    | None => fail OutOfBounds
    end.

(** [m_data[f].rows()]. *)
Definition frame_rows (p : Points) (f : Z) : M nat :=
  d <- frame p f ;;
  emit (frame_access f Rows) ;;
  ret (rows d).

(** [m_data[f].begin<a>()]. *)
Definition frame_begin (p : Points) (f : Z) (a : Aesthetic.t) : M iterator :=
  d <- frame p f ;;
  emit (frame_access f (Begin a)) ;;
  match column d a with
  | Some c => ret {| it_frame := f; it_aes := a; it_col := c |}
  | None => fail Thrown
  end.

(** [it[i]]. *)
Definition deref (it : iterator) (i : nat) : M float :=
  emit (frame_access (it_frame it) (Deref (it_aes it) i)) ;;
  match nth_error (it_col it) i with
  | Some v => ret v
  | None => fail OutOfBounds
  end.

(** [check_aesthetic<a>(m_data[f])]: the exception of [begin] is caught. *)
Definition check_aesthetic (p : Points) (f : Z) (a : Aesthetic.t) : M bool :=
  match frame_begin p f a with
  | (tr, Ok _) => (tr, Ok true)
  | (tr, Fault Thrown) => (tr, Ok false)
  | (tr, Fault e) => (tr, Fault e)
  end.

(** The lambda [to_pixel] of [draw_frames] and [draw_plot]. *)
Definition to_pixel (ax : Axis) (have_color have_size : bool)
    (x y c s : float) : Vector :=
  [to_display Aesthetic.x ax x;
   to_display Aesthetic.y ax y;
   if have_color then to_display Aesthetic.color ax c else F.zero;
   if have_size then to_display Aesthetic.size ax s else F.one].

(** [for (int i = 0; i < m_data[0].rows(); ++i) body], from index [i]. *)
Fixpoint for_rows (p : Points) (fuel : nat) (i : nat) (body : nat -> M unit)
    : M unit :=
  n <- frame_rows p 0 ;;
  if (i <? n)%nat then
    match fuel with
    | O => fail NonTermination
    | S fuel' => body i ;; for_rows p fuel' (S i) body
    end
  else ret tt.

(** The loop runs [m_data[0].rows()] rounds, so that much fuel is enough. *)
Definition rows_fuel (p : Points) : nat :=
  match m_data p with
  | d :: _ => rows d
  | [] => O
  end.

(** [for (size_t f = 0; f < m_times.size(); ++f) body], over the
    timestamps left from index [f]. *)
Fixpoint for_frames (times : list float) (f : Z)
    (body : Z -> float -> M unit) : M unit :=
  match times with
  | [] => ret tt
  | t :: rest => body f t ;; for_frames rest (f + 1) body
  end.

(** The arguments of a call are evaluated left to right. *)
Definition draw_frames (p : Points) : M unit :=
  have_color <- check_aesthetic p 0 Aesthetic.color ;;
  have_size <- check_aesthetic p 0 Aesthetic.size ;;
  emit (stroke_width F.zero) ;;
  for_rows p (rows_fuel p) 0 (fun i =>
    for_frames (m_times p) 0 (fun f t =>
      itx <- frame_begin p f Aesthetic.x ;;
      x <- deref itx i ;;
      ity <- frame_begin p f Aesthetic.y ;;
      y <- deref ity i ;;
      c <- (if have_color : bool
            then itc <- frame_begin p f Aesthetic.color ;; deref itc i
            else ret F.zero) ;;
      s <- (if have_size : bool
            then its <- frame_begin p f Aesthetic.size ;; deref its i
            else ret F.zero) ;;
      let px := to_pixel (m_axis p) have_color have_size x y c s in
      emit (fill_color (to_color (vget px 2))) ;;
      emit (add_animated_circle (vget px 0) (vget px 1) (vget px 3) t)) ;;
    emit end_animated_circle).

Definition draw_plot (p : Points) : M unit :=
  let f := frame_above (m_frame_info p) in
  let w1 := w1 (m_frame_info p) in
  let w2 := w2 (m_frame_info p) in
  have_color <- check_aesthetic p f Aesthetic.color ;;
  have_size <- check_aesthetic p f Aesthetic.size ;;
  emit (stroke_width F.zero) ;;
  if F.eqb w2 F.zero then
    x <- frame_begin p f Aesthetic.x ;;
    y <- frame_begin p f Aesthetic.y ;;
    color <- (if have_color : bool
              then frame_begin p f Aesthetic.color else ret x) ;;
    size <- (if have_size : bool
             then frame_begin p f Aesthetic.size else ret x) ;;
    for_rows p (rows_fuel p) 0 (fun i =>
      xi <- deref x i ;;
      yi <- deref y i ;;
      ci <- deref color i ;;
      si <- deref size i ;;
      let px := to_pixel (m_axis p) have_color have_size xi yi ci si in
      emit (fill_color (to_color (vget px 2))) ;;
      emit (circle (vget px 0) (vget px 1) (vget px 3)))
  else
    x0 <- frame_begin p (f - 1) Aesthetic.x ;;
    y0 <- frame_begin p (f - 1) Aesthetic.y ;;
    color0 <- (if have_color : bool
               then frame_begin p (f - 1) Aesthetic.color else ret x0) ;;
    size0 <- (if have_size : bool
              then frame_begin p (f - 1) Aesthetic.size else ret x0) ;;
    x1 <- frame_begin p f Aesthetic.x ;;
    y1 <- frame_begin p f Aesthetic.y ;;
    color1 <- (if have_color : bool
               then frame_begin p f Aesthetic.color else ret x1) ;;
    size1 <- (if have_size : bool
              then frame_begin p f Aesthetic.size else ret x1) ;;
    for_rows p (rows_fuel p) 0 (fun i =>
      x1i <- deref x1 i ;;
      y1i <- deref y1 i ;;
      c1i <- deref color1 i ;;
      s1i <- deref size1 i ;;
      x0i <- deref x0 i ;;
      y0i <- deref y0 i ;;
      c0i <- deref color0 i ;;
      s0i <- deref size0 i ;;
      let px :=
        vadd (vscale w1 (to_pixel (m_axis p) have_color have_size
                           x1i y1i c1i s1i))
             (vscale w2 (to_pixel (m_axis p) have_color have_size
                           x0i y0i c0i s0i)) in
      emit (fill_color (to_color (vget px 2))) ;;
      emit (circle (vget px 0) (vget px 1) (vget px 3))).

(** [draw(AnimatedBackend &)]. *)
Definition draw (p : Points) : M unit := draw_frames p.

(** [draw(Backend &, float time)]. *)
Definition draw_at (p : Points) (time : float) : M unit :=
  draw_plot (update_frame_info p time).

End Drawing.

Arguments stroke_width {Color} w.
Arguments circle {Color} px py r.
Arguments add_animated_circle {Color} px py r time.
Arguments end_animated_circle {Color}.
Arguments frame_access {Color} f what.
Arguments ret {Color A} a.
Arguments fail {Color A} f.
Arguments frame {Color} p f.
Arguments frame_rows {Color} p f.
Arguments frame_begin {Color} p f a.
Arguments deref {Color} it i.
Arguments check_aesthetic {Color} p f a.
Arguments for_rows {Color} p fuel i body.
Arguments for_frames {Color} times f body.
Arguments emit {Color} e.

(** ** Axis.cpp: the series of an axis *)

(** [Plot1D], [Transform] and [RGBA] are declared outside the translated
    files.  This is what [plot_impl] uses of them: four member functions of
    [Plot1D] and the palette [RGBA::defaults]. *)
Class Plot1D_interface (Plot1D Transform RGBA : Type) : Type := {
  set_transform : Plot1D -> Transform -> Plot1D;
  add_frame : Plot1D -> DataWithAesthetic -> float -> Plot1D;
  set_color : Plot1D -> RGBA -> Plot1D;
  resize : Plot1D -> bbox -> Plot1D;
  defaults : list RGBA
}.

Section Series.

Context {Plot1D Transform RGBA : Type}.
Context {plots : Plot1D_interface Plot1D Transform RGBA}.

(** [std::make_shared<Points>(this)] and its siblings. *)
Variable make_Points : Axis -> Plot1D.
Variable make_Line : Axis -> Plot1D.
Variable make_Histogram : Axis -> Plot1D.

(** [Axis::plot(n)]: [m_children.at(n)] throws when [n], converted to an
    unsigned index, is not below the number of children.  [m_children] is
    the list of the series in the order of their registration; in the
    translated file only [plot_impl] adds to it. *)
Definition plot (m_children : list Plot1D) (n : Z) : result Plot1D :=
  if (n <? 0)%Z then Fault Thrown
  else of_option Thrown (nth_error m_children (Z.to_nat n)).

(** [Axis::plot_impl]: the series after the four calls, and [m_children]
    after the [push_back].  Reading [RGBA::defaults] past its end is
    undefined. *)
Definition plot_impl (a : Axis) (m_children : list Plot1D) (plot : Plot1D)
    (transform : Transform) (values : DataWithAesthetic)
    : result (Plot1D * list Plot1D) :=
  let plot := set_transform plot transform in
  let plot := add_frame plot values (F.of_Z 0) in
  (c <- of_option OutOfBounds (nth_error defaults (length m_children)) ;;
   let plot := set_color plot c in
   let plot := resize plot (m_pixels a) in
   Ok (plot, m_children ++ [plot]))%res.

Definition points (a : Axis) (m_children : list Plot1D)
    (data : DataWithAesthetic) (transform : Transform)
    : result (Plot1D * list Plot1D) :=
  plot_impl a m_children (make_Points a) transform data.

Definition line (a : Axis) (m_children : list Plot1D)
    (data : DataWithAesthetic) (transform : Transform)
    : result (Plot1D * list Plot1D) :=
  plot_impl a m_children (make_Line a) transform data.

Definition histogram (a : Axis) (m_children : list Plot1D)
    (data : DataWithAesthetic) (transform : Transform)
    : result (Plot1D * list Plot1D) :=
  plot_impl a m_children (make_Histogram a) transform data.

End Series.

(** * Vocabulary of the properties *)

(** ** Decimal digits and rounding *)

(** Powers of ten. *)
Definition tp (k : Z) : Q := inject_Z 10 ^ k.

(** [digits q k]: [k] is the number of decimal digits of the integer part
    of [q] (none when [q < 1]). *)
Definition digits (q : Q) (k : Z) : Prop :=
  (0 <= k)%Z /\ q < tp k /\ (k = 0%Z \/ tp (k - 1) <= q).

(** Half-up rounding of [q] at precision [10^(n-k)]. *)
Definition rnd (q : Q) (n k : Z) : Q :=
  inject_Z (Qfloor (q * tp (n - k) + (1 # 2))) / tp (n - k).

(** ** Axes *)

(** The ratio of the viewport's width to its height. *)
Definition pix_ratio (a : Axis) : float :=
  (vget (delta (m_pixels a)) 0 / vget (delta (m_pixels a)) 1)%flt.

Fixpoint nondecreasing (l : list float) : bool :=
  match l with
  | a :: (b :: _) as t => F.geb b a && nondecreasing t
  | _ => true
  end.

(** ** Runs of the drawing code *)

Section RunVocabulary.

Variable Color : Type.
Variable to_color : float -> Color.
Variable to_display : Aesthetic.t -> Axis -> float -> float.

Definition is_backend (e : event Color) : bool :=
  match e with
  | frame_access _ _ => false
  | _ => true
  end.

(** The calls received by the backend, in order. *)
Definition backend_calls (tr : list (event Color)) : list (event Color) :=
  filter is_backend tr.

(** [holds P Q m]: every event of the run satisfies [P], and the value,
    when there is one, satisfies [Q]. *)
Definition holds {A : Type} (P : event Color -> Prop) (Q : A -> Prop)
    (m : M Color A) : Prop :=
  Forall P (fst m) /\ forall a, snd m = Ok a -> Q a.

(** [yields m calls a]: the run ends with value [a] after sending exactly
    [calls] to the backend. *)
Definition yields {A : Type} (m : M Color A) (calls : list (event Color))
    (a : A) : Prop :=
  snd m = Ok a /\ backend_calls (fst m) = calls.

(** The run does not stop for lack of fuel. *)
Definition finishes {A : Type} (m : M Color A) : Prop :=
  snd m <> Fault NonTermination.

Definition color_at_zero (e : event Color) : Prop :=
  match e with
  | fill_color c => c = to_color F.zero
  | _ => True
  end.

Definition radius_one (e : event Color) : Prop :=
  match e with
  | circle _ _ r => r = F.one
  | add_animated_circle _ _ r _ => r = F.one
  | _ => True
  end.

(** An access is to frame [f], or it is the row count of frame 0. *)
Definition touches_only (f : Z) (e : event Color) : Prop :=
  match e with
  | frame_access k what => k = f \/ (k = 0%Z /\ what = Rows)
  | _ => True
  end.

Definition has (d : DataWithAesthetic) (a : Aesthetic.t) : bool :=
  match column d a with Some _ => true | None => false end.

(** A frame is usable for [n] rows: x and y are mapped, and every mapped
    channel has at least [n] entries. *)
Definition column_ok (n : nat) (d : DataWithAesthetic) (a : Aesthetic.t)
    (required : bool) : bool :=
  match column d a with
  | Some c => (n <=? length c)%nat
  | None => negb required
  end.

Definition frame_ok (n : nat) (d : DataWithAesthetic) : bool :=
  column_ok n d Aesthetic.x true && column_ok n d Aesthetic.y true &&
  column_ok n d Aesthetic.color false && column_ok n d Aesthetic.size false.

Definition same_aesthetics (d d' : DataWithAesthetic) : bool :=
  Bool.eqb (has d Aesthetic.color) (has d' Aesthetic.color) &&
  Bool.eqb (has d Aesthetic.size) (has d' Aesthetic.size).

(** Row [i] of channel [a]. *)
Definition value (d : DataWithAesthetic) (a : Aesthetic.t) (i : nat) : float :=
  match column d a with
  | Some c => nth i c F.NaN
  | None => F.NaN
  end.

(** The axis transform of row [i] of a frame: position, colormap
    coordinate and radius in pixel space. *)
Definition row_pixel (ax : Axis) (d : DataWithAesthetic) (i : nat) : Vector :=
  [to_display Aesthetic.x ax (value d Aesthetic.x i);
   to_display Aesthetic.y ax (value d Aesthetic.y i);
   if has d Aesthetic.color
   then to_display Aesthetic.color ax (value d Aesthetic.color i) else F.zero;
   if has d Aesthetic.size
   then to_display Aesthetic.size ax (value d Aesthetic.size i) else F.one].

Definition blended_row (ax : Axis) (u v : float) (d1 d0 : DataWithAesthetic)
    (i : nat) : Vector :=
  vadd (vscale u (row_pixel ax d1 i)) (vscale v (row_pixel ax d0 i)).

(** The two backend calls that draw one point. *)
Definition circle_calls (px : Vector) : list (event Color) :=
  [fill_color (to_color (vget px 2)); circle (vget px 0) (vget px 1) (vget px 3)].

Definition is_circle (e : event Color) : bool :=
  match e with circle _ _ _ => true | _ => false end.

End RunVocabulary.

Arguments is_backend {Color} e.
Arguments backend_calls {Color} tr.
Arguments holds {Color A} P Q m.
Arguments yields {Color A} m calls a.
Arguments finishes {Color A} m.
Arguments color_at_zero {Color} to_color e.
Arguments radius_one {Color} e.
Arguments touches_only {Color} f e.
Arguments circle_calls {Color} to_color px.
Arguments is_circle {Color} e.

(** ** Timestamps *)

(** Finite, strictly increasing timestamps. *)
Fixpoint increasing (times : list float) : bool :=
  match times with
  | [] => true
  | a :: rest =>
      F.is_finite a && increasing rest &&
      match rest with
      | b :: _ => F.ltb a b
      | [] => true
      end
  end.

(** The three outcomes of the resolution. *)
Inductive resolution (times : list float) (t : float) (info : FrameInfo) : Prop :=
| at_first :
    frame_above info = 0%Z -> w1 info = F.one -> w2 info = F.zero ->
    F.geb (nth 0 times F.NaN) t = true ->
    resolution times t info
| past_last :
    frame_above info = (Z.of_nat (length times) - 1)%Z ->
    w1 info = F.one -> w2 info = F.zero ->
    (forall j, (j < length times)%nat -> F.geb (nth j times F.NaN) t = false) ->
    resolution times t info
| between (k : nat) (q q0 q1 x : Q) :
    frame_above info = Z.of_nat (S k) -> (S k < length times)%nat ->
    nth k times F.NaN = F.Fin q0 -> nth (S k) times F.NaN = F.Fin q1 ->
    t = F.Fin q -> q0 < q -> q <= q1 -> q0 < q1 ->
    w1 info = F.Fin x -> w2 info = (F.one - F.Fin x)%flt ->
    x == (q - q0) / (q1 - q0) ->
    (forall j, (j < S k)%nat -> F.geb (nth j times F.NaN) t = false) ->
    resolution times t info.

(** ** Concrete axes and series *)

Definition no_ticks : TickInfo :=
  {| x_val := []; x_pos := []; y_val := []; y_pos := [] |}.

(** An axis over the given limits and viewport, two significant digits. *)
Definition axis_of (limits pixels : bbox) (nx ny : Z) : Axis :=
  {| m_limits := limits; m_pixels := pixels; m_sig_digits := 2;
     m_nx_ticks := nx; m_ny_ticks := ny; m_tick_info := no_ticks |}.

Definition box2 (x0 y0 x1 y1 : Z) : bbox :=
  {| bmin := [F.of_Z x0; F.of_Z y0]; bmax := [F.of_Z x1; F.of_Z y1] |}.

Definition limits4 (x0 y0 x1 y1 : Z) : bbox :=
  {| bmin := [F.of_Z x0; F.of_Z y0; F.zero; F.zero];
     bmax := [F.of_Z x1; F.of_Z y1; F.zero; F.zero] |}.

(** A frame that maps x and y to the given columns, and neither color nor
    size. *)
Definition xy_frame (xs ys : list Z) : DataWithAesthetic :=
  {| rows := length xs;
     column := fun a =>
       match a with
       | Aesthetic.x => Some (map F.of_Z xs)
       | Aesthetic.y => Some (map F.of_Z ys)
       | _ => None
       end |}.

Definition unit_axis : Axis :=
  axis_of (limits4 0 0 10 10) (box2 0 0 100 100) 0 0.

(** Two frames of two rows each, at times 0 and 1. *)
Definition two_frames : Points :=
  {| m_data := [xy_frame [1; 2]%Z [3; 4]%Z; xy_frame [5; 6]%Z [7; 8]%Z];
     m_times := [F.of_Z 0; F.of_Z 1];
     m_frame_info := {| frame_above := 0; w1 := F.one; w2 := F.zero |};
     m_axis := unit_axis |}.

(** A series before any frame is registered. *)
Definition no_frames : Points :=
  {| m_data := []; m_times := [];
     m_frame_info := {| frame_above := 0; w1 := F.one; w2 := F.zero |};
     m_axis := unit_axis |}.

(** The identity as axis transform and as colormap. *)
Definition plain_display (a : Aesthetic.t) (ax : Axis) (v : float) : float := v.

Definition plain_color (v : float) : float := v.

(** ** Vectors *)

Definition is_nan (x : float) : bool :=
  match x with F.NaN => true | _ => false end.

(** No element is NaN. *)
Definition nan_free (v : Vector) : bool :=
  forallb (fun x => negb (is_nan x)) v.

(** Every element is a finite number. *)
Definition finite (v : Vector) : bool := forallb F.is_finite v.

(** ** Registering series *)

Section SeriesVocabulary.

Context {Plot1D Transform RGBA : Type}.
Context {plots : Plot1D_interface Plot1D Transform RGBA}.

(** What [plot_impl] makes of a series, given the color [c]. *)
Definition prepared (a : Axis) (plot : Plot1D) (transform : Transform)
    (values : DataWithAesthetic) (c : RGBA) : Plot1D :=
  resize
    (set_color (add_frame (set_transform plot transform) values (F.of_Z 0)) c)
    (m_pixels a).

(** One call of [plot_impl] after the other, each on the children left by
    the one before. *)
Fixpoint register (a : Axis) (m_children : list Plot1D)
    (calls : list (Plot1D * Transform * DataWithAesthetic))
    : result (list Plot1D) :=
  match calls with
  | [] => Ok m_children
  | (plot, transform, values) :: rest =>
      match plot_impl a m_children plot transform values with
      | Ok (_, m_children') => register a m_children' rest
      | Fault f => Fault f
      end
  end.

End SeriesVocabulary.

(** A series that records the calls made on it, and a palette of three
    colors. *)
Inductive plot_call : Type :=
| SetTransform (t : nat)
| AddFrame (values : DataWithAesthetic) (time : float)
| SetColor (c : nat)
| Resize (pixels : bbox).

#[local] Instance recording_plots : Plot1D_interface (list plot_call) nat nat := {
  set_transform p t := p ++ [SetTransform t];
  add_frame p d time := p ++ [AddFrame d time];
  set_color p c := p ++ [SetColor c];
  resize p b := p ++ [Resize b];
  defaults := [10; 20; 30]%nat
}.

(** ** Tick layout *)

(** The x and y limits that [update_tick_information] lays the ticks on:
    those of the axis, an empty range replaced by [0 -> 1]. *)
Definition tick_limits (a : Axis) : bbox :=
  default_if_empty
    (default_if_empty
       {| bmin := [vget (bmin (m_limits a)) (Aesthetic.index Aesthetic.x);
                   vget (bmin (m_limits a)) (Aesthetic.index Aesthetic.y)];
          bmax := [vget (bmax (m_limits a)) (Aesthetic.index Aesthetic.x);
                   vget (bmax (m_limits a)) (Aesthetic.index Aesthetic.y)] |}
       0) 1.

(** The tick spacing before it is rounded: extent over tick count. *)
Definition raw_spacing (a : Axis) : Vector :=
  vdiv (delta (tick_limits a)) (calculate_num_ticks a).

(** [on_grid lo ticks]: when the first of the tick values is a finite
    number, all of them are: they are the consecutive multiples of a
    spacing [d > 0], starting from the least multiple that is not below the
    finite lower limit [lo]. *)
Definition on_grid (lo : float) (ticks : list float) : Prop :=
  forall (t0 : Q) (rest : list float),
    ticks = F.Fin t0 :: rest ->
    exists (qlo d : Q) (z : Z),
      lo = F.Fin qlo /\ 0 < d /\
      t0 == inject_Z z * d /\ qlo <= t0 /\ t0 < qlo + d /\
      forall (i : nat) (v : float),
        nth_error ticks i = Some v ->
        exists ti : Q, v = F.Fin ti /\ ti == t0 + inject_Z (Z.of_nat i) * d.

(** The unit axis with its ticks laid out: 0, 2, 4, 6, 8 on each axis, 20
    pixels apart. *)
Definition unit_axis_ticks : Axis :=
  set_tick_info unit_axis
    {| x_val := map F.of_Z [0; 2; 4; 6; 8]%Z;
       x_pos := map F.of_Z [0; 20; 40; 60; 80]%Z;
       y_val := map F.of_Z [0; 2; 4; 6; 8]%Z;
       y_pos := map F.of_Z [0; -20; -40; -60; -80]%Z |}.

(** ** Runs that stop *)

Section StopVocabulary.

Variable Color : Type.
Variable to_color : float -> Color.

(** [stops m calls f]: the run stops with the fault [f] after sending
    exactly [calls] to the backend. *)
Definition stops {A : Type} (m : M Color A) (calls : list (event Color))
    (f : fault) : Prop :=
  snd m = Fault f /\ backend_calls (fst m) = calls.

(** The two backend calls that add one keyframe to an animated circle. *)
Definition keyframe_calls (px : Vector) (time : float) : list (event Color) :=
  [fill_color (to_color (vget px 2));
   add_animated_circle (vget px 0) (vget px 1) (vget px 3) time].

Variable to_display : Aesthetic.t -> Axis -> float -> float.

(** The body of the inner loop of [draw_frames]: the keyframe of row [i]
    at frame [f] with timestamp [t]. *)
Definition keyframe (p : Points) (have_color have_size : bool) (i : nat)
    (f : Z) (t : float) : M Color unit :=
  bind (frame_begin p f Aesthetic.x) (fun itx =>
  bind (deref itx i) (fun x =>
  bind (frame_begin p f Aesthetic.y) (fun ity =>
  bind (deref ity i) (fun y =>
  bind (if have_color
        then bind (frame_begin p f Aesthetic.color) (fun itc => deref itc i)
        else ret F.zero) (fun c =>
  bind (if have_size
        then bind (frame_begin p f Aesthetic.size) (fun its => deref its i)
        else ret F.zero) (fun s =>
  let px := to_pixel to_display (m_axis p) have_color have_size x y c s in
  bind (emit (fill_color (to_color (vget px 2)))) (fun _ =>
  emit (add_animated_circle (vget px 0) (vget px 1) (vget px 3) t)))))))).

End StopVocabulary.

Arguments stops {Color A} m calls f.
Arguments keyframe_calls {Color} to_color px time.

(** A frame that maps all four channels to the given columns. *)
Definition full_frame (xs ys cs ss : list Z) : DataWithAesthetic :=
  {| rows := length xs;
     column := fun a =>
       match a with
       | Aesthetic.x => Some (map F.of_Z xs)
       | Aesthetic.y => Some (map F.of_Z ys)
       | Aesthetic.color => Some (map F.of_Z cs)
       | Aesthetic.size => Some (map F.of_Z ss)
       end |}.

(** A series of the given frames at times 0, 1, ..., with the given frame
    info, on the unit axis. *)
Definition series (frames : list DataWithAesthetic) (info : FrameInfo)
    : Points :=
  {| m_data := frames;
     m_times := map (fun i => F.of_Z (Z.of_nat i)) (seq 0 (length frames));
     m_frame_info := info;
     m_axis := unit_axis |}.

(** * Properties *)

(** ** Numbers *)

Lemma fin_eq (p q : Q) : p == q -> F.fin p = F.fin q.
Proof. intros H. unfold F.fin. f_equal. now apply Qred_complete. Qed.

Lemma geb_fin_one (q : Q) : F.geb (F.Fin q) F.one = true <-> 1 <= q.
Proof.
  unfold F.geb, F.one, F.of_Z. cbn [F.compare].
  change (inject_Z 1) with 1%Q.
  destruct (q ?= 1) eqn:E.
  - apply Qeq_alt in E. split; [intros _; rewrite E; apply Qle_refl | reflexivity].
  - apply Qlt_alt in E. split; [discriminate | intros H; exfalso; lra].
  - apply Qgt_alt in E. split; [intros _; lra | reflexivity].
Qed.

Lemma geb_fin_one_false (q : Q) : F.geb (F.Fin q) F.one = false <-> q < 1.
Proof.
  destruct (F.geb (F.Fin q) F.one) eqn:E.
  - apply geb_fin_one in E. split; [discriminate | intros; exfalso; lra].
  - split; [intros _ | reflexivity].
    destruct (Qlt_le_dec q 1) as [H | H]; [exact H |].
    apply geb_fin_one in H. congruence.
Qed.

Lemma div_fin_ten (q : Q) : (F.Fin q / F.ten)%flt = F.fin (q / 10).
Proof. reflexivity. Qed.

Lemma tp_pos (k : Z) : 0 < tp k.
Proof. apply Qpower_0_lt. reflexivity. Qed.

Lemma tp_nonzero (k : Z) : ~ tp k == 0.
Proof. pose proof (tp_pos k). intros E. rewrite E in H. lra. Qed.

Lemma tp_succ (k : Z) : tp (k + 1) == 10 * tp k.
Proof.
  unfold tp. rewrite Qpower_plus by discriminate.
  change (inject_Z 10 ^ 1) with (inject_Z 10). change (inject_Z 10) with 10%Q. ring.
Qed.

Lemma tp_pred (k : Z) : tp k == 10 * tp (k - 1).
Proof. rewrite <- tp_succ. now replace (k - 1 + 1)%Z with k by lia. Qed.

Lemma tp_0 : tp 0 == 1.
Proof. reflexivity. Qed.

Lemma tp_le (j k : Z) : (j <= k)%Z -> tp j <= tp k.
Proof. intros H. apply Qpower_le_compat_l; [exact H | discriminate]. Qed.

Lemma tp_lt (j k : Z) : (j < k)%Z -> tp j < tp k.
Proof. intros H. apply Qpower_lt_compat_l; [exact H | reflexivity]. Qed.

Lemma tp_int (k : Z) : (0 <= k)%Z -> tp k == inject_Z (10 ^ k).
Proof. intros H. unfold tp. now rewrite Zpower_Qpower. Qed.

Lemma tp_add (j k : Z) : tp (j + k) == tp j * tp k.
Proof. unfold tp. apply Qpower_plus. discriminate. Qed.

Lemma pow10_tp (k : Z) : F.pow10 k = F.fin (tp k).
Proof. reflexivity. Qed.

Lemma digits_unique (q : Q) (j k : Z) : digits q j -> digits q k -> j = k.
Proof.
  intros (Hj & Hj1 & Hj2) (Hk & Hk1 & Hk2).
  destruct (Z.lt_trichotomy j k) as [L | [E | L]]; [exfalso | exact E | exfalso].
  - destruct Hk2 as [-> | Hk2]; [lia |].
    pose proof (@tp_le j (k - 1) ltac:(lia)). lra.
  - destruct Hj2 as [-> | Hj2]; [lia |].
    pose proof (@tp_le k (j - 1) ltac:(lia)). lra.
Qed.

Lemma digits_small (q : Q) : q < 1 -> digits q 0.
Proof. intros H. repeat split; [lia | rewrite tp_0; exact H | now left]. Qed.

Lemma digits_tenth (q : Q) (k : Z) : 1 <= q -> digits (q / 10) k -> digits q (k + 1).
Proof.
  intros H1 (Hk & Hlt & Hge).
  assert (E : q == 10 * (q / 10)) by (field).
  repeat split; [lia | rewrite tp_succ; lra |].
  right. replace (k + 1 - 1)%Z with k by lia.
  destruct Hge as [-> | Hge]; [rewrite tp_0; exact H1 |].
  rewrite (tp_pred k). lra.
Qed.

Lemma digits_step (q : Q) (k : Z) : 1 <= q -> digits q k -> digits (q / 10) (k - 1).
Proof.
  intros H1 (Hk & Hlt & Hge).
  assert (E : q == 10 * (q / 10)) by (field).
  destruct Hge as [-> | Hge]; [rewrite tp_0 in Hlt; exfalso; lra |].
  assert (Hk1 : (1 <= k)%Z).
  { destruct (Z.eq_dec k 0) as [-> | ]; [| lia].
    rewrite tp_0 in Hlt. exfalso; lra. }
  repeat split; [lia | rewrite (tp_pred k) in Hlt; lra |].
  destruct (Z.eq_dec (k - 1) 0) as [E0 | N0]; [now left | right].
  rewrite (tp_pred (k - 1)) in Hge. lra.
Qed.

Lemma digits_Qeq (p q : Q) (k : Z) : p == q -> digits p k -> digits q k.
Proof. intros E (H0 & H1 & H2). unfold digits. rewrite <- E. auto. Qed.

(** The loop computes [digits], given fuel for one round per digit. *)
Lemma count_digits_exact (k : nat) :
  forall (fuel : nat) (q : Q) (i : Z),
    (k <= fuel)%nat -> digits q (Z.of_nat k) ->
    count_digits fuel (F.Fin q) i = Some (i + Z.of_nat k)%Z.
Proof.
  induction k as [| k IH]; intros fuel q i Hf Hd.
  - destruct Hd as (_ & Hlt & _). rewrite tp_0 in Hlt.
    apply geb_fin_one_false in Hlt.
    destruct fuel; cbn [count_digits]; rewrite Hlt; f_equal; cbn; lia.
  - assert (H1 : 1 <= q).
    { destruct Hd as (_ & _ & [E | Hge]); [lia |].
      pose proof (@tp_le 0 (Z.of_nat (S k) - 1) ltac:(lia)) as H.
      rewrite tp_0 in H. lra. }
    destruct fuel as [| fuel]; [lia |].
    cbn [count_digits]. rewrite (proj2 (geb_fin_one q) H1), div_fin_ten.
    unfold F.fin. rewrite (IH fuel (Qred (q / 10)) (i + 1)%Z); [f_equal; lia | lia |].
    apply digits_Qeq with (q / 10); [symmetry; apply Qred_correct |].
    replace (Z.of_nat k) with (Z.of_nat (S k) - 1)%Z by lia.
    now apply digits_step.
Qed.

(** Every rational has a digit count, bounded by the binary size. *)
Lemma digits_exists (fuel : nat) :
  forall q : Q, q < inject_Z (2 ^ Z.of_nat fuel) ->
    exists k : nat, (k <= fuel)%nat /\ digits q (Z.of_nat k).
Proof.
  induction fuel as [| fuel IH]; intros q Hq.
  - exists 0%nat. split; [lia |]. apply digits_small. exact Hq.
  - destruct (Qlt_le_dec q 1) as [Hs | Hb].
    + exists 0%nat. split; [lia | now apply digits_small].
    + destruct (IH (q / 10)) as (k & Hk & Hd).
      { replace (2 ^ Z.of_nat (S fuel))%Z with (2 * 2 ^ Z.of_nat fuel)%Z in Hq
          by (rewrite Nat2Z.inj_succ, Z.pow_succ_r; lia).
        rewrite inject_Z_mult in Hq. change (inject_Z 2) with 2%Q in Hq.
        assert (E : q == 10 * (q / 10)) by field.
        assert (0 < inject_Z (2 ^ Z.of_nat fuel)).
        { change 0%Q with (inject_Z 0). rewrite <- Zlt_Qlt.
          apply Z.pow_pos_nonneg; lia. }
        lra. }
      exists (S k). split; [lia |].
      replace (Z.of_nat (S k)) with (Z.of_nat k + 1)%Z by lia.
      now apply digits_tenth.
Qed.

Lemma digits_fuel_bound (q : Q) :
  q < inject_Z (2 ^ Z.of_nat (digits_fuel (F.Fin q))).
Proof.
  unfold digits_fuel.
  pose proof (Qlt_floor q) as Hq.
  apply Qlt_le_trans with (1 := Hq). rewrite <- Zle_Qle.
  rewrite Z2Nat.id by (pose proof (Z.log2_nonneg (Qfloor q)); lia).
  destruct (Z.le_gt_cases (Qfloor q) 0) as [H0 | H0].
  - rewrite Z.log2_nonpos by exact H0. cbn. lia.
  - pose proof (Z.log2_spec (Qfloor q) ltac:(lia)) as [_ H].
    replace (Z.succ (Z.log2 (Qfloor q))) with (Z.log2 (Qfloor q) + 1)%Z in H by lia.
    lia.
Qed.

Lemma digits_total (q : Q) :
  exists k : nat, (k <= digits_fuel (F.Fin q))%nat /\ digits q (Z.of_nat k).
Proof. apply digits_exists, digits_fuel_bound. Qed.

(** More fuel than [digits_fuel] changes nothing. *)
Lemma count_digits_fuel (q : Q) (fuel : nat) :
  (digits_fuel (F.Fin q) <= fuel)%nat ->
  count_digits fuel (F.Fin q) 0 = count_digits (digits_fuel (F.Fin q)) (F.Fin q) 0.
Proof.
  intros H. destruct (digits_total q) as (k & Hk & Hd).
  rewrite (@count_digits_exact k fuel q 0 ltac:(lia) Hd).
  now rewrite (@count_digits_exact k _ q 0 Hk Hd).
Qed.

(** From [+inf] the loop never exits: [inf >= 1] and [inf / 10 = inf]. *)
Lemma count_digits_inf (fuel : nat) (i : Z) :
  count_digits fuel (F.Inf false) i = None.
Proof.
  revert i. induction fuel as [| fuel IH]; intros i; [reflexivity |].
  cbn [count_digits]. change (F.geb (F.Inf false) F.one) with true.
  change (F.Inf false / F.ten)%flt with (F.Inf false). apply IH.
Qed.

(** ** round_off on finite values *)

Lemma Qeq_bool_false (q : Q) : ~ q == 0 -> Qeq_bool q 0 = false.
Proof.
  intros H. destruct (Qeq_bool q 0) eqn:E; [| reflexivity].
  apply Qeq_bool_iff in E. contradiction.
Qed.

Lemma Qltb_false (q : Q) : 0 <= q -> F.Qltb q 0 = false.
Proof.
  intros H. unfold F.Qltb. apply negb_false_iff. now apply Qle_bool_iff.
Qed.

(** The arithmetic of [floor(v * d + 0.5) / d] on a finite [v]. *)
Lemma round_expr_fin (q d : Q) :
  ~ d == 0 ->
  (F.floor (F.Fin q * F.fin d + F.half) / F.fin d)%flt
  = F.fin (inject_Z (Qfloor (q * d + (1 # 2))) / d).
Proof.
  intros Hd. unfold F.half.
  cbn [F.mul F.add F.floor F.of_Z F.div F.fin].
  rewrite Qeq_bool_false by (now rewrite Qred_correct).
  unfold F.fin.
  f_equal. apply Qred_complete.
  assert (E : Qred (Qred (q * Qred d) + (1 # 2)) == q * d + (1 # 2))
    by (now rewrite 3!Qred_correct).
  rewrite E. rewrite (Qred_correct d) at 1. reflexivity.
Qed.

Lemma round_off_step_fin (fuel : nat) (q : Q) (n k : Z) :
  count_digits fuel (F.Fin q) 0 = Some k ->
  round_off_step fuel (F.Fin q) n = Some (F.fin (rnd q n k)).
Proof.
  intros H. unfold round_off_step. rewrite H, pow10_tp.
  cbv zeta. now rewrite round_expr_fin by apply tp_nonzero.
Qed.

Lemma count_digits_digits (q : Q) (k : Z) :
  digits q k -> count_digits (digits_fuel (F.Fin q)) (F.Fin q) 0 = Some k.
Proof.
  intros Hd. destruct (digits_total q) as (k0 & Hk0 & Hd0).
  rewrite (@count_digits_exact k0 _ q 0 Hk0 Hd0).
  f_equal. rewrite Z.add_0_l. exact (digits_unique Hd0 Hd).
Qed.

Lemma round_off_elem_fin (q : Q) (n k : Z) :
  digits q k -> round_off_elem (F.Fin q) n = Some (F.fin (rnd q n k)).
Proof.
  intros Hd. apply round_off_step_fin. now apply count_digits_digits.
Qed.

(** The result does not depend on the fuel once there is enough. *)
Lemma round_off_step_fuel (fuel : nat) (q : Q) (n : Z) :
  (digits_fuel (F.Fin q) <= fuel)%nat ->
  round_off_step fuel (F.Fin q) n = round_off_elem (F.Fin q) n.
Proof.
  intros H. unfold round_off_elem, round_off_step.
  now rewrite (count_digits_fuel q H).
Qed.

Lemma round_off_step_inf (fuel : nat) (n : Z) :
  round_off_step fuel (F.Inf false) n = None.
Proof. unfold round_off_step. now rewrite count_digits_inf. Qed.

(** ** Idempotence of the rounding, in exact arithmetic *)

Lemma Qfloor_int_half (z : Z) : Qfloor (inject_Z z + (1 # 2)) = z.
Proof.
  pose proof (Qfloor_le (inject_Z z + (1 # 2))) as Hle.
  pose proof (Qlt_floor (inject_Z z + (1 # 2))) as Hlt.
  rewrite inject_Z_plus in Hlt. change (inject_Z 1) with 1%Q in Hlt.
  assert (H1 : inject_Z (Qfloor (inject_Z z + (1 # 2))) < inject_Z (z + 1)).
  { rewrite inject_Z_plus. change (inject_Z 1) with 1%Q. lra. }
  assert (H2 : inject_Z z < inject_Z (Qfloor (inject_Z z + (1 # 2)) + 1)).
  { rewrite inject_Z_plus. change (inject_Z 1) with 1%Q. lra. }
  rewrite <- Zlt_Qlt in H1, H2. lia.
Qed.

(** A value already on the grid [m / d] is not moved. *)
Lemma rnd_grid (m : Z) (d : Q) :
  0 < d ->
  inject_Z (Qfloor ((inject_Z m / d) * d + (1 # 2))) / d == inject_Z m / d.
Proof.
  intros Hd.
  assert (E : (inject_Z m / d) * d == inject_Z m) by (field; lra).
  now rewrite E, Qfloor_int_half.
Qed.

Lemma floor_bounds (x : Q) :
  inject_Z (Qfloor x) <= x /\ x < inject_Z (Qfloor x) + 1.
Proof.
  split; [apply Qfloor_le |].
  pose proof (Qlt_floor x) as H. rewrite inject_Z_plus in H. exact H.
Qed.

Lemma tp_ratio (j k : Z) : tp j / tp k == tp (j - k).
Proof.
  pose proof (tp_nonzero k).
  assert (E : tp j == tp (j - k) * tp k)
    by (rewrite <- tp_add; now replace (j - k + k)%Z with j by lia).
  rewrite E. field. exact H.
Qed.

(** Rounding twice to [n >= 1] digits is rounding once. *)
Lemma rnd_idempotent (q : Q) (n k : Z) :
  (1 <= n)%Z -> digits q k ->
  exists k' : Z, digits (rnd q n k) k' /\ rnd (rnd q n k) n k' == rnd q n k.
Proof.
  intros Hn (Hk0 & Hlt & Hge).
  unfold rnd at 1 3. set (D := tp (n - k)). set (m := Qfloor (q * D + (1 # 2))).
  assert (HD : 0 < D) by apply tp_pos.
  destruct (floor_bounds (q * D + (1 # 2))) as [Hm1 Hm2]. fold m in Hm1, Hm2.
  (* q * D < 10^n, an integer *)
  assert (HqD : q * D < tp n).
  { assert (E : tp n == tp k * D)
      by (unfold D; rewrite <- tp_add; now replace (k + (n - k))%Z with n by lia).
    rewrite E. apply Qmult_lt_compat_r; assumption. }
  rewrite (tp_int (k := n)) in HqD by lia.
  assert (HmT : (m <= 10 ^ n)%Z).
  { assert (H : inject_Z m < inject_Z (10 ^ n + 1)).
    { rewrite inject_Z_plus. change (inject_Z 1) with 1%Q. lra. }
    rewrite <- Zlt_Qlt in H. lia. }
  destruct (Z.eq_dec m (10 ^ n)) as [Etop | Ntop].
  - (* the carry: the result is 10^k *)
    assert (Er : inject_Z m / D == tp k).
    { rewrite Etop, <- tp_int by lia. unfold D. rewrite tp_ratio.
      now replace (n - (n - k))%Z with k by lia. }
    exists (k + 1)%Z. split.
    + repeat split; [lia | rewrite Er; apply tp_lt; lia |].
      right. rewrite Er. replace (k + 1 - 1)%Z with k by lia. apply Qle_refl.
    + unfold rnd. rewrite Er.
      assert (E1 : tp k * tp (n - (k + 1)) == inject_Z (10 ^ (n - 1))).
      { rewrite <- tp_add, <- tp_int by lia.
        now replace (k + (n - (k + 1)))%Z with (n - 1)%Z by lia. }
      rewrite E1, Qfloor_int_half, <- tp_int by lia.
      rewrite tp_ratio. now replace (n - 1 - (n - (k + 1)))%Z with k by lia.
  - (* no carry: the digit count is unchanged *)
    assert (HmT' : inject_Z m < inject_Z (10 ^ n)) by (rewrite <- Zlt_Qlt; lia).
    rewrite <- tp_int in HmT' by lia.
    assert (Hr : inject_Z m / D < tp k).
    { apply Qlt_shift_div_r; [exact HD |].
      unfold D. rewrite <- tp_add. now replace (k + (n - k))%Z with n by lia. }
    exists k. split.
    + repeat split; [exact Hk0 | exact Hr |].
      destruct Hge as [-> | Hge]; [now left | right].
      apply Qle_shift_div_l; [exact HD |].
      assert (E : tp (k - 1) * D == inject_Z (10 ^ (n - 1))).
      { unfold D. rewrite <- tp_add, <- tp_int by lia.
        now replace (k - 1 + (n - k))%Z with (n - 1)%Z by lia. }
      rewrite E. rewrite <- Zle_Qle.
      assert (Hq : inject_Z (10 ^ (n - 1)) <= q * D).
      { rewrite <- E. apply Qmult_le_compat_r; [exact Hge | lra]. }
      assert (Hf : (Qfloor (inject_Z (10 ^ (n - 1))) <= m)%Z)
        by (apply Qfloor_resp_le; lra).
      now rewrite Qfloor_Z in Hf.
    + unfold rnd. fold D. now apply rnd_grid.
Qed.

Lemma rnd_Qeq (p q : Q) (n k : Z) : p == q -> rnd p n k == rnd q n k.
Proof. intros E. unfold rnd. now rewrite E. Qed.

Lemma pow10_fin (k : Z) : exists d : Q, F.pow10 k = F.Fin d /\ 0 < d.
Proof.
  exists (Qred (tp k)). split; [reflexivity |].
  rewrite Qred_correct. apply tp_pos.
Qed.

(** [-inf] and NaN pass through the rounding unchanged. *)
Lemma round_off_elem_neg_inf (n : Z) :
  round_off_elem (F.Inf true) n = Some (F.Inf true).
Proof.
  unfold round_off_elem, round_off_step. cbn [digits_fuel count_digits].
  change (F.geb (F.Inf true) F.one) with false. cbv iota zeta.
  destruct (pow10_fin (n - 0)) as (d & -> & Hd).
  cbn [F.mul F.is_zero F.is_neg orb].
  rewrite Qeq_bool_false, Qltb_false by lra.
  cbn [xorb F.add F.half F.floor F.div]. now rewrite Qltb_false by lra.
Qed.

Lemma round_off_elem_nan (n : Z) : round_off_elem F.NaN n = Some F.NaN.
Proof. reflexivity. Qed.

Lemma round_off_elem_pos_inf (n : Z) : round_off_elem (F.Inf false) n = None.
Proof. apply round_off_step_inf. Qed.

Lemma round_off_elem_idempotent (v : float) (n : Z) :
  (1 <= n)%Z ->
  forall r, round_off_elem v n = Some r -> round_off_elem r n = Some r.
Proof.
  intros Hn r Hr. destruct v as [| [|] | q].
  - rewrite round_off_elem_nan in Hr. injection Hr as <-. apply round_off_elem_nan.
  - rewrite round_off_elem_neg_inf in Hr. injection Hr as <-.
    apply round_off_elem_neg_inf.
  - now rewrite round_off_elem_pos_inf in Hr.
  - destruct (digits_total q) as (k & _ & Hd).
    rewrite (round_off_elem_fin n Hd) in Hr. injection Hr as <-.
    destruct (rnd_idempotent Hn Hd) as (k' & Hd' & E).
    assert (Hd'' : digits (Qred (rnd q n (Z.of_nat k))) k')
      by (apply digits_Qeq with (2 := Hd'); symmetry; apply Qred_correct).
    unfold F.fin at 1. rewrite (round_off_elem_fin n Hd'').
    apply f_equal, fin_eq. rewrite <- E at 2. apply rnd_Qeq, Qred_correct.
Qed.

Lemma round_off_elem_total (v : float) (n : Z) :
  v <> F.Inf false -> exists r, round_off_elem v n = Some r.
Proof.
  intros Hv. destruct v as [| [|] | q].
  - eexists; apply round_off_elem_nan.
  - eexists; apply round_off_elem_neg_inf.
  - congruence.
  - destruct (digits_total q) as (k & _ & Hd).
    eexists. apply (round_off_elem_fin n Hd).
Qed.

Lemma round_off_cons (v : float) (x : Vector) (n : Z) (r : float) (rs : Vector) :
  round_off_elem v n = Some r -> round_off x n = Some rs ->
  round_off (v :: x) n = Some (r :: rs).
Proof. intros H1 H2. cbn [round_off]. now rewrite H1, H2. Qed.

Lemma round_off_cons_inv (v : float) (x : Vector) (n : Z) (y : Vector) :
  round_off (v :: x) n = Some y ->
  exists r rs, y = r :: rs /\ round_off_elem v n = Some r /\ round_off x n = Some rs.
Proof.
  cbn [round_off]. destruct (round_off_elem v n) as [r |]; [| discriminate].
  destruct (round_off x n) as [rs |]; [| discriminate].
  intros [= <-]. now exists r, rs.
Qed.

(** [round_off] fails to return exactly on the vectors with a [+inf]
    element. *)
Lemma round_off_diverges_iff (x : Vector) (n : Z) :
  round_off x n = None <-> In (F.Inf false) x.
Proof.
  induction x as [| v x IH]; [split; [discriminate | intros []] |].
  assert (D : v = F.Inf false \/ v <> F.Inf false)
    by (destruct v as [| [|] |]; (now left) || (right; discriminate)).
  cbn [round_off In]. destruct D as [-> | N].
  - rewrite round_off_elem_pos_inf. split; [now left | reflexivity].
  - destruct (@round_off_elem_total v n N) as (r & ->).
    destruct (round_off x n) as [rs |].
    + split; [discriminate |]. intros [E | Hin]; [congruence |].
      now apply IH in Hin.
    + split; [intros _; right; now apply IH | reflexivity].
Qed.




(** ** Negative values *)

Lemma geb_neg_one (v : float) : F.is_neg v = true -> F.geb v F.one = false.
Proof.
  destruct v as [| s | q]; cbn [F.is_neg]; intros H.
  - discriminate.
  - now subst s.
  - apply geb_fin_one_false.
    unfold F.Qltb in H. apply negb_true_iff in H.
    destruct (Qlt_le_dec q 0) as [L | L]; [lra |].
    apply Qle_bool_iff in L. congruence.
Qed.

Lemma count_digits_neg (v : float) (fuel : nat) :
  F.is_neg v = true -> count_digits fuel v 0 = Some 0%Z.
Proof.
  intros H. apply geb_neg_one in H.
  destruct fuel; cbn [count_digits]; now rewrite H.
Qed.

Lemma round_off_elem_neg (v : float) (n : Z) :
  F.is_neg v = true ->
  round_off_elem v n = Some (F.floor (v * F.pow10 n + F.half) / F.pow10 n)%flt.
Proof.
  intros H. unfold round_off_elem, round_off_step.
  rewrite (@count_digits_neg v _ H). cbv zeta. now rewrite Z.sub_0_r.
Qed.



(** ** The examples of the documentation *)

(** C1.  [round_off(1234.5, 2)] is 1200.  [round_off(0.01234, 2)] is 0.01:
    the value has no digit left of the decimal point, so it is rounded to
    two decimals and keeps one significant digit, not the two of 0.012. *)
Theorem round_off_examples :
  round_off [F.Fin (12345 # 10)] 2 = Some [F.of_Z 1200] /\
  round_off [F.Fin (1234 # 100000)] 2 = Some [F.Fin (1 # 100)] /\
  F.eqb (F.Fin (1 # 100)) (F.Fin (12 # 1000)) = false.
Proof. repeat split. Qed.

(** ** Tick counts *)

Lemma floor_fin_int (q : Q) (z : Z) : q == inject_Z z -> F.floor (F.fin q) = F.of_Z z.
Proof.
  intros E. unfold F.fin, F.floor. f_equal.
  now rewrite Qred_correct, E, Qfloor_Z.
Qed.

Lemma ratio_fin (w h c : Q) :
  ~ h == 0 -> w == c * h -> (F.Fin w / F.Fin h)%flt = F.fin c.
Proof.
  intros Hh E. cbn [F.div]. rewrite Qeq_bool_false by exact Hh.
  apply fin_eq. rewrite E. field. exact Hh.
Qed.

(** With no requested counts the x count follows the viewport's ratio. *)
Lemma calculate_num_ticks_default (a : Axis) :
  (m_nx_ticks a <= 0)%Z -> (m_ny_ticks a <= 0)%Z ->
  calculate_num_ticks a = [F.floor (F.of_Z 5 * pix_ratio a)%flt; F.of_Z 5].
Proof.
  intros Hx Hy. unfold calculate_num_ticks. fold (pix_ratio a).
  destruct (Z.ltb_spec 0 (m_nx_ticks a)); [lia |].
  destruct (Z.ltb_spec 0 (m_ny_ticks a)); [lia | reflexivity].
Qed.

Lemma pix_ratio_fin (a : Axis) (w h c : Q) :
  delta (m_pixels a) = [F.Fin w; F.Fin h] -> ~ h == 0 -> w == c * h ->
  pix_ratio a = F.fin c.
Proof.
  intros Hd Hh E. unfold pix_ratio. rewrite Hd. cbn [vget nth].
  now apply ratio_fin.
Qed.



(** ** Tick layout *)

Section TickLayout.

Variable to_display : Aesthetic.t -> Axis -> float -> float.

(** C3.  Limits (0,0)-(10,10), a 100x100 viewport, two significant digits
    and no requested counts: the counts are (5, 5), the spacing is
    [round_off(10/5, 2) = 2], the first tick [ceil(0/2) * 2 = 0], and the
    layout has the five values 0, 2, 4, 6, 8 on each axis, non-decreasing,
    at pixel positions 20 apart from the display position of 0. *)
Theorem update_tick_information_0_10 (a : Axis) :
  vget (bmin (m_limits a)) (Aesthetic.index Aesthetic.x) = F.of_Z 0 ->
  vget (bmin (m_limits a)) (Aesthetic.index Aesthetic.y) = F.of_Z 0 ->
  vget (bmax (m_limits a)) (Aesthetic.index Aesthetic.x) = F.of_Z 10 ->
  vget (bmax (m_limits a)) (Aesthetic.index Aesthetic.y) = F.of_Z 10 ->
  delta (m_pixels a) = [F.of_Z 100; F.of_Z 100] ->
  m_sig_digits a = 2%Z ->
  (m_nx_ticks a <= 0)%Z -> (m_ny_ticks a <= 0)%Z ->
  let x0 := to_display Aesthetic.x a (F.of_Z 0) in
  let y0 := to_display Aesthetic.y a (F.of_Z 0) in
  let ticks :=
    {| x_val := map F.of_Z [0; 2; 4; 6; 8]%Z;
       x_pos := map (fun i => (x0 + F.of_Z i * F.of_Z 20)%flt) [0; 1; 2; 3; 4]%Z;
       y_val := map F.of_Z [0; 2; 4; 6; 8]%Z;
       y_pos := map (fun i => (y0 - F.of_Z i * F.of_Z 20)%flt) [0; 1; 2; 3; 4]%Z |} in
  calculate_num_ticks a = [F.of_Z 5; F.of_Z 5] /\
  round_off (vdiv [F.of_Z 10; F.of_Z 10] [F.of_Z 5; F.of_Z 5]) 2
  = Some [F.of_Z 2; F.of_Z 2] /\
  (F.ceil (F.of_Z 0 / F.of_Z 2) * F.of_Z 2)%flt = F.of_Z 0 /\
  update_tick_information to_display a = Ok (set_tick_info a ticks) /\
  length (x_val ticks) = 5%nat /\ length (x_pos ticks) = 5%nat /\
  length (y_val ticks) = 5%nat /\ length (y_pos ticks) = 5%nat /\
  nondecreasing (x_val ticks) = true /\ nondecreasing (y_val ticks) = true.
Proof.
  intros Hx0 Hy0 Hx1 Hy1 Hpix Hsig Hnx Hny x0 y0 ticks.
  assert (Hn : calculate_num_ticks a = [F.of_Z 5; F.of_Z 5]).
  { rewrite (calculate_num_ticks_default a Hnx Hny).
    rewrite (@pix_ratio_fin a 100 100 1 Hpix) by (discriminate || reflexivity).
    reflexivity. }
  split; [exact Hn |].
  split; [reflexivity |]. split; [reflexivity |].
  split; [| repeat split].
  unfold update_tick_information.
  rewrite Hn, Hx0, Hy0, Hx1, Hy1, Hpix, Hsig.
  reflexivity.
Qed.

End TickLayout.

Lemma update_tick_information_0_10_witness :
  update_tick_information (fun _ _ v => v)
    (axis_of (limits4 0 0 10 10) (box2 0 0 100 100) 0 0)
  = Ok (set_tick_info (axis_of (limits4 0 0 10 10) (box2 0 0 100 100) 0 0)
          {| x_val := map F.of_Z [0; 2; 4; 6; 8]%Z;
             x_pos := map F.of_Z [0; 20; 40; 60; 80]%Z;
             y_val := map F.of_Z [0; 2; 4; 6; 8]%Z;
             y_pos := map F.of_Z [0; -20; -40; -60; -80]%Z |}).
Proof.
  exact (proj1 (proj2 (proj2 (proj2
    (@update_tick_information_0_10 (fun _ _ v => v)
       (axis_of (limits4 0 0 10 10) (box2 0 0 100 100) 0 0)
       eq_refl eq_refl eq_refl eq_refl eq_refl eq_refl
       ltac:(cbn; lia) ltac:(cbn; lia)))))).
Defined.

(** ** Empty ranges *)

(** The substitution itself: an inverted range becomes [0 -> 1], any other
    range is kept. *)
Lemma default_if_empty_inverted (b : bbox) (i : nat) :
  F.ltb (vget (bmax b) i) (vget (bmin b) i) = true ->
  default_if_empty b i
  = {| bmin := vset (bmin b) i F.zero; bmax := vset (bmax b) i F.one |}.
Proof. intros H. unfold default_if_empty. now rewrite H. Qed.

Lemma default_if_empty_kept (b : bbox) (i : nat) :
  F.ltb (vget (bmax b) i) (vget (bmin b) i) = false -> default_if_empty b i = b.
Proof. intros H. unfold default_if_empty. now rewrite H. Qed.

(** C6.  An axis whose x range is empty (1 -> 0) and whose y range is
    0 -> 1.  With 201 requested x ticks the substituted range gives the
    spacing [round_off(1/201, 2) = 0], the first tick [ceil(0/0) * 0] is NaN
    and so is every x tick value.  With no requested counts and a 10x100
    viewport the x count is [floor(5 * 0.1) = 0], the spacing to round is
    [1/0 = +inf], and the digit-counting loop of [round_off] never exits:
    no amount of fuel gives a result. *)
Theorem update_tick_information_empty_range_failures
    (to_display : Aesthetic.t -> Axis -> float -> float) :
  let wide := axis_of (limits4 1 0 0 1) (box2 0 0 100 100) 201 5 in
  let narrow := axis_of (limits4 1 0 0 1) (box2 0 0 10 100) 0 0 in
  (exists a', update_tick_information to_display wide = Ok a' /\
              x_val (m_tick_info a') = repeat F.NaN 201 /\
              y_val (m_tick_info a')
              = [F.of_Z 0; F.Fin (1 # 5); F.Fin (2 # 5); F.Fin (3 # 5); F.Fin (4 # 5)]) /\
  calculate_num_ticks narrow = [F.of_Z 0; F.of_Z 5] /\
  update_tick_information to_display narrow = Fault NonTermination /\
  (forall fuel, round_off_step fuel (F.of_Z 1 / F.of_Z 0)%flt 2 = None).
Proof.
  intros wide narrow. split; [| split; [| split]].
  - eexists. split; [reflexivity |]. split; reflexivity.
  - reflexivity.
  - reflexivity.
  - intros fuel. apply round_off_step_inf.
Qed.

(** ** Runs of the drawing code *)

Section Runs.

Variable Color : Type.

Lemma backend_calls_app (s t : list (event Color)) :
  backend_calls (s ++ t) = backend_calls s ++ backend_calls t.
Proof. apply filter_app. Qed.

Lemma bind_ok {A B : Type} (m : M Color A) (k : A -> M Color B)
    (tr : list (event Color)) (a : A) :
  m = (tr, Ok a) -> bind m k = (tr ++ fst (k a), snd (k a)).
Proof. intros ->. cbn. now destruct (k a). Qed.

Lemma bind_ret_l {A B : Type} (a : A) (k : A -> M Color B) :
  bind (ret a) k = k a.
Proof. unfold bind, ret. now destruct (k a). Qed.

Lemma holds_bind {A B : Type} (P : event Color -> Prop) (Q : A -> Prop)
    (R : B -> Prop) (m : M Color A) (k : A -> M Color B) :
  holds P Q m -> (forall a, Q a -> holds P R (k a)) -> holds P R (bind m k).
Proof.
  intros [Hm Hq] Hk. destruct m as [tr [a | e]]; cbn in *.
  - destruct (Hk a (Hq a eq_refl)) as [Hk1 Hk2].
    destruct (k a) as [tr' r]; cbn in *. split; [now apply Forall_app |].
    exact Hk2.
  - split; [exact Hm | discriminate].
Qed.

Lemma holds_weaken {A : Type} (P : event Color -> Prop) (Q Q' : A -> Prop)
    (m : M Color A) :
  holds P Q m -> (forall a, Q a -> Q' a) -> holds P Q' m.
Proof. intros [H1 H2] H. split; [exact H1 | auto]. Qed.

Lemma holds_ret {A : Type} (P : event Color -> Prop) (Q : A -> Prop) (a : A) :
  Q a -> holds P Q (ret a).
Proof. intros H. split; [constructor | now intros ? [= <-]]. Qed.

Lemma holds_fail {A : Type} (P : event Color -> Prop) (Q : A -> Prop) (e : fault) :
  holds P Q (fail e).
Proof. split; [constructor | discriminate]. Qed.

Lemma holds_emit (P : event Color -> Prop) (e : event Color) :
  P e -> holds P (fun _ => True) (emit e).
Proof. intros H. split; [now repeat constructor | trivial]. Qed.

Lemma holds_frame (P : event Color -> Prop) (p : Points) (f : Z) :
  holds P (fun d => In d (m_data p)) (frame p f).
Proof.
  unfold frame. destruct (f <? 0)%Z; [apply holds_fail |].
  destruct (nth_error (m_data p) (Z.to_nat f)) as [d |] eqn:E;
    [| apply holds_fail].
  apply holds_ret. now apply nth_error_In with (Z.to_nat f).
Qed.

Lemma holds_frame_rows (P : event Color -> Prop) (p : Points) (f : Z) :
  P (frame_access f Rows) -> holds P (fun _ => True) (frame_rows p f).
Proof.
  intros H. unfold frame_rows.
  apply holds_bind with (1 := holds_frame P p f). intros d _.
  apply holds_bind with (1 := holds_emit P _ H). intros _ _.
  now apply holds_ret.
Qed.

Lemma holds_frame_begin (P : event Color -> Prop) (p : Points) (f : Z)
    (a : Aesthetic.t) :
  P (frame_access f (Begin a)) ->
  holds P (fun it => it_frame it = f /\ it_aes it = a /\
                     exists d, In d (m_data p) /\ column d a = Some (it_col it))
    (frame_begin p f a).
Proof.
  intros H. unfold frame_begin.
  apply holds_bind with (1 := holds_frame P p f). intros d Hd.
  apply holds_bind with (1 := holds_emit P _ H). intros _ _.
  destruct (column d a) as [c |] eqn:E; [| apply holds_fail].
  apply holds_ret. cbn. repeat split. now exists d.
Qed.

Lemma holds_check_aesthetic (P : event Color -> Prop) (p : Points) (f : Z)
    (a : Aesthetic.t) :
  P (frame_access f (Begin a)) ->
  holds P (fun b => b = true -> exists d, In d (m_data p) /\ column d a <> None)
    (check_aesthetic p f a).
Proof.
  intros H. destruct (@holds_frame_begin P p f a H) as [H1 H2].
  unfold check_aesthetic. destruct (frame_begin p f a) as [tr [it | e]]; cbn in *.
  - split; [exact H1 |]. intros b _ _.
    destruct (H2 it eq_refl) as (_ & _ & d & Hd & Hc).
    exists d. split; [exact Hd | congruence].
  - destruct e; (split; [exact H1 |]); cbn; try discriminate.
    intros b [= <-]. discriminate.
Qed.

Lemma holds_deref (P : event Color -> Prop) (it : iterator) (i : nat) :
  P (frame_access (it_frame it) (Deref (it_aes it) i)) ->
  holds P (fun _ => True) (deref it i).
Proof.
  intros H. unfold deref.
  apply holds_bind with (1 := holds_emit P _ H). intros _ _.
  destruct (nth_error (it_col it) i); [now apply holds_ret | apply holds_fail].
Qed.

Lemma holds_for_rows (P : event Color -> Prop) (p : Points)
    (body : nat -> M Color unit) (fuel : nat) :
  P (frame_access 0 Rows) ->
  (forall i, holds P (fun _ => True) (body i)) ->
  forall i, holds P (fun _ => True) (for_rows p fuel i body).
Proof.
  intros H Hb. induction fuel as [| fuel IH]; intros i; cbn [for_rows].
  - apply holds_bind with (1 := @holds_frame_rows P p 0%Z H). intros n _.
    destruct (i <? n)%nat; [apply holds_fail | now apply holds_ret].
  - apply holds_bind with (1 := @holds_frame_rows P p 0%Z H). intros n _.
    destruct (i <? n)%nat; [| now apply holds_ret].
    apply holds_bind with (1 := Hb i). intros _ _. apply IH.
Qed.

Lemma holds_for_frames (P : event Color -> Prop)
    (body : Z -> float -> M Color unit) (times : list float) :
  (forall f t, holds P (fun _ => True) (body f t)) ->
  forall f, holds P (fun _ => True) (for_frames times f body).
Proof.
  intros Hb. induction times as [| t rest IH]; intros f; cbn [for_frames].
  - now apply holds_ret.
  - apply holds_bind with (1 := Hb f t). intros _ _. apply IH.
Qed.

(** The loops of the drawing code always have enough fuel. *)
Lemma finishes_bind {A B : Type} (m : M Color A) (k : A -> M Color B) :
  finishes m -> (forall a, finishes (k a)) -> finishes (bind m k).
Proof.
  unfold finishes. intros Hm Hk. destruct m as [tr [a | e]]; cbn in *.
  - specialize (Hk a). now destruct (k a).
  - intros [= ->]. now apply Hm.
Qed.

Lemma finishes_frame (p : Points) (f : Z) : finishes (@frame Color p f).
Proof.
  unfold finishes, frame. destruct (f <? 0)%Z; [discriminate |].
  destruct (nth_error (m_data p) (Z.to_nat f)); discriminate.
Qed.

Lemma finishes_emit (e : event Color) : finishes (emit e).
Proof. discriminate. Qed.

Lemma finishes_ret {A : Type} (a : A) : finishes (@ret Color A a).
Proof. discriminate. Qed.

Lemma finishes_frame_begin (p : Points) (f : Z) (a : Aesthetic.t) :
  finishes (@frame_begin Color p f a).
Proof.
  unfold frame_begin. apply finishes_bind; [apply finishes_frame |]. intros d.
  apply finishes_bind; [apply finishes_emit |]. intros _.
  destruct (column d a); discriminate.
Qed.

Lemma finishes_check_aesthetic (p : Points) (f : Z) (a : Aesthetic.t) :
  finishes (@check_aesthetic Color p f a).
Proof.
  pose proof (finishes_frame_begin p f a) as H. unfold finishes, check_aesthetic in *.
  destruct (frame_begin p f a) as [tr [it | []]]; cbn in *; congruence.
Qed.

Lemma finishes_deref (it : iterator) (i : nat) : finishes (@deref Color it i).
Proof.
  unfold deref. apply finishes_bind; [apply finishes_emit |]. intros _.
  destruct (nth_error (it_col it) i); discriminate.
Qed.

Lemma finishes_for_frames (body : Z -> float -> M Color unit)
    (times : list float) :
  (forall f t, finishes (body f t)) ->
  forall f, finishes (for_frames times f body).
Proof.
  intros Hb. induction times as [| t rest IH]; intros f; cbn [for_frames].
  - apply finishes_ret.
  - apply finishes_bind; [apply Hb | intros _; apply IH].
Qed.

Lemma frame_rows_value (p : Points) (tr : list (event Color)) (n : nat) :
  frame_rows p 0 = (tr, Ok n) -> n = rows_fuel p.
Proof.
  unfold frame_rows, frame, rows_fuel. cbn.
  destruct (m_data p) as [| d rest]; cbn; [discriminate | congruence].
Qed.

Lemma finishes_frame_rows (p : Points) (f : Z) : finishes (@frame_rows Color p f).
Proof.
  unfold frame_rows. apply finishes_bind; [apply finishes_frame |]. intros d.
  apply finishes_bind; [apply finishes_emit | intros _; apply finishes_ret].
Qed.

Lemma finishes_bind_value {A B : Type} (m : M Color A) (k : A -> M Color B) :
  finishes m -> (forall tr a, m = (tr, Ok a) -> finishes (k a)) ->
  finishes (bind m k).
Proof.
  unfold finishes. intros Hm Hk. destruct m as [tr [a | e]]; cbn in *.
  - specialize (Hk tr a eq_refl). now destruct (k a).
  - intros [= ->]. now apply Hm.
Qed.

Lemma finishes_for_rows (p : Points) (body : nat -> M Color unit) :
  (forall i, finishes (body i)) ->
  forall fuel i, (rows_fuel p - i <= fuel)%nat ->
    finishes (for_rows p fuel i body).
Proof.
  intros Hb. induction fuel as [| fuel IH]; intros i Hf; cbn [for_rows];
    (apply finishes_bind_value; [apply finishes_frame_rows |]);
    intros tr n E; apply frame_rows_value in E; subst n;
    destruct (Nat.ltb_spec i (rows_fuel p)); try apply finishes_ret; try lia.
  apply finishes_bind; [apply Hb |]. intros _. apply IH. lia.
Qed.

End Runs.


(** One step of a run: the first statement of a sequence, by its lemma. *)
Ltac run_step :=
  lazymatch goal with
  | |- holds _ _ (bind (frame_begin _ _ _) _) =>
      eapply holds_bind; [apply holds_frame_begin | intros ? (? & ? & ?)]
  | |- holds _ _ (bind (deref _ _) _) =>
      eapply holds_bind; [apply holds_deref | intros ? _]
  | |- holds _ _ (bind (emit _) _) =>
      eapply holds_bind; [apply holds_emit | intros _ _]
  | |- holds _ _ (bind (ret _) _) => rewrite bind_ret_l
  | |- holds _ _ (bind (for_frames _ _ _) _) =>
      eapply holds_bind; [apply holds_for_frames; intros ? ? | intros ? _]
  | |- holds _ _ (bind (bind _ _) _) =>
      eapply holds_bind; [| intros ? _]
  | |- holds _ _ (deref _ _) => apply holds_deref
  | |- holds _ _ (emit _) => apply holds_emit
  | |- holds _ _ (ret _) => apply holds_ret
  | |- holds _ _ (for_rows _ _ _ _) => apply holds_for_rows; [| intros ?]
  | |- holds _ _ (for_frames _ _ _) => apply holds_for_frames; intros ? ?
  end.

Ltac finish_step :=
  lazymatch goal with
  | |- finishes (if ?b then _ else _) => destruct b
  | |- finishes (bind _ _) => apply finishes_bind; [| intros ?]
  | |- finishes (ret _) => apply finishes_ret
  | |- finishes (emit _) => apply finishes_emit
  | |- finishes (frame_begin _ _ _) => apply finishes_frame_begin
  | |- finishes (deref _ _) => apply finishes_deref
  | |- finishes (check_aesthetic _ _ _) => apply finishes_check_aesthetic
  | |- finishes (for_frames _ _ _) => apply finishes_for_frames; intros ? ?
  | |- finishes (for_rows _ _ _ _) => apply finishes_for_rows; [intros ? | lia]
  end.

Section DrawingFacts.

Variable Color : Type.
Variable to_color : float -> Color.
Variable to_display : Aesthetic.t -> Axis -> float -> float.

(** *** Termination *)

(** The row loop runs [m_data[0].rows()] rounds: neither overload of
    [draw] stops for lack of fuel. *)
Lemma draw_frames_finishes (p : Points) :
  finishes (draw_frames to_color to_display p).
Proof. unfold draw_frames. repeat finish_step. Qed.

Lemma draw_plot_finishes (p : Points) :
  finishes (draw_plot to_color to_display p).
Proof. unfold draw_plot. repeat finish_step. Qed.

(** *** A series without frames *)

Lemma frame_no_frames (p : Points) (f : Z) :
  m_data p = [] -> @frame Color p f = fail OutOfBounds.
Proof.
  intros H. unfold frame. rewrite H.
  destruct (f <? 0)%Z; [reflexivity |]. now destruct (Z.to_nat f).
Qed.

Lemma check_aesthetic_no_frames (p : Points) (f : Z) (a : Aesthetic.t) :
  m_data p = [] -> @check_aesthetic Color p f a = ([], Fault OutOfBounds).
Proof.
  intros H. unfold check_aesthetic, frame_begin.
  now rewrite (frame_no_frames p f H).
Qed.

(** C2, as amended.  With no registered frame both overloads of [draw]
    stop at their first statement, the probe of [m_data[0]] (animated
    backend) or of [m_data[frame_above]] (query time), which indexes the
    empty frame list: nothing was sent to the backend and no row was read
    before that. *)
Theorem draw_without_frames (p : Points) :
  m_data p = [] ->
  draw to_color to_display p = ([], Fault OutOfBounds) /\
  draw_plot to_color to_display p = ([], Fault OutOfBounds) /\
  forall time, draw_at to_color to_display p time = ([], Fault OutOfBounds).
Proof.
  intros H. split; [| split].
  - unfold draw, draw_frames. now rewrite (check_aesthetic_no_frames p _ _ H).
  - unfold draw_plot. now rewrite (check_aesthetic_no_frames p _ _ H).
  - intros time. unfold draw_at, draw_plot.
    now rewrite (check_aesthetic_no_frames (update_frame_info p time) _ _ H).
Qed.

(** *** Absent aesthetics *)

Lemma check_aesthetic_absent (P : event Color -> Prop) (p : Points) (f : Z)
    (a : Aesthetic.t) :
  (forall d, In d (m_data p) -> column d a = None) ->
  P (frame_access f (Begin a)) ->
  holds P (fun b => b = false) (check_aesthetic p f a).
Proof.
  intros Hno H. apply holds_weaken with (1 := @holds_check_aesthetic _ P p f a H).
  intros [|] Hb; [| reflexivity].
  destruct (Hb eq_refl) as (d & Hd & Hc). now rewrite (Hno d Hd) in Hc.
Qed.

Lemma holds_check_any (P : event Color -> Prop) (p : Points) (f : Z)
    (a : Aesthetic.t) :
  P (frame_access f (Begin a)) ->
  holds P (fun _ => True) (check_aesthetic p f a).
Proof.
  intros H. apply holds_weaken with (1 := @holds_check_aesthetic _ P p f a H).
  trivial.
Qed.

Lemma blend_zero (u v : float) :
  (u + v)%flt = F.one -> (u * F.zero + v * F.zero)%flt = F.zero.
Proof.
  destruct u as [| a | p], v as [| b | q];
    try (cbn; discriminate); try (cbn; destruct (Bool.eqb a b); discriminate).
  intros _. unfold F.zero, F.of_Z. cbn [F.mul F.add F.fin].
  change (F.Fin (inject_Z 0)) with (F.fin 0). apply fin_eq.
  rewrite (Qred_correct (p * inject_Z 0)), (Qred_correct (q * inject_Z 0)).
  change (inject_Z 0) with 0%Q. ring.
Qed.

Lemma blend_one (u v : float) :
  (u + v)%flt = F.one -> (u * F.one + v * F.one)%flt = F.one.
Proof.
  destruct u as [| a | p], v as [| b | q];
    try (cbn; discriminate); try (cbn; destruct (Bool.eqb a b); discriminate).
  unfold F.one, F.of_Z. cbn [F.mul F.add F.fin]. intros E. rewrite <- E.
  apply fin_eq.
  rewrite (Qred_correct (p * inject_Z 1)), (Qred_correct (q * inject_Z 1)).
  change (inject_Z 1) with 1%Q. ring.
Qed.

Lemma draw_frames_color (p : Points) :
  (forall d, In d (m_data p) -> column d Aesthetic.color = None) ->
  holds (color_at_zero to_color) (fun _ => True) (draw_frames to_color to_display p).
Proof.
  intros Hno. unfold draw_frames.
  eapply holds_bind; [apply check_aesthetic_absent; [exact Hno | exact I] |].
  intros have_color ->.
  eapply holds_bind; [apply holds_check_any; exact I |]. intros have_size _.
  repeat (run_step; try exact I).
  destruct have_size; repeat (run_step; try solve [exact I | reflexivity]).
Qed.

Lemma draw_frames_size (p : Points) :
  (forall d, In d (m_data p) -> column d Aesthetic.size = None) ->
  holds radius_one (fun _ => True) (draw_frames to_color to_display p).
Proof.
  intros Hno. unfold draw_frames.
  eapply holds_bind; [apply holds_check_any; exact I |]. intros have_color _.
  eapply holds_bind; [apply check_aesthetic_absent; [exact Hno | exact I] |].
  intros have_size ->.
  repeat (run_step; try exact I).
  destruct have_color; repeat (run_step; try solve [exact I | reflexivity]).
Qed.

Lemma draw_plot_color (p : Points) :
  (forall d, In d (m_data p) -> column d Aesthetic.color = None) ->
  (w1 (m_frame_info p) + w2 (m_frame_info p))%flt = F.one ->
  holds (color_at_zero to_color) (fun _ => True) (draw_plot to_color to_display p).
Proof.
  intros Hno Hw. unfold draw_plot.
  eapply holds_bind; [apply check_aesthetic_absent; [exact Hno | exact I] |].
  intros have_color ->.
  eapply holds_bind; [apply holds_check_any; exact I |]. intros have_size _.
  run_step; [exact I |].
  destruct (F.eqb (w2 (m_frame_info p)) F.zero), have_size;
    repeat (run_step; try solve [exact I | reflexivity]);
    cbn; f_equal; apply blend_zero; exact Hw.
Qed.

Lemma draw_plot_size (p : Points) :
  (forall d, In d (m_data p) -> column d Aesthetic.size = None) ->
  (w1 (m_frame_info p) + w2 (m_frame_info p))%flt = F.one ->
  holds radius_one (fun _ => True) (draw_plot to_color to_display p).
Proof.
  intros Hno Hw. unfold draw_plot.
  eapply holds_bind; [apply holds_check_any; exact I |]. intros have_color _.
  eapply holds_bind; [apply check_aesthetic_absent; [exact Hno | exact I] |].
  intros have_size ->.
  run_step; [exact I |].
  destruct (F.eqb (w2 (m_frame_info p)) F.zero), have_color;
    repeat (run_step; try solve [exact I | reflexivity]);
    cbn; apply blend_one; exact Hw.
Qed.


(** *** Which frames a drawing touches *)

Lemma draw_plot_single_frame (p : Points) :
  F.eqb (w2 (m_frame_info p)) F.zero = true ->
  holds (touches_only (frame_above (m_frame_info p))) (fun _ => True)
    (draw_plot to_color to_display p).
Proof.
  intros Hw. unfold draw_plot. rewrite Hw.
  eapply holds_bind; [apply holds_check_any; now left |]. intros have_color _.
  eapply holds_bind; [apply holds_check_any; now left |]. intros have_size _.
  run_step; [exact I |].
  destruct have_color, have_size;
    repeat (run_step;
            try solve [exact I | now left | now right
                       | cbn; left; congruence]).
Qed.

(** *** Exact runs on well-formed series *)

Lemma yields_bind {A B : Type} (m : M Color A) (k : A -> M Color B)
    (c c' : list (event Color)) (a : A) (b : B) :
  yields m c a -> yields (k a) c' b -> yields (bind m k) (c ++ c') b.
Proof.
  unfold yields. intros [Hm Hc] [Hk Hc']. destruct m as [tr r].
  cbn [fst snd] in Hm, Hc. subst r.
  rewrite (bind_ok k eq_refl). cbn [fst snd]. split; [exact Hk |].
  now rewrite backend_calls_app, Hc, Hc'.
Qed.

Lemma yields_quiet {A B : Type} (m : M Color A) (k : A -> M Color B)
    (c : list (event Color)) (a : A) (b : B) :
  yields m [] a -> yields (k a) c b -> yields (bind m k) c b.
Proof. intros H1 H2. exact (yields_bind k H1 H2). Qed.

Lemma yields_ret {A : Type} (a : A) : yields (@ret Color A a) [] a.
Proof. now split. Qed.

Lemma yields_emit (e : event Color) :
  is_backend e = true -> yields (emit e) [e] tt.
Proof. intros H. split; [reflexivity |]. cbn. now rewrite H. Qed.

Lemma yields_call {B : Type} (e : event Color) (k : unit -> M Color B)
    (c : list (event Color)) (b : B) :
  is_backend e = true -> yields (k tt) c b -> yields (bind (emit e) k) (e :: c) b.
Proof. intros He Hk. exact (yields_bind k (yields_emit e He) Hk). Qed.

Lemma frame_at (p : Points) (f : Z) (d : DataWithAesthetic) :
  (0 <= f)%Z -> nth_error (m_data p) (Z.to_nat f) = Some d ->
  @frame Color p f = ret d.
Proof.
  intros Hf Hd. unfold frame. rewrite Hd.
  now destruct (Z.ltb_spec f 0); [lia |].
Qed.

Lemma yields_frame_rows (p : Points) (f : Z) (d : DataWithAesthetic) :
  @frame Color p f = ret d -> yields (@frame_rows Color p f) [] (rows d).
Proof. intros H. unfold frame_rows. rewrite H. now split. Qed.

Lemma yields_frame_begin (p : Points) (f : Z) (a : Aesthetic.t)
    (d : DataWithAesthetic) (c : list float) :
  @frame Color p f = ret d -> column d a = Some c ->
  yields (@frame_begin Color p f a) [] {| it_frame := f; it_aes := a; it_col := c |}.
Proof. intros H Hc. unfold frame_begin. rewrite H. cbn. rewrite Hc. now split. Qed.

Lemma yields_check_aesthetic (p : Points) (f : Z) (a : Aesthetic.t)
    (d : DataWithAesthetic) :
  @frame Color p f = ret d -> yields (@check_aesthetic Color p f a) [] (has d a).
Proof.
  intros H. unfold check_aesthetic, frame_begin, has. rewrite H. cbn.
  now destruct (column d a).
Qed.

Lemma yields_deref (it : iterator) (i : nat) :
  (i < length (it_col it))%nat ->
  yields (@deref Color it i) [] (nth i (it_col it) F.NaN).
Proof.
  intros H. unfold deref. cbn.
  rewrite (nth_error_nth' (it_col it) F.NaN H). now split.
Qed.

Lemma yields_for_rows (p : Points) (d0 : DataWithAesthetic)
    (body : nat -> M Color unit) (g : nat -> list (event Color)) :
  @frame Color p 0 = ret d0 ->
  (forall i, (i < rows d0)%nat -> yields (body i) (g i) tt) ->
  forall fuel i,
    (i <= rows d0)%nat -> (rows d0 - i <= fuel)%nat ->
    yields (for_rows p fuel i body) (flat_map g (seq i (rows d0 - i))) tt.
Proof.
  intros H0 Hb. induction fuel as [| fuel IH]; intros i Hi Hf.
  - cbn [for_rows]. apply yields_quiet with (1 := yields_frame_rows p 0 H0).
    replace (rows d0 - i)%nat with 0%nat by lia.
    destruct (Nat.ltb_spec i (rows d0)); [lia | apply yields_ret].
  - cbn [for_rows]. apply yields_quiet with (1 := yields_frame_rows p 0 H0).
    destruct (Nat.ltb_spec i (rows d0)) as [L | L].
    + replace (rows d0 - i)%nat with (S (rows d0 - S i)) by lia.
      cbn [seq flat_map]. apply yields_bind with (a := tt); [now apply Hb |].
      apply IH; lia.
    + replace (rows d0 - i)%nat with 0%nat by lia. apply yields_ret.
Qed.

(** *** Blending between two frames *)

Lemma gtb_not_eqb (u v : float) : F.gtb u v = true -> F.eqb u v = false.
Proof. unfold F.gtb, F.eqb. now destruct (F.compare u v) as [[| |] |]. Qed.

Lemma column_ok_required (n : nat) (d : DataWithAesthetic) (a : Aesthetic.t) :
  column_ok n d a true = true ->
  exists c, column d a = Some c /\ (n <= length c)%nat.
Proof.
  unfold column_ok. destruct (column d a) as [c |]; [| discriminate].
  intros H. exists c. split; [reflexivity | now apply Nat.leb_le].
Qed.

Lemma column_ok_optional (n : nat) (d : DataWithAesthetic) (a : Aesthetic.t)
    (c : list float) :
  column_ok n d a false = true -> column d a = Some c -> (n <= length c)%nat.
Proof. unfold column_ok. intros H E. rewrite E in H. now apply Nat.leb_le. Qed.

Lemma count_circles (g : nat -> Vector) (l : list nat) :
  length (filter is_circle (flat_map (fun i => circle_calls to_color (g i)) l)) = length l.
Proof. induction l as [| i l IH]; [reflexivity |]. cbn. now rewrite IH. Qed.

Lemma yields_all_rows (p : Points) (d0 : DataWithAesthetic)
    (body : nat -> M Color unit) (g : nat -> list (event Color)) :
  nth_error (m_data p) 0 = Some d0 ->
  (forall i, (i < rows d0)%nat -> yields (body i) (g i) tt) ->
  yields (for_rows p (rows_fuel p) 0 body) (flat_map g (seq 0 (rows d0))) tt.
Proof.
  intros H0 Hb.
  assert (Hfuel : rows_fuel p = rows d0)
    by (unfold rows_fuel; destruct (m_data p); [discriminate | now injection H0 as ->]).
  rewrite <- (Nat.sub_0_r (rows d0)) at 1.
  apply yields_for_rows; [now apply frame_at | exact Hb | lia | lia].
Qed.

(** A step of the loop body that reads row [i] through an iterator. *)
Ltac read_row :=
  lazymatch goal with
  | |- yields (bind (deref ?it ?i) _) _ _ =>
      apply yields_quiet with (1 := @yields_deref it i ltac:(cbn [it_col]; lia));
      cbn [it_col]
  end.

Ltac open_column :=
  lazymatch goal with
  | |- yields (bind (frame_begin ?p ?f ?a) _) _ _ =>
      eapply yields_quiet;
      [eapply yields_frame_begin; [eassumption | eassumption] |]
  | |- yields (bind (ret _) _) _ _ => rewrite bind_ret_l
  end.

(** C5.  When the frame info has [w2 > 0] and the two frames around the
    query time are usable, [draw_plot] sends [stroke_width(0)] and then, for
    each row in turn, one [fill_color] and one [circle] at
    [w1 * row_pixel(frame_above) + w2 * row_pixel(frame_above - 1)]: the
    axis transform is applied to each frame's row and the results are
    blended. *)
Theorem draw_plot_blends (p : Points) (first d1 d0 : DataWithAesthetic) :
  F.gtb (w2 (m_frame_info p)) F.zero = true ->
  (1 <= frame_above (m_frame_info p))%Z ->
  nth_error (m_data p) 0 = Some first ->
  nth_error (m_data p) (Z.to_nat (frame_above (m_frame_info p))) = Some d1 ->
  nth_error (m_data p) (Z.to_nat (frame_above (m_frame_info p) - 1)) = Some d0 ->
  frame_ok (rows first) d1 = true ->
  frame_ok (rows first) d0 = true ->
  same_aesthetics d1 d0 = true ->
  let blended :=
    blended_row to_display (m_axis p) (w1 (m_frame_info p)) (w2 (m_frame_info p)) d1 d0 in
  let calls :=
    stroke_width F.zero
    :: flat_map (fun i => circle_calls to_color (blended i)) (seq 0 (rows first)) in
  yields (draw_plot to_color to_display p) calls tt /\
  length (filter is_circle calls) = rows first.
Proof.
  intros Hw Hf Hfirst H1 H0 Hok1 Hok0 Hsame blended calls.
  split; [| unfold calls; cbn [filter is_circle];
            now rewrite count_circles, length_seq].
  assert (F1 : @frame Color p (frame_above (m_frame_info p)) = ret d1)
    by (apply frame_at; [lia | exact H1]).
  assert (F0 : @frame Color p (frame_above (m_frame_info p) - 1) = ret d0)
    by (apply frame_at; [lia | exact H0]).
  unfold frame_ok in Hok1, Hok0.
  apply andb_prop in Hok1 as [Hok1 Hs1]. apply andb_prop in Hok1 as [Hok1 Hc1].
  apply andb_prop in Hok1 as [Hx1 Hy1].
  apply andb_prop in Hok0 as [Hok0 Hs0]. apply andb_prop in Hok0 as [Hok0 Hc0].
  apply andb_prop in Hok0 as [Hx0 Hy0].
  apply column_ok_required in Hx1 as (x1 & Ex1 & Lx1).
  apply column_ok_required in Hy1 as (y1 & Ey1 & Ly1).
  apply column_ok_required in Hx0 as (x0 & Ex0 & Lx0).
  apply column_ok_required in Hy0 as (y0 & Ey0 & Ly0).
  pose proof (fun c => @column_ok_optional _ _ _ c Hc1) as Lc1.
  pose proof (fun c => @column_ok_optional _ _ _ c Hs1) as Ls1.
  pose proof (fun c => @column_ok_optional _ _ _ c Hc0) as Lc0.
  pose proof (fun c => @column_ok_optional _ _ _ c Hs0) as Ls0.
  unfold same_aesthetics, has in Hsame.
  unfold calls, blended, draw_plot.
  apply yields_quiet with (1 := yields_check_aesthetic p _ Aesthetic.color F1).
  apply yields_quiet with (1 := yields_check_aesthetic p _ Aesthetic.size F1).
  apply yields_call; [reflexivity |].
  rewrite (gtb_not_eqb _ _ Hw).
  unfold circle_calls, blended_row, row_pixel, value, has.
  rewrite Ex1, Ey1, Ex0, Ey0.
  destruct (column d1 Aesthetic.color) as [c1 |] eqn:Ec1;
    destruct (column d0 Aesthetic.color) as [c0 |] eqn:Ec0;
    try discriminate Hsame;
    destruct (column d1 Aesthetic.size) as [s1 |] eqn:Es1;
    destruct (column d0 Aesthetic.size) as [s0 |] eqn:Es0;
    try discriminate Hsame;
    try specialize (Lc1 _ eq_refl); try specialize (Ls1 _ eq_refl);
    try specialize (Lc0 _ eq_refl); try specialize (Ls0 _ eq_refl);
    repeat open_column;
    (apply yields_all_rows with (1 := Hfirst);
     intros i Hi; repeat read_row;
     apply yields_call; [reflexivity |]; apply yields_emit; reflexivity).
Qed.

(** *** Resolving a query time *)

Lemma ltb_fin (a b : Q) : F.ltb (F.Fin a) (F.Fin b) = true <-> a < b.
Proof.
  unfold F.ltb. cbn [F.compare]. rewrite Qlt_alt.
  destruct (a ?= b); split; congruence.
Qed.

Lemma geb_fin (a b : Q) : F.geb (F.Fin a) (F.Fin b) = true <-> b <= a.
Proof.
  unfold F.geb. cbn [F.compare]. destruct (a ?= b) eqn:E.
  - apply Qeq_alt in E. split; [intros _; rewrite E; apply Qle_refl | reflexivity].
  - apply Qlt_alt in E. split; [discriminate | intros H; exfalso; lra].
  - apply Qgt_alt in E. split; [intros _; lra | reflexivity].
Qed.

Lemma eqb_fin (a b : Q) : F.eqb (F.Fin a) (F.Fin b) = true <-> a == b.
Proof.
  unfold F.eqb. cbn [F.compare]. rewrite Qeq_alt.
  destruct (a ?= b); split; congruence.
Qed.

Lemma increasing_head (a : Q) (rest : list float) :
  increasing (F.Fin a :: rest) = true ->
  forall j, (j < length rest)%nat ->
    exists b, nth j rest F.NaN = F.Fin b /\ a < b.
Proof.
  revert a. induction rest as [| b' rest IH]; intros a H j Hj; [cbn in Hj; lia |].
  cbn [increasing] in H. apply andb_prop in H as [H Hlt].
  apply andb_prop in H as [_ H].
  pose proof H as H'. cbn [increasing] in H'.
  apply andb_prop in H' as [H' _]. apply andb_prop in H' as [Hfin _].
  destruct b' as [| s | b]; try discriminate Hfin.
  apply ltb_fin in Hlt. destruct j as [| j].
  - exists b. now split.
  - destruct (IH b H j ltac:(cbn in Hj; lia)) as (c & Hc & Hbc).
    exists c. split; [exact Hc | lra].
Qed.

Lemma increasing_tail (a : float) (rest : list float) :
  increasing (a :: rest) = true ->
  increasing rest = true /\ exists q, a = F.Fin q.
Proof.
  cbn [increasing]. intros H. apply andb_prop in H as [H _].
  apply andb_prop in H as [Hfin H]. split; [exact H |].
  destruct a; try discriminate. now eexists.
Qed.

Lemma increasing_lt (times : list float) :
  increasing times = true ->
  forall i j, (i < j < length times)%nat ->
    exists a b, nth i times F.NaN = F.Fin a /\ nth j times F.NaN = F.Fin b /\ a < b.
Proof.
  induction times as [| t0 rest IH]; intros H i j Hij; [cbn in Hij; lia |].
  destruct (@increasing_tail _ _ H) as (Hrest & q & ->).
  destruct i as [| i].
  - destruct j as [| j]; [lia |].
    destruct (@increasing_head q rest H j ltac:(cbn in Hij; lia)) as (b & Hb & Hlt).
    exists q, b. now repeat split.
  - destruct j as [| j]; [lia |]. apply (IH Hrest i j). cbn in Hij. lia.
Qed.

Lemma increasing_finite (times : list float) :
  increasing times = true ->
  forall i, (i < length times)%nat -> exists a, nth i times F.NaN = F.Fin a.
Proof.
  induction times as [| t0 rest IH]; intros H i Hi; [cbn in Hi; lia |].
  destruct (@increasing_tail _ _ H) as (Hrest & q & ->).
  destruct i as [| i]; [now exists q |]. apply (IH Hrest). cbn in Hi. lia.
Qed.

(** What the search for the first timestamp at or after [t] returns. *)
Lemma first_at_or_after_some (times : list float) (t : float) :
  forall i f, first_at_or_after times t i = Some f ->
    exists k : nat, f = (i + Z.of_nat k)%Z /\ (k < length times)%nat /\
      F.geb (nth k times F.NaN) t = true /\
      forall j, (j < k)%nat -> F.geb (nth j times F.NaN) t = false.
Proof.
  induction times as [| t0 rest IH]; intros i f H; [discriminate |].
  cbn [first_at_or_after] in H. destruct (F.geb t0 t) eqn:E.
  - injection H as <-. exists 0%nat. repeat split; [lia | cbn; lia | exact E |].
    intros j Hj. lia.
  - destruct (IH _ _ H) as (k & -> & Hk & Hge & Hlt).
    exists (S k). repeat split; [lia | cbn; lia | exact Hge |].
    intros [| j] Hj; [exact E | apply Hlt; lia].
Qed.

Lemma first_at_or_after_none (times : list float) (t : float) :
  forall i, first_at_or_after times t i = None ->
    forall j, (j < length times)%nat -> F.geb (nth j times F.NaN) t = false.
Proof.
  induction times as [| t0 rest IH]; intros i H j Hj; [cbn in Hj; lia |].
  cbn [first_at_or_after] in H. destruct (F.geb t0 t) eqn:E; [discriminate |].
  destruct j as [| j]; [exact E |]. apply (IH _ H). cbn in Hj. lia.
Qed.

Lemma weights_sum (x : Q) : (F.Fin x + (F.one - F.Fin x))%flt = F.one.
Proof.
  unfold F.sub, F.one, F.of_Z. cbn [F.opp F.add F.fin].
  change (F.Fin (inject_Z 1)) with (F.fin 1). apply fin_eq.
  rewrite (Qred_correct (inject_Z 1 + Qred (- x))), (Qred_correct (- x)).
  change (inject_Z 1) with 1%Q. ring.
Qed.

Lemma weight_complement_zero (x : Q) : x == 1 -> (F.one - F.Fin x)%flt = F.zero.
Proof.
  intros E. unfold F.sub, F.one, F.zero, F.of_Z. cbn [F.opp F.add F.fin].
  change (F.Fin (inject_Z 0)) with (F.fin 0). apply fin_eq.
  rewrite (Qred_correct (- x)), E. reflexivity.
Qed.

(** The interpolation weight between two finite timestamps. *)
Lemma interpolation_weight (q q0 q1 : Q) :
  q0 < q1 ->
  exists x, ((F.Fin q - F.Fin q0) / (F.Fin q1 - F.Fin q0))%flt = F.Fin x /\
            x == (q - q0) / (q1 - q0).
Proof.
  intros H. unfold F.sub. cbn [F.opp F.add F.fin F.div].
  assert (E1 : Qred (q1 + Qred (- q0)) == q1 - q0)
    by (rewrite (Qred_correct (q1 + Qred (- q0))), (Qred_correct (- q0)); ring).
  assert (E : Qred (q + Qred (- q0)) == q - q0)
    by (rewrite (Qred_correct (q + Qred (- q0))), (Qred_correct (- q0)); ring).
  rewrite Qeq_bool_false by (rewrite E1; lra).
  eexists. split; [reflexivity |]. now rewrite Qred_correct, E, E1.
Qed.

Lemma gtb_fin (a b : Q) : F.gtb (F.Fin a) (F.Fin b) = true <-> b < a.
Proof.
  unfold F.gtb. cbn [F.compare]. destruct (a ?= b) eqn:E.
  - apply Qeq_alt in E. split; [discriminate | intros H; exfalso; lra].
  - apply Qlt_alt in E. split; [discriminate | intros H; exfalso; lra].
  - apply Qgt_alt in E. split; [intros _; exact E | reflexivity].
Qed.

(** Between which finite values a query time lies when a finite timestamp
    is at or after it and another is not. *)
Lemma between_finite (q0 q1 : Q) (t : float) :
  F.geb (F.Fin q1) t = true -> F.geb (F.Fin q0) t = false ->
  exists q, t = F.Fin q /\ q0 < q /\ q <= q1.
Proof.
  destruct t as [| [|] | q]; try discriminate.
  intros H1 H0. exists q. split; [reflexivity |].
  apply geb_fin in H1. split; [| exact H1].
  destruct (Qlt_le_dec q0 q) as [L | L]; [exact L |].
  apply geb_fin in L. congruence.
Qed.

Lemma resolve_frame_resolution (times : list float) (t : float) :
  increasing times = true -> resolution times t (resolve_frame times t).
Proof.
  intros Hinc. unfold resolve_frame.
  destruct (first_at_or_after times t 0) as [f |] eqn:E.
  - destruct (@first_at_or_after_some times t 0%Z f E) as (k & -> & Hk & Hge & Hlt).
    destruct k as [| k].
    + cbn [Z.of_nat Z.add Z.eqb]. now apply at_first.
    + replace (0 + Z.of_nat (S k) =? 0)%Z with false by (symmetry; apply Z.eqb_neq; lia).
      unfold time_at.
      replace (Z.to_nat (0 + Z.of_nat (S k) - 1)) with k by lia.
      replace (Z.to_nat (0 + Z.of_nat (S k))) with (S k) by lia.
      destruct (@increasing_lt times Hinc k (S k) ltac:(lia))
        as (q0 & q1 & E0 & E1 & Hq).
      rewrite E0, E1. rewrite E1 in Hge.
      pose proof (Hlt k ltac:(lia)) as Hk0. rewrite E0 in Hk0.
      destruct (@between_finite q0 q1 t Hge Hk0) as (q & -> & Hq0 & Hq1).
      destruct (@interpolation_weight q q0 q1 Hq) as (x & Ex & Hx).
      rewrite Ex.
      apply between with (k := k) (q := q) (q0 := q0) (q1 := q1) (x := x);
        cbn [frame_above w1 w2]; try assumption; try reflexivity; lia.
  - apply past_last; try reflexivity.
    now apply first_at_or_after_none with (i := 0%Z).
Qed.

Lemma eqb_geb (u v : float) : F.eqb u v = true -> F.geb u v = true.
Proof. unfold F.eqb, F.geb. now destruct (F.compare u v) as [[| |] |]. Qed.

Lemma ltb_geb (u v : float) : F.ltb u v = true -> F.geb v u = true.
Proof.
  destruct u as [| a | p], v as [| b | q]; try discriminate.
  - now destruct a, b.
  - now destruct a.
  - now destruct b.
  - intros H. apply ltb_fin in H. apply geb_fin. lra.
Qed.

(** On a timestamp, before the first or after the last one, the weight
    toward the earlier frame is exactly zero. *)
Lemma resolution_on_frame (times : list float) (t : float) (info : FrameInfo) :
  increasing times = true -> times <> [] ->
  resolution times t info ->
  (exists j, (j < length times)%nat /\ F.eqb (nth j times F.NaN) t = true) \/
  F.ltb t (nth 0 times F.NaN) = true \/
  F.gtb t (nth (length times - 1) times F.NaN) = true ->
  w2 info = F.zero.
Proof.
  intros Hinc Hne [Hf Hw1 Hw2 Hge | Hf Hw1 Hw2 Hall
                  | k q q0 q1 x Hf Hk E0 E1 -> Hq0 Hq1 Hq Hw1 Hw2 Hx Hlt] Hcase;
    try exact Hw2.
  rewrite Hw2. apply weight_complement_zero.
  assert (Eq : q == q1); [| rewrite Hx, Eq; field; lra].
  destruct Hcase as [(j & Hj & Hjt) | [Hbefore | Hafter]].
  - destruct (@increasing_finite times Hinc j Hj) as (qj & Ej).
    rewrite Ej in Hjt. apply eqb_fin in Hjt.
    destruct (Nat.lt_trichotomy j (S k)) as [L | [-> | L]].
    + pose proof (Hlt j L) as H. rewrite Ej in H.
      assert (G : F.geb (F.Fin qj) (F.Fin q) = true) by (apply geb_fin; lra).
      congruence.
    + rewrite E1 in Ej. injection Ej as ->. now symmetry.
    + destruct (@increasing_lt times Hinc (S k) j ltac:(lia))
        as (a & b & Ea & Eb & Hab).
      rewrite E1 in Ea. injection Ea as ->. rewrite Ej in Eb. injection Eb as ->.
      exfalso; lra.
  - apply ltb_geb in Hbefore. rewrite (Hlt 0%nat ltac:(lia)) in Hbefore.
    discriminate.
  - destruct (@increasing_finite times Hinc (length times - 1)%nat ltac:(lia))
      as (b & Eb).
    rewrite Eb in Hafter. apply gtb_fin in Hafter.
    destruct (Nat.eq_dec (S k) (length times - 1)) as [El | Nl].
    + rewrite <- El, E1 in Eb. injection Eb as ->. exfalso; lra.
    + destruct (@increasing_lt times Hinc (S k) (length times - 1)%nat ltac:(lia))
        as (a & b' & Ea & Eb' & Hab).
      rewrite E1 in Ea. injection Ea as ->. rewrite Eb in Eb'. injection Eb' as ->.
      exfalso; lra.
Qed.

(** C4, as amended.  For a series with finite, strictly increasing
    timestamps (at least one) and every query time: [frame_above] is a
    valid index, the earliest whose timestamp is at or after the time, or
    the last index when no timestamp is; the weights sum to 1; when the time
    is a timestamp, or before the first or after the last one, [w2] is zero
    and the drawing reads rows of frame [frame_above] only, its one other
    access being the row count of frame 0, the bound of the row loop; with
    timestamps 0 and 1 the time 0.25 gives frame 1 with [w1 = 0.25] and
    [w2 = 0.75]. *)
Theorem frame_info_resolution (p : Points) (t : float) :
  m_times p <> [] -> increasing (m_times p) = true ->
  let times := m_times p in
  let last := (Z.of_nat (length times) - 1)%Z in
  let info := m_frame_info (update_frame_info p t) in
  let f := frame_above info in
  ((0 <= f <= last)%Z /\
   (forall j, (0 <= j < f)%Z -> F.geb (time_at times j) t = false) /\
   (F.geb (time_at times f) t = true \/
    (f = last /\
     forall j, (0 <= j <= last)%Z -> F.geb (time_at times j) t = false))) /\
  (w1 info + w2 info)%flt = F.one /\
  ((exists j, (0 <= j <= last)%Z /\ F.eqb (time_at times j) t = true) \/
   F.ltb t (time_at times 0) = true \/
   F.gtb t (time_at times last) = true ->
   w2 info = F.zero /\
   Forall (touches_only f) (fst (draw_at to_color to_display p t))) /\
  resolve_frame [F.of_Z 0; F.of_Z 1] (F.Fin (1 # 4))
  = {| frame_above := 1; w1 := F.Fin (1 # 4); w2 := F.Fin (3 # 4) |}.
Proof.
  intros Hne Hinc times last info f.
  assert (Hlen : (0 < length times)%nat)
    by (unfold times; destruct (m_times p); [congruence | cbn; lia]).
  pose proof (@resolve_frame_resolution times t Hinc) as Hres.
  change (resolve_frame times t) with info in Hres.
  split; [| split; [| split; [| reflexivity]]].
  - destruct Hres as [Hf Hw1 Hw2 Hge | Hf Hw1 Hw2 Hall
                      | k q q0 q1 x Hf Hk E0 E1 Et Hq0 Hq1 Hq Hw1 Hw2 Hx Hlt];
      unfold f, last; rewrite Hf.
    + split; [lia |]. split; [intros j Hj; lia | now left].
    + split; [lia |]. split.
      * intros j Hj. unfold time_at. apply Hall. lia.
      * right. split; [reflexivity |]. intros j Hj. unfold time_at. apply Hall. lia.
    + split; [lia |]. split.
      * intros j Hj. unfold time_at. apply Hlt. lia.
      * left. unfold time_at. rewrite Nat2Z.id, E1, Et. apply geb_fin. exact Hq1.
  - destruct Hres as [Hf Hw1 Hw2 Hge | Hf Hw1 Hw2 Hall
                      | k q q0 q1 x Hf Hk E0 E1 Et Hq0 Hq1 Hq Hw1 Hw2 Hx Hlt];
      rewrite Hw1, Hw2; [reflexivity | reflexivity | apply weights_sum].
  - intros Hcase.
    assert (Hz : w2 info = F.zero).
    { apply (@resolution_on_frame times t info Hinc Hne Hres).
      unfold time_at, last in Hcase.
      destruct Hcase as [(j & Hj & Hjt) | [Hb | Ha]].
      - left. exists (Z.to_nat j). split; [lia | exact Hjt].
      - right; left. exact Hb.
      - right; right. now replace (length times - 1)%nat
                        with (Z.to_nat (Z.of_nat (length times) - 1)) by lia. }
    split; [exact Hz |].
    apply (draw_plot_single_frame (update_frame_info p t)).
    fold info. now rewrite Hz.
Qed.

End DrawingFacts.


(** ** Concrete series *)

Lemma frame_info_resolution_witness :
  w2 (m_frame_info (update_frame_info two_frames (F.of_Z 1))) = F.zero /\
  Forall (touches_only 1)
    (fst (draw_at plain_color plain_display two_frames (F.of_Z 1))).
Proof.
  apply (proj1 (proj2 (proj2
    (@frame_info_resolution float plain_color plain_display two_frames (F.of_Z 1)
       ltac:(discriminate) eq_refl)))).
  left. exists 1%Z. split; [cbn; lia | reflexivity].
Defined.

(** C4 fails as stated: at time 1, exactly on frame 1, the drawing still
    accesses frame 0 = [frame_above - 1], for its row count. *)
Lemma draw_on_frame_reads_first_frame :
  frame_above (m_frame_info (update_frame_info two_frames (F.of_Z 1))) = 1%Z /\
  w2 (m_frame_info (update_frame_info two_frames (F.of_Z 1))) = F.zero /\
  In (frame_access 0 Rows)
     (fst (draw_at plain_color plain_display two_frames (F.of_Z 1))).
Proof.
  split; [reflexivity | split; [reflexivity |]].
  vm_compute. do 5 right. now left.
Qed.

Lemma draw_without_frames_witness :
  draw plain_color plain_display no_frames = ([], Fault OutOfBounds) /\
  draw_at plain_color plain_display no_frames (F.of_Z 0) = ([], Fault OutOfBounds).
Proof.
  pose proof (@draw_without_frames float plain_color plain_display no_frames eq_refl)
    as (H1 & _ & H3).
  split; [exact H1 | apply H3].
Defined.

(** C2 fails as stated: with no frame, each overload indexes a frame that
    does not exist. *)
Lemma draw_without_frames_out_of_bounds :
  m_data no_frames = [] /\
  snd (draw plain_color plain_display no_frames) = Fault OutOfBounds /\
  snd (draw_at plain_color plain_display no_frames (F.of_Z 0)) = Fault OutOfBounds.
Proof. repeat split. Qed.

Lemma draw_plot_blends_witness :
  yields
    (draw_plot plain_color plain_display
       (update_frame_info two_frames (F.Fin (1 # 4))))
    [stroke_width F.zero;
     fill_color F.zero; circle (F.of_Z 2) (F.of_Z 4) F.one;
     fill_color F.zero; circle (F.of_Z 3) (F.of_Z 5) F.one] tt.
Proof.
  exact (proj1
    (@draw_plot_blends float plain_color plain_display
       (update_frame_info two_frames (F.Fin (1 # 4)))
       (xy_frame [1; 2]%Z [3; 4]%Z) (xy_frame [5; 6]%Z [7; 8]%Z)
       (xy_frame [1; 2]%Z [3; 4]%Z)
       eq_refl ltac:(cbn; lia) eq_refl eq_refl eq_refl eq_refl eq_refl eq_refl)).
Defined.

Lemma two_frames_plain (a : Aesthetic.t) (t : float) :
  a = Aesthetic.color \/ a = Aesthetic.size ->
  forall d, In d (m_data (update_frame_info two_frames t)) -> column d a = None.
Proof.
  intros Ha d [<- | [<- | []]]; destruct Ha as [-> | ->]; reflexivity.
Qed.


(** ** The order of the floats *)

Lemma order_fin (p q : Q) :
  F.compare (F.Fin p) (F.Fin q) = Some (p ?= q)%Q.
Proof. reflexivity. Qed.

Lemma geb_refl (x : float) : is_nan x = false -> F.geb x x = true.
Proof.
  destruct x as [| [] | q]; try easy.
  intros _. apply geb_fin. apply Qle_refl.
Qed.

Lemma ltb_false_geb (x y : float) :
  is_nan x = false -> is_nan y = false -> F.ltb x y = false -> F.geb x y = true.
Proof.
  destruct x as [| [] | p], y as [| [] | q]; try easy.
  intros _ _ H. apply geb_fin.
  destruct (Qlt_le_dec p q) as [L | L]; [| exact L].
  apply ltb_fin in L. congruence.
Qed.

Lemma gtb_ltb (x y : float) : F.gtb x y = F.ltb y x.
Proof.
  destruct x as [| [] | p], y as [| [] | q]; try reflexivity.
  unfold F.gtb, F.ltb. rewrite !order_fin.
  rewrite <- (Qcompare_antisym q p). now destruct (q ?= p)%Q.
Qed.

Lemma geb_trans (x y z : float) :
  F.geb x y = true -> F.geb y z = true -> F.geb x z = true.
Proof.
  destruct x as [| [] | p], y as [| [] | q], z as [| [] | r]; try easy.
  rewrite !geb_fin. intros A B. now apply Qle_trans with q.
Qed.

Lemma geb_antisym (x y : float) :
  F.geb x y = true -> F.geb y x = true -> F.eqb x y = true.
Proof.
  destruct x as [| [] | p], y as [| [] | q]; try easy.
  rewrite !geb_fin, eqb_fin. intros A B. now apply Qle_antisym.
Qed.

Lemma ltb_geb_false (x y : float) : F.ltb x y = true -> F.geb x y = false.
Proof.
  destruct x as [| [] | p], y as [| [] | q]; try easy.
  unfold F.ltb, F.geb. rewrite order_fin. now destruct (p ?= q)%Q.
Qed.

Lemma fabs_not_nan (x : float) : is_nan x = false -> is_nan (fabs x) = false.
Proof. now destruct x. Qed.

(** ** inf_norm *)

Lemma inf_norm_loop_max (rest : Vector) :
  forall ret : float,
    nan_free rest = true -> is_nan ret = false ->
    (inf_norm_loop ret rest = ret \/ In (inf_norm_loop ret rest) (map fabs rest)) /\
    F.geb (inf_norm_loop ret rest) ret = true /\
    forall x, In x rest -> F.geb (inf_norm_loop ret rest) (fabs x) = true.
Proof.
  induction rest as [| a rest IH]; intros ret Hv Hr; cbn [inf_norm_loop].
  - split; [now left |]. split; [now apply geb_refl | easy].
  - cbn in Hv. apply andb_prop in Hv as [Ha Hv].
    apply negb_true_iff in Ha. pose proof (fabs_not_nan a Ha) as Hfa.
    destruct (F.gtb (fabs a) ret) eqn:G.
    + destruct (IH (fabs a) Hv Hfa) as (I1 & I2 & I3).
      split; [| split].
      * right. destruct I1 as [-> | I1]; [now left | now right].
      * apply geb_trans with (fabs a); [exact I2 |].
        rewrite gtb_ltb in G. now apply ltb_geb.
      * intros x [<- | Hx]; [exact I2 | now apply I3].
    + destruct (IH ret Hv Hr) as (I1 & I2 & I3).
      split; [| split].
      * destruct I1 as [-> | I1]; [now left | right; now right].
      * exact I2.
      * intros x [<- | Hx]; [| now apply I3].
        apply geb_trans with ret; [exact I2 |].
        rewrite gtb_ltb in G. now apply ltb_false_geb.
Qed.

(** X1.  On a non-empty vector without NaN, [inf_norm] returns the largest
    absolute value: it is the absolute value of one of the elements and no
    element has a larger one. *)
Theorem inf_norm_is_max (v : Vector) :
  v <> [] -> nan_free v = true ->
  exists r : float,
    inf_norm v = Some r /\
    In r (abs v) /\
    forall x, In x v -> F.geb r (fabs x) = true.
Proof.
  destruct v as [| a rest]; [easy |]. intros _ Hv.
  cbn in Hv. apply andb_prop in Hv as [Ha Hv].
  apply negb_true_iff in Ha.
  destruct (inf_norm_loop_max rest (fabs a) Hv (fabs_not_nan a Ha))
    as (I1 & I2 & I3).
  exists (inf_norm_loop (fabs a) rest). split; [reflexivity |]. split.
  - cbn. destruct I1 as [-> | I1]; [now left | now right].
  - intros x [<- | Hx]; [exact I2 | now apply I3].
Qed.

Lemma inf_norm_is_max_witness :
  exists r : float,
    inf_norm [F.of_Z 3; F.of_Z (-7); F.of_Z 5] = Some r /\
    In r (abs [F.of_Z 3; F.of_Z (-7); F.of_Z 5]) /\
    forall x, In x [F.of_Z 3; F.of_Z (-7); F.of_Z 5] ->
              F.geb r (fabs x) = true.
Proof.
  apply (@inf_norm_is_max [F.of_Z 3; F.of_Z (-7); F.of_Z 5]);
    [discriminate | reflexivity].
Defined.

Lemma inf_norm_loop_nan (rest : Vector) : inf_norm_loop F.NaN rest = F.NaN.
Proof.
  induction rest as [| a rest IH]; [reflexivity |].
  cbn [inf_norm_loop]. now destruct (fabs a) as [| [] | q].
Qed.

Lemma inf_norm_loop_skips_nan (front back : Vector) :
  forall ret : float,
    inf_norm_loop ret (front ++ F.NaN :: back) =
    inf_norm_loop ret (front ++ back).
Proof.
  induction front as [| a front IH]; intros ret.
  - cbn. now destruct ret as [| [] | q].
  - cbn [app inf_norm_loop]. apply IH.
Qed.

(** X2.  NaN in [inf_norm]: a NaN in the first position is the result,
    whatever follows; a NaN in any later position is skipped as if it were
    not there. *)
Theorem inf_norm_nan (x : float) (front back : Vector) :
  inf_norm (F.NaN :: back) = Some F.NaN /\
  inf_norm (x :: front ++ F.NaN :: back) = inf_norm (x :: front ++ back).
Proof.
  split; cbn [inf_norm].
  - f_equal. apply inf_norm_loop_nan.
  - f_equal. apply inf_norm_loop_skips_nan.
Qed.

(** ** minCoeff and maxCoeff *)

Lemma min_element_least (rest : Vector) :
  forall smallest : float,
    nan_free rest = true -> is_nan smallest = false ->
    (min_element smallest rest = smallest \/
     In (min_element smallest rest) rest) /\
    F.geb smallest (min_element smallest rest) = true /\
    forall x, In x rest -> F.geb x (min_element smallest rest) = true.
Proof.
  induction rest as [| a rest IH]; intros s Hv Hs; cbn [min_element].
  - split; [now left |]. split; [now apply geb_refl | easy].
  - cbn in Hv. apply andb_prop in Hv as [Ha Hv].
    apply negb_true_iff in Ha.
    destruct (F.ltb a s) eqn:L.
    + destruct (IH a Hv Ha) as (I1 & I2 & I3).
      split; [| split].
      * right. destruct I1 as [-> | I1]; [now left | now right].
      * apply geb_trans with a; [now apply ltb_geb | exact I2].
      * intros x [<- | Hx]; [exact I2 | now apply I3].
    + destruct (IH s Hv Hs) as (I1 & I2 & I3).
      split; [| split].
      * destruct I1 as [-> | I1]; [now left | right; now right].
      * exact I2.
      * intros x [<- | Hx]; [| now apply I3].
        apply geb_trans with s; [now apply ltb_false_geb | exact I2].
Qed.

Lemma max_element_greatest (rest : Vector) :
  forall largest : float,
    nan_free rest = true -> is_nan largest = false ->
    (max_element largest rest = largest \/
     In (max_element largest rest) rest) /\
    F.geb (max_element largest rest) largest = true /\
    forall x, In x rest -> F.geb (max_element largest rest) x = true.
Proof.
  induction rest as [| a rest IH]; intros s Hv Hs; cbn [max_element].
  - split; [now left |]. split; [now apply geb_refl | easy].
  - cbn in Hv. apply andb_prop in Hv as [Ha Hv].
    apply negb_true_iff in Ha.
    destruct (F.ltb s a) eqn:L.
    + destruct (IH a Hv Ha) as (I1 & I2 & I3).
      split; [| split].
      * right. destruct I1 as [-> | I1]; [now left | now right].
      * apply geb_trans with a; [exact I2 | now apply ltb_geb].
      * intros x [<- | Hx]; [exact I2 | now apply I3].
    + destruct (IH s Hv Hs) as (I1 & I2 & I3).
      split; [| split].
      * destruct I1 as [-> | I1]; [now left | right; now right].
      * exact I2.
      * intros x [<- | Hx]; [| now apply I3].
        apply geb_trans with s; [exact I2 | now apply ltb_false_geb].
Qed.

(** X3.  On a non-empty vector without NaN, [minCoeff] and [maxCoeff]
    return elements of the vector that bound every element from below and
    from above. *)
Theorem minCoeff_maxCoeff_bounds (v : Vector) :
  v <> [] -> nan_free v = true ->
  exists lo hi : float,
    minCoeff v = Some lo /\ maxCoeff v = Some hi /\
    In lo v /\ In hi v /\
    forall x, In x v -> F.geb x lo = true /\ F.geb hi x = true.
Proof.
  destruct v as [| a rest]; [easy |]. intros _ Hv.
  cbn in Hv. apply andb_prop in Hv as [Ha Hv].
  apply negb_true_iff in Ha.
  destruct (min_element_least rest a Hv Ha) as (L1 & L2 & L3).
  destruct (max_element_greatest rest a Hv Ha) as (G1 & G2 & G3).
  exists (min_element a rest), (max_element a rest).
  split; [reflexivity |]. split; [reflexivity |].
  split; [| split].
  - destruct L1 as [-> | L1]; [now left | now right].
  - destruct G1 as [-> | G1]; [now left | now right].
  - intros x [<- | Hx]; [now split | split; [now apply L3 | now apply G3]].
Qed.

Lemma minCoeff_maxCoeff_bounds_witness :
  exists lo hi : float,
    minCoeff [F.of_Z 3; F.Inf true; F.of_Z 5] = Some lo /\
    maxCoeff [F.of_Z 3; F.Inf true; F.of_Z 5] = Some hi /\
    In lo [F.of_Z 3; F.Inf true; F.of_Z 5] /\
    In hi [F.of_Z 3; F.Inf true; F.of_Z 5] /\
    forall x, In x [F.of_Z 3; F.Inf true; F.of_Z 5] ->
              F.geb x lo = true /\ F.geb hi x = true.
Proof.
  apply (@minCoeff_maxCoeff_bounds [F.of_Z 3; F.Inf true; F.of_Z 5]);
    [discriminate | reflexivity].
Defined.

Lemma min_element_nan (rest : Vector) : min_element F.NaN rest = F.NaN.
Proof.
  induction rest as [| a rest IH]; [reflexivity |].
  cbn [min_element]. now destruct a as [| [] | q].
Qed.

Lemma max_element_nan (rest : Vector) : max_element F.NaN rest = F.NaN.
Proof.
  induction rest as [| a rest IH]; [reflexivity |].
  cbn [max_element]. now destruct a as [| [] | q].
Qed.

Lemma min_element_skips_nan (front back : Vector) :
  forall s : float,
    min_element s (front ++ F.NaN :: back) = min_element s (front ++ back).
Proof.
  induction front as [| a front IH]; intros s.
  - cbn. now destruct s as [| [] | q].
  - cbn [app min_element]. apply IH.
Qed.

Lemma max_element_skips_nan (front back : Vector) :
  forall s : float,
    max_element s (front ++ F.NaN :: back) = max_element s (front ++ back).
Proof.
  induction front as [| a front IH]; intros s.
  - cbn. now destruct s as [| [] | q].
  - cbn [app max_element]. apply IH.
Qed.

(** X4.  NaN in [minCoeff] and [maxCoeff]: a NaN in the first position is
    the result of both; a NaN in any later position is never the result
    and changes nothing. *)
Theorem minCoeff_maxCoeff_nan (x : float) (front back : Vector) :
  minCoeff (F.NaN :: back) = Some F.NaN /\
  maxCoeff (F.NaN :: back) = Some F.NaN /\
  minCoeff (x :: front ++ F.NaN :: back) = minCoeff (x :: front ++ back) /\
  maxCoeff (x :: front ++ F.NaN :: back) = maxCoeff (x :: front ++ back).
Proof.
  cbn [minCoeff maxCoeff].
  rewrite min_element_nan, max_element_nan.
  rewrite min_element_skips_nan, max_element_skips_nan. now repeat split.
Qed.

(** ** Comparisons and their collapse to one truth value *)

Lemma none_not_any {T : Type} (cast : T -> bool) (v : list T) :
  none cast v = negb (any cast v).
Proof.
  induction v as [| a v IH]; [reflexivity |].
  cbn. unfold none, any in IH. rewrite IH. now destruct (cast a).
Qed.

Lemma geb_not_ltb (x y : float) :
  is_nan x = false -> is_nan y = false -> F.geb x y = negb (F.ltb x y).
Proof.
  intros Hx Hy. destruct (F.ltb x y) eqn:L.
  - now apply ltb_geb_false.
  - now apply ltb_false_geb.
Qed.

Lemma eqb_both (x y : float) : F.eqb x y = F.geb x y && F.geb y x.
Proof.
  destruct (F.geb x y) eqn:A, (F.geb y x) eqn:B; cbn.
  - now apply geb_antisym.
  - destruct (F.eqb x y) eqn:E; [| reflexivity].
    destruct x as [| [] | p], y as [| [] | q]; try easy.
    apply eqb_fin in E. apply geb_fin in A.
    assert (F.geb (F.Fin q) (F.Fin p) = true) as C.
    { apply geb_fin. rewrite E. apply Qle_refl. }
    congruence.
  - destruct (F.eqb x y) eqn:E; [| reflexivity].
    apply eqb_geb in E. congruence.
  - destruct (F.eqb x y) eqn:E; [| reflexivity].
    apply eqb_geb in E. congruence.
Qed.

(** X5.  Collapsing comparisons without NaN.  For two vectors without
    NaN, [(a >= b).all()] is the negation of [(a < b).any()], and
    [(a <= b).all()] is the negation of [(a > b).any()]. *)
Theorem ordering_collapse (a b : Vector) :
  nan_free a = true -> nan_free b = true ->
  all id (vge a b) = negb (any id (vlt a b)) /\
  all id (vle a b) = negb (any id (vgt a b)).
Proof.
  revert b. induction a as [| x a IH]; intros [| y b] Ha Hb;
    try (now split).
  cbn in Ha, Hb. apply andb_prop in Ha as [Hx Ha].
  apply andb_prop in Hb as [Hy Hb].
  apply negb_true_iff in Hx, Hy.
  destruct (IH b Ha Hb) as [I1 I2].
  unfold all, any, vge, vlt, vle, vgt, id in *. cbn.
  rewrite I1, I2, (geb_not_ltb x y Hx Hy), (geb_not_ltb y x Hy Hx).
  rewrite gtb_ltb, !negb_orb. now split.
Qed.

Lemma ordering_collapse_witness :
  all id (vge [F.of_Z 1; F.Inf false] [F.of_Z 2; F.of_Z 0]) =
  negb (any id (vlt [F.of_Z 1; F.Inf false] [F.of_Z 2; F.of_Z 0])) /\
  all id (vle [F.of_Z 1; F.Inf false] [F.of_Z 2; F.of_Z 0]) =
  negb (any id (vgt [F.of_Z 1; F.Inf false] [F.of_Z 2; F.of_Z 0])).
Proof.
  apply (@ordering_collapse [F.of_Z 1; F.Inf false] [F.of_Z 2; F.of_Z 0]);
    reflexivity.
Defined.

(** X6.  Collapsing equalities, NaN included.  [none()] is the negation of
    [any()]; [(a == b).all()] holds exactly when both [(a >= b).all()] and
    [(a <= b).all()] hold; [(a != b).any()] is the negation of
    [(a == b).all()]. *)
Theorem equality_collapse (a b : Vector) :
  none to_bool a = negb (any to_bool a) /\
  all id (veq a b) = all id (vge a b) && all id (vle a b) /\
  any id (vne a b) = negb (all id (veq a b)).
Proof.
  split; [apply none_not_any |]. split.
  - revert b. induction a as [| x a IH]; intros [| y b]; try reflexivity.
    unfold all, veq, vge, vle, id in *. cbn. rewrite IH, eqb_both.
    destruct (F.geb x y), (F.geb y x); cbn; try reflexivity.
    now rewrite andb_false_r.
  - revert b. induction a as [| x a IH]; intros [| y b]; try reflexivity.
    unfold all, any, veq, vne, id in *. cbn. rewrite IH.
    now rewrite negb_andb.
Qed.

Lemma eqb_self (x : float) : F.eqb x x = negb (is_nan x).
Proof.
  destruct x as [| [] | q]; try reflexivity.
  apply eqb_fin. reflexivity.
Qed.

Lemma ltb_irrefl (x : float) : F.ltb x x = false.
Proof.
  destruct (F.ltb x x) eqn:L; [| reflexivity].
  pose proof (ltb_geb_false _ _ L) as G. apply ltb_geb in L. congruence.
Qed.

(** X7.  Comparing a vector with itself detects NaN: [(a == a).all()] is
    true exactly when no element is NaN, and so is [(a >= a).all()];
    [(a != a).any()] is true exactly when some element is NaN; and
    [(a < a).any()] is never true. *)
Theorem self_comparison (a : Vector) :
  all id (veq a a) = nan_free a /\
  all id (vge a a) = nan_free a /\
  any id (vne a a) = negb (nan_free a) /\
  any id (vlt a a) = false.
Proof.
  induction a as [| x a (I1 & I2 & I3 & I4)]; [now repeat split |].
  unfold all, any, veq, vge, vne, vlt, id in *. cbn.
  rewrite I1, I2, I3, I4, eqb_self, ltb_irrefl.
  assert (F.geb x x = negb (is_nan x)) as ->.
  { destruct x as [| [] | q]; try reflexivity. apply geb_fin, Qle_refl. }
  rewrite negb_andb. now repeat split.
Qed.

(** ** Exact arithmetic on finite values *)

Lemma finite3 (a : Vector) :
  length a = 3%nat -> finite a = true ->
  exists p q r : Q, a = [F.Fin p; F.Fin q; F.Fin r].
Proof.
  destruct a as [| [| [] | p] [| [| [] | q] [| [| [] | r] [| ? ?]]]];
    try discriminate.
  intros _ _. now exists p, q, r.
Qed.

(** Both sides are computed on finite values; what is left is an equation
    of rationals. *)
Ltac fin_ring :=
  lazymatch goal with
  | |- F.Fin (Qred _) = F.Fin (Qred _) =>
      apply f_equal, Qred_complete; rewrite ?Qred_correct; ring
  | |- _ :: _ = _ :: _ => apply f_equal2; [fin_ring | fin_ring]
  | |- [] = [] => reflexivity
  end.

Ltac fin_compute :=
  cbn [F.sub F.add F.mul F.opp F.fin];
  change F.zero with (F.Fin (Qred 0));
  unfold F.fin.





(** ** Absolute values and squares *)

Lemma sqr_nonneg (p : Q) : 0 <= p * p.
Proof. exact (Qsqr_nonneg p). Qed.

Lemma fabs_idempotent (x : float) : fabs (fabs x) = fabs x.
Proof.
  destruct x as [| s | q]; try reflexivity.
  cbn [fabs F.fin]. apply fin_eq. rewrite Qred_correct.
  apply Qabs_pos, Qabs_nonneg.
Qed.

Lemma fabs_opp (x : float) : fabs (F.opp x) = fabs x.
Proof.
  destruct x as [| s | q]; try reflexivity.
  cbn [fabs F.opp F.fin]. apply fin_eq. rewrite Qred_correct.
  apply Qabs_opp.
Qed.

Lemma square_fabs (x : float) : (x * x)%flt = (fabs x * fabs x)%flt.
Proof.
  destruct x as [| [] | q]; try reflexivity.
  cbn [fabs F.mul F.fin]. apply fin_eq. rewrite Qred_correct.
  rewrite <- Qabs_Qmult. symmetry. apply Qabs_pos, sqr_nonneg.
Qed.

Lemma square_opp (x : float) : (F.opp x * F.opp x)%flt = (x * x)%flt.
Proof.
  destruct x as [| [] | q]; try reflexivity.
  cbn [F.opp F.mul F.fin]. apply fin_eq. rewrite Qred_correct. ring.
Qed.

Lemma fabs_not_neg (x : float) : F.is_neg (fabs x) = false.
Proof.
  destruct x as [| s | q]; try reflexivity.
  cbn [fabs F.fin F.is_neg]. apply Qltb_false. rewrite Qred_correct.
  apply Qabs_nonneg.
Qed.

Lemma square_not_neg (x : float) : F.is_neg (x * x)%flt = false.
Proof.
  destruct x as [| [] | q]; try reflexivity.
  cbn [F.mul F.fin F.is_neg]. apply Qltb_false. rewrite Qred_correct.
  apply sqr_nonneg.
Qed.

(** X10.  [abs] and [abs2], for every value including the infinities and
    NaN: [abs] is idempotent and does not see a sign; [abs2(x)] is the
    element-wise product of [abs(x)] with itself and does not see a sign
    either; no element of either result is negative. *)
Theorem abs_abs2 (v : Vector) :
  abs (abs v) = abs v /\
  abs (vneg v) = abs v /\
  abs2 v = vmul (abs v) (abs v) /\
  abs2 (vneg v) = abs2 v /\
  Forall (fun x => F.is_neg x = false) (abs v) /\
  Forall (fun x => F.is_neg x = false) (abs2 v).
Proof.
  unfold abs, abs2, vneg, vmul.
  induction v as [| x v (I1 & I2 & I3 & I4 & I5 & I6)]; [now repeat split |].
  cbn [map vzip].
  rewrite I1, I2, <- I3, I4, fabs_idempotent, fabs_opp, <- square_fabs,
    square_opp.
  repeat split; constructor; auto using fabs_not_neg, square_not_neg.
Qed.

(** ** Sums of squares *)

Lemma sums_of_squares (v : Vector) :
  forall acc : float,
    fold_left (fun ret x => (ret + x * x)%flt) v acc =
    inner_product_from acc v v /\
    fold_left (fun ret x => (ret + x * x)%flt) v acc =
    fold_left F.add (map (fun x => (x * x)%flt) v) acc.
Proof.
  induction v as [| x v IH]; intros acc; [now split |].
  cbn [fold_left inner_product_from map]. apply IH.
Qed.

Lemma squares_from (v : Vector) :
  finite v = true ->
  forall q0 : Q,
    exists q : Q,
      fold_left (fun ret x => (ret + x * x)%flt) v (F.Fin q0) = F.Fin q /\
      q0 <= q /\
      (q == q0 <-> forallb F.is_zero v = true).
Proof.
  induction v as [| [| s | p] v IH]; try discriminate; intros Hv q0.
  - exists q0. split; [reflexivity |]. split; [apply Qle_refl |].
    now split.
  - cbn in Hv. cbn [fold_left F.mul F.add F.fin].
    destruct (IH Hv (Qred (q0 + Qred (p * p)))) as (q & E & L & Z).
    rewrite !Qred_correct in L, Z.
    pose proof (sqr_nonneg p) as S.
    exists q. split; [exact E |]. split; [lra |].
    cbn [forallb F.is_zero]. rewrite andb_true_iff, <- Z, Qeq_bool_iff.
    split.
    + intros H. assert (p * p == 0) as P0 by lra.
      split; [| lra].
      destruct (Qmult_integral _ _ P0) as [P | P]; exact P.
    + intros [P H]. rewrite H, P. ring.
Qed.



(** ** Commutation *)

Lemma add_comm (x y : float) : (x + y)%flt = (y + x)%flt.
Proof.
  destruct x as [| [] | p], y as [| [] | q]; try reflexivity.
  cbn [F.add]. apply fin_eq. ring.
Qed.

Lemma mul_comm (x y : float) : (x * y)%flt = (y * x)%flt.
Proof.
  destruct x as [| a | p], y as [| b | q]; try reflexivity; cbn.
  - now destruct a, b.
  - now destruct (Qeq_bool q 0), a, (F.Qltb q 0).
  - now destruct (Qeq_bool p 0), b, (F.Qltb p 0).
  - apply fin_eq. ring.
Qed.

(** X12.  Addition and multiplication commute in each of their forms, for
    every value including the infinities and NaN: scalar with vector
    ([k + v], [v + k], [k * v], [v * k]) and vector with vector. *)
Theorem operators_commute (k : float) (a b : Vector) :
  sadd k a = vadds a k /\ vscale k a = vmuls a k /\
  vadd a b = vadd b a /\ vmul a b = vmul b a.
Proof.
  unfold sadd, vadds, vscale, vmuls, vadd, vmul. repeat split.
  - apply map_ext. intros x. apply add_comm.
  - apply map_ext. intros x. apply mul_comm.
  - revert b. induction a as [| x a IH]; intros [| y b]; try reflexivity.
    cbn. now rewrite IH, add_comm.
  - revert b. induction a as [| x a IH]; intros [| y b]; try reflexivity.
    cbn. now rewrite IH, mul_comm.
Qed.

(** ** The accuracy of round_off *)

Lemma round_off_nth (x : Vector) (n : Z) :
  forall (y : Vector) (i : nat) (v : float),
    round_off x n = Some y -> nth_error x i = Some v ->
    exists r : float, nth_error y i = Some r /\ round_off_elem v n = Some r.
Proof.
  induction x as [| a x IH]; intros y i v Hy Hi.
  - now destruct i.
  - apply round_off_cons_inv in Hy. destruct Hy as (r & rs & -> & Hr & Hrs).
    destruct i as [| i]; cbn in Hi |- *.
    + injection Hi as <-. now exists r.
    + now apply IH.
Qed.

Lemma tp_inverse (j : Z) : tp j * tp (- j) == 1.
Proof. rewrite <- tp_add, Z.add_opp_diag_r. apply tp_0. Qed.

(** The rounded value lies on the grid of step [10^(k-n)], within half a
    step of [q]. *)
Lemma rnd_error (q : Q) (n k : Z) :
  rnd q n k * tp (n - k) == inject_Z (Qfloor (q * tp (n - k) + (1 # 2))) /\
  q - (1 # 2) * tp (k - n) < rnd q n k /\
  rnd q n k <= q + (1 # 2) * tp (k - n).
Proof.
  unfold rnd. set (D := tp (n - k)). set (e := tp (k - n)).
  set (m := Qfloor (q * D + (1 # 2))).
  assert (HD : 0 < D) by apply tp_pos.
  assert (He : 0 < e) by apply tp_pos.
  assert (HDe : D * e == 1).
  { unfold D, e. replace (k - n)%Z with (- (n - k))%Z by lia.
    apply tp_inverse. }
  destruct (floor_bounds (q * D + (1 # 2))) as [Hm1 Hm2]. fold m in Hm1, Hm2.
  assert (Er : inject_Z m / D == inject_Z m * e).
  { apply Qmult_inj_r with D; [lra |].
    transitivity (inject_Z m); [field; lra |].
    transitivity (inject_Z m * (D * e)); [rewrite HDe; ring | ring]. }
  assert (Eq : q * D * e == q)
    by (transitivity (q * (D * e)); [ring | rewrite HDe; ring]).
  split; [field; lra |]. rewrite Er.
  assert (L1 : inject_Z m * e <= (q * D + (1 # 2)) * e)
    by (apply Qmult_le_compat_r; lra).
  assert (L2 : (q * D + (1 # 2)) * e < (inject_Z m + 1) * e)
    by (apply Qmult_lt_compat_r; lra).
  split; lra.
Qed.



(** ** round_off keeps the order *)

Lemma digits_monotone (p q : Q) (j k : Z) :
  p <= q -> digits p j -> digits q k -> (j <= k)%Z.
Proof.
  intros Hpq (Hj0 & Hj1 & Hj2) (Hk0 & Hk1 & Hk2).
  destruct (Z.le_gt_cases j k) as [L | G]; [exact L |].
  destruct Hj2 as [-> | Hj2]; [lia |].
  pose proof (@tp_le k (j - 1) ltac:(lia)). lra.
Qed.

(** With [n >= 1], a value with [k] digits is rounded into
    [[10^(k-1), 10^k]]. *)
Lemma rnd_range (q : Q) (n k : Z) :
  (1 <= n)%Z -> digits q k ->
  rnd q n k <= tp k /\ (k = 0%Z \/ tp (k - 1) <= rnd q n k).
Proof.
  intros Hn (Hk0 & Hlt & Hge).
  unfold rnd. set (D := tp (n - k)). set (m := Qfloor (q * D + (1 # 2))).
  assert (HD : 0 < D) by apply tp_pos.
  destruct (floor_bounds (q * D + (1 # 2))) as [Hm1 Hm2]. fold m in Hm1, Hm2.
  assert (En : tp n == tp k * D)
    by (unfold D; rewrite <- tp_add; now replace (k + (n - k))%Z with n by lia).
  split.
  - assert (HqD : q * D < tp n)
      by (rewrite En; apply Qmult_lt_compat_r; assumption).
    rewrite (tp_int (k := n)) in HqD by lia.
    assert (HmT : (m <= 10 ^ n)%Z).
    { assert (H : inject_Z m < inject_Z (10 ^ n + 1)).
      { rewrite inject_Z_plus. change (inject_Z 1) with 1%Q. lra. }
      rewrite <- Zlt_Qlt in H. lia. }
    apply Qle_shift_div_r; [exact HD |].
    rewrite <- En, (tp_int (k := n)) by lia. now rewrite <- Zle_Qle.
  - destruct Hge as [-> | Hge]; [now left | right].
    apply Qle_shift_div_l; [exact HD |].
    assert (E : tp (k - 1) * D == inject_Z (10 ^ (n - 1))).
    { unfold D. rewrite <- tp_add, <- tp_int by lia.
      now replace (k - 1 + (n - k))%Z with (n - 1)%Z by lia. }
    rewrite E. rewrite <- Zle_Qle.
    assert (Hq : inject_Z (10 ^ (n - 1)) <= q * D).
    { rewrite <- E. apply Qmult_le_compat_r; [exact Hge | lra]. }
    assert (Hf : (Qfloor (inject_Z (10 ^ (n - 1))) <= m)%Z)
      by (apply Qfloor_resp_le; lra).
    now rewrite Qfloor_Z in Hf.
Qed.

Lemma rnd_monotone (p q : Q) (n j k : Z) :
  (1 <= n)%Z -> p <= q -> digits p j -> digits q k ->
  rnd p n j <= rnd q n k.
Proof.
  intros Hn Hpq Hj Hk.
  pose proof (digits_monotone Hpq Hj Hk) as Hjk.
  destruct (Z.eq_dec j k) as [-> | Hne].
  - unfold rnd. pose proof (tp_pos (n - k)) as HD.
    apply Qle_shift_div_l; [exact HD |].
    assert (E : inject_Z (Qfloor (p * tp (n - k) + (1 # 2))) / tp (n - k)
                * tp (n - k)
                == inject_Z (Qfloor (p * tp (n - k) + (1 # 2))))
      by (field; lra).
    rewrite E, <- Zle_Qle. apply Qfloor_resp_le.
    assert (p * tp (n - k) <= q * tp (n - k))
      by (apply Qmult_le_compat_r; lra).
    lra.
  - destruct (rnd_range Hn Hj) as [U _].
    destruct (rnd_range Hn Hk) as [_ [Z0 | L]];
      [destruct Hj as (? & _); lia |].
    pose proof (@tp_le j (k - 1) ltac:(lia)). lra.
Qed.

Lemma round_off_elem_monotone (p q : Q) (n : Z) :
  (1 <= n)%Z -> p <= q ->
  exists r s : Q,
    round_off_elem (F.Fin p) n = Some (F.Fin r) /\
    round_off_elem (F.Fin q) n = Some (F.Fin s) /\ r <= s.
Proof.
  intros Hn Hpq.
  destruct (digits_total p) as (j & _ & Hj).
  destruct (digits_total q) as (k & _ & Hk).
  exists (Qred (rnd p n (Z.of_nat j))), (Qred (rnd q n (Z.of_nat k))).
  split; [apply (round_off_elem_fin n Hj) |].
  split; [apply (round_off_elem_fin n Hk) |].
  rewrite !Qred_correct. now apply rnd_monotone.
Qed.



(** ** normalize *)

Section Normalize.

Variable sqrt : float -> float.

Lemma squares_of_zeros (v : Vector) :
  finite v = true -> forallb F.is_zero v = true ->
  fold_left (fun ret x => (ret + x * x)%flt) v F.zero = F.zero.
Proof.
  induction v as [| [| s | p] v IH]; try discriminate; [reflexivity |].
  cbn [finite forallb F.is_finite F.is_zero andb fold_left].
  intros Hf Hz. apply andb_prop in Hz as [Hp Hz].
  apply Qeq_bool_iff in Hp.
  assert ((F.zero + F.Fin p * F.Fin p)%flt = F.zero) as ->; [| now apply IH].
  change F.zero with (F.fin 0) at 2.
  unfold F.zero, F.of_Z. cbn [F.mul F.add F.fin]. apply fin_eq.
  rewrite Qred_correct, Hp. reflexivity.
Qed.

Lemma zero_over_zero (v : Vector) :
  finite v = true -> forallb F.is_zero v = true ->
  map (fun x => (x / F.zero)%flt) v = repeat F.NaN (length v).
Proof.
  induction v as [| [| s | p] v IH]; try discriminate; [reflexivity |].
  cbn [finite forallb F.is_finite F.is_zero andb map length repeat].
  intros Hf Hz. apply andb_prop in Hz as [Hp Hz].
  rewrite (IH Hf Hz). f_equal. cbn. now rewrite Hp.
Qed.

(** X15.  [normalize] on the zero vector.  [sqrt(0)] being 0, the norm of a
    vector of zeros is 0, every element is divided by it, and every
    element of the result is NaN. *)
Theorem normalize_zero_vector (v : Vector) :
  sqrt F.zero = F.zero ->
  finite v = true -> forallb F.is_zero v = true ->
  normalize sqrt v = repeat F.NaN (length v).
Proof.
  intros Hs Hf Hz. unfold normalize, norm, squaredNorm.
  rewrite (squares_of_zeros v Hf Hz), Hs. now apply zero_over_zero.
Qed.

Lemma squares_scaled (n : Q) (v : Vector) :
  ~ n == 0 -> finite v = true ->
  forall a b : Q,
    exists a' b' s : Q,
      fold_left (fun ret x => (ret + x * x)%flt) v (F.Fin b) = F.Fin b' /\
      fold_left (fun ret x => (ret + x * x)%flt)
        (map (fun x => (x / F.Fin n)%flt) v) (F.Fin a) = F.Fin a' /\
      b' == b + s /\ a' == a + s / (n * n).
Proof.
  intros Hn. induction v as [| [| s | p] v IH]; try discriminate;
    intros Hf a b.
  - exists a, b, 0. repeat split; try reflexivity; [ring | field; exact Hn].
  - cbn [map fold_left F.div]. rewrite (Qeq_bool_false Hn).
    cbn [F.mul F.add F.fin].
    destruct (IH Hf (Qred (a + Qred (Qred (p / n) * Qred (p / n))))
                 (Qred (b + Qred (p * p))))
      as (a' & b' & s & Eb & Ea & Hb & Ha).
    exists a', b', (p * p + s). split; [exact Eb |]. split; [exact Ea |].
    rewrite !Qred_correct in Hb, Ha. split.
    + rewrite Hb, ?Qred_correct. ring.
    + rewrite Ha, ?Qred_correct. field. exact Hn.
Qed.


End Normalize.

Lemma normalize_zero_vector_witness :
  normalize (fun x => x) [F.of_Z 0; F.of_Z 0] = repeat F.NaN 2.
Proof.
  apply (@normalize_zero_vector (fun x => x) [F.of_Z 0; F.of_Z 0]);
    reflexivity.
Defined.


(** ** The series of an axis *)

Section SeriesFacts.

Context {Plot1D Transform RGBA : Type}.
Context {plots : Plot1D_interface Plot1D Transform RGBA}.

Lemma plot_nth (m_children : list Plot1D) (i : nat) :
  plot m_children (Z.of_nat i) = of_option Thrown (nth_error m_children i).
Proof.
  unfold plot. destruct (Z.ltb_spec (Z.of_nat i) 0) as [H | H]; [lia |].
  now rewrite Nat2Z.id.
Qed.

Lemma plot_impl_inv (a : Axis) (m_children m_children' : list Plot1D)
    (p p' : Plot1D) (t : Transform) (v : DataWithAesthetic) :
  plot_impl a m_children p t v = Ok (p', m_children') ->
  exists c : RGBA,
    nth_error defaults (length m_children) = Some c /\
    p' = prepared a p t v c /\ m_children' = m_children ++ [p'].
Proof.
  unfold plot_impl.
  destruct (nth_error defaults (length m_children)) as [c |]; [| discriminate].
  cbn. intros [= <- <-]. now exists c.
Qed.

(** X17.  [plot_impl] registers the series it is given: the series it
    returns went through [set_transform], [add_frame] at time 0,
    [set_color] with the palette entry numbered by the count of children
    before the call, and [resize] to the viewport; there is one child more;
    [plot] finds the new series at the index that was the count of
    children, and every series found before is still found at its index;
    [plot] throws exactly at the indices that are negative or beyond the
    new series. *)
Theorem plot_impl_registers (a : Axis) (m_children m_children' : list Plot1D)
    (p p' : Plot1D) (t : Transform) (v : DataWithAesthetic) :
  plot_impl a m_children p t v = Ok (p', m_children') ->
  (exists c : RGBA,
      nth_error defaults (length m_children) = Some c /\
      p' = prepared a p t v c) /\
  length m_children' = S (length m_children) /\
  plot m_children' (Z.of_nat (length m_children)) = Ok p' /\
  (forall n q, plot m_children n = Ok q -> plot m_children' n = Ok q) /\
  (forall n, plot m_children' n = Fault Thrown <->
             (n < 0 \/ Z.of_nat (length m_children) < n)%Z).
Proof.
  intros H. destruct (plot_impl_inv _ _ _ _ _ H) as (c & Hc & -> & ->).
  split; [now exists c |]. split; [rewrite length_app; cbn; lia |].
  split; [| split].
  - rewrite plot_nth, nth_error_app2, Nat.sub_diag by lia. reflexivity.
  - intros n q. unfold plot. destruct (n <? 0)%Z; [discriminate |].
    destruct (nth_error m_children (Z.to_nat n)) as [q' |] eqn:E;
      [| discriminate].
    intros [= <-]. rewrite nth_error_app1; [now rewrite E |].
    apply nth_error_Some. congruence.
  - intros n. unfold plot. destruct (Z.ltb_spec n 0) as [N | N].
    + split; [now left | reflexivity].
    + destruct (nth_error _ (Z.to_nat n)) as [q |] eqn:E; cbn.
      * split; [discriminate |]. intros [L | L]; [lia |].
        assert (Z.to_nat n < length (m_children ++ [prepared a p t v c]))%nat
          as B by (apply nth_error_Some; congruence).
        rewrite length_app in B. cbn in B. lia.
      * split; [| reflexivity]. intros _. right.
        apply nth_error_None in E. rewrite length_app in E. cbn in E. lia.
Qed.

Lemma register_from (a : Axis)
    (calls : list (Plot1D * Transform * DataWithAesthetic)) :
  forall m_children : list Plot1D,
    match register a m_children calls with
    | Ok m_children' =>
        (calls = [] \/
         (length m_children + length calls <= length defaults)%nat) /\
        length m_children' = (length m_children + length calls)%nat /\
        (forall i q, nth_error m_children i = Some q ->
                     nth_error m_children' i = Some q) /\
        (forall i p t v,
            nth_error calls i = Some (p, t, v) ->
            exists c : RGBA,
              nth_error defaults (length m_children + i) = Some c /\
              nth_error m_children' (length m_children + i) =
              Some (prepared a p t v c))
    | Fault f =>
        f = OutOfBounds /\
        (length defaults < length m_children + length calls)%nat
    end.
Proof.
  induction calls as [| [[p t] v] rest IH]; intros ch; cbn [register].
  - split; [now left |]. split; [cbn; lia |]. split; [auto |].
    intros [| i] ? ? ? [=].
  - unfold plot_impl.
    destruct (nth_error defaults (length ch)) as [c |] eqn:Hc; cbn.
    + fold (prepared a p t v c).
      assert (length ch < length defaults)%nat as Hlt
        by (apply nth_error_Some; congruence).
      specialize (IH (ch ++ [prepared a p t v c])).
      destruct (register a (ch ++ [prepared a p t v c]) rest) as [ch' | f].
      * destruct IH as (B & L & K & N). rewrite length_app in B, L, N.
        cbn [length] in B, L, N.
        split; [right; destruct B as [-> | B]; cbn; lia |].
        split; [lia |]. split.
        -- intros i q Hi. apply K. rewrite nth_error_app1; [exact Hi |].
           apply nth_error_Some. congruence.
        -- intros [| i] p0 t0 v0 Hi; cbn in Hi.
           ++ injection Hi as <- <- <-. exists c.
              rewrite Nat.add_0_r. split; [exact Hc |].
              apply K. now rewrite nth_error_app2, Nat.sub_diag by lia.
           ++ destruct (N i p0 t0 v0 Hi) as (c0 & D0 & E0).
              exists c0.
              replace (length ch + S i)%nat with (length ch + 1 + i)%nat
                by lia.
              now split.
      * destruct IH as [-> B]. rewrite length_app in B. cbn [length] in B.
        split; [reflexivity | lia].
    + apply nth_error_None in Hc. split; [reflexivity | lia].
Qed.

(** X18.  Registering series one after the other on an axis without
    children.  When the palette has a color for each, every call of
    [plot_impl] succeeds, [plot(i)] returns the series of the [i]-th call,
    and that series was given the [i]-th color of the palette.  When there
    are more calls than colors, the call that follows the last color reads
    the palette past its end. *)
Theorem registration_order (a : Axis)
    (calls : list (Plot1D * Transform * DataWithAesthetic)) :
  match register a [] calls with
  | Ok m_children =>
      (length calls <= length defaults)%nat /\
      length m_children = length calls /\
      forall i p t v,
        nth_error calls i = Some (p, t, v) ->
        exists c : RGBA,
          nth_error defaults i = Some c /\
          plot m_children (Z.of_nat i) = Ok (prepared a p t v c)
  | Fault f => f = OutOfBounds /\ (length defaults < length calls)%nat
  end.
Proof.
  pose proof (register_from a calls []) as H.
  destruct (register a [] calls) as [ch' | f]; [| exact H].
  destruct H as (B & L & _ & N). cbn in B, L.
  split; [destruct B as [-> | B]; [cbn |]; lia |]. split; [exact L |].
  intros i p t v Hi. destruct (N i p t v Hi) as (c & Hc & Hp).
  exists c. split; [exact Hc |]. rewrite plot_nth. cbn in Hp. now rewrite Hp.
Qed.

End SeriesFacts.

Lemma plot_impl_registers_witness :
  (exists c : nat,
      nth_error defaults (length [[SetColor 10]]) = Some c /\
      [SetTransform 7; AddFrame (xy_frame [1]%Z [2]%Z) (F.of_Z 0);
       SetColor 20; Resize (box2 0 0 100 100)] =
      prepared unit_axis [] 7%nat (xy_frame [1]%Z [2]%Z) c) /\
  length [[SetColor 10];
          [SetTransform 7; AddFrame (xy_frame [1]%Z [2]%Z) (F.of_Z 0);
           SetColor 20; Resize (box2 0 0 100 100)]] =
  S (length [[SetColor 10]]) /\
  plot [[SetColor 10];
        [SetTransform 7; AddFrame (xy_frame [1]%Z [2]%Z) (F.of_Z 0);
         SetColor 20; Resize (box2 0 0 100 100)]]
       (Z.of_nat (length [[SetColor 10]])) =
  Ok [SetTransform 7; AddFrame (xy_frame [1]%Z [2]%Z) (F.of_Z 0);
      SetColor 20; Resize (box2 0 0 100 100)] /\
  (forall n q,
      plot [[SetColor 10]] n = Ok q ->
      plot [[SetColor 10];
            [SetTransform 7; AddFrame (xy_frame [1]%Z [2]%Z) (F.of_Z 0);
             SetColor 20; Resize (box2 0 0 100 100)]] n = Ok q) /\
  (forall n,
      plot [[SetColor 10];
            [SetTransform 7; AddFrame (xy_frame [1]%Z [2]%Z) (F.of_Z 0);
             SetColor 20; Resize (box2 0 0 100 100)]] n = Fault Thrown <->
      (n < 0 \/ Z.of_nat (length [[SetColor 10]]) < n)%Z).
Proof.
  apply (@plot_impl_registers _ _ _ recording_plots unit_axis
           [[SetColor 10]] _ [] _ 7%nat (xy_frame [1]%Z [2]%Z)).
  reflexivity.
Defined.

(** ** What update_tick_information returns *)

Lemma ticks_from_length (op : float -> float -> float) (count : nat) :
  forall (i : Z) (start step : float),
    length (ticks_from op count i start step) = count.
Proof.
  induction count as [| c IH]; intros i start step; [reflexivity |].
  cbn. now rewrite IH.
Qed.

Lemma ticks_from_nth (op : float -> float -> float) (count : nat) :
  forall (i : Z) (start step : float) (j : nat) (v : float),
    nth_error (ticks_from op count i start step) j = Some v ->
    v = op start (F.of_Z (i + Z.of_nat j) * step)%flt.
Proof.
  induction count as [| c IH]; intros i start step j v H.
  - now destruct j.
  - destruct j as [| j]; cbn in H.
    + injection H as <-. now rewrite Z.add_0_r.
    + apply IH in H. rewrite H. do 3 f_equal. lia.
Qed.

Lemma calculate_num_ticks_two (a : Axis) :
  exists n0 n1 : float, calculate_num_ticks a = [n0; n1].
Proof.
  unfold calculate_num_ticks.
  destruct ((0 <? m_nx_ticks a)%Z && (0 <? m_ny_ticks a)%Z);
    [now eexists; eexists |].
  destruct (0 <? m_nx_ticks a)%Z; [now eexists; eexists |].
  destruct (0 <? m_ny_ticks a)%Z; now eexists; eexists.
Qed.

(** After the substitution no range is inverted, and finite limits are
    still finite. *)
Lemma tick_limits_two (a : Axis) :
  exists lo0 lo1 hi0 hi1 : float,
    tick_limits a = {| bmin := [lo0; lo1]; bmax := [hi0; hi1] |} /\
    F.ltb hi0 lo0 = false /\ F.ltb hi1 lo1 = false /\
    (F.is_finite (vget (bmin (m_limits a)) 0) = true ->
     F.is_finite (vget (bmax (m_limits a)) 0) = true ->
     F.is_finite lo0 = true /\ F.is_finite hi0 = true) /\
    (F.is_finite (vget (bmin (m_limits a)) 1) = true ->
     F.is_finite (vget (bmax (m_limits a)) 1) = true ->
     F.is_finite lo1 = true /\ F.is_finite hi1 = true).
Proof.
  unfold tick_limits. cbn [Aesthetic.index].
  set (x0 := vget (bmin (m_limits a)) 0).
  set (y0 := vget (bmin (m_limits a)) 1).
  set (x1 := vget (bmax (m_limits a)) 0).
  set (y1 := vget (bmax (m_limits a)) 1).
  unfold default_if_empty at 2. cbn [bmin bmax vget nth vset].
  destruct (F.ltb x1 x0) eqn:X;
    unfold default_if_empty; cbn [bmin bmax vget nth vset];
    destruct (F.ltb y1 y0) eqn:Y; cbn [bmin bmax vget nth vset];
    do 4 eexists; (split; [reflexivity |]);
    repeat split; solve [assumption | reflexivity].
Qed.

Lemma to_int_of_Z (z : Z) :
  (F.int_min <= z <= F.int_max)%Z -> F.to_int (F.of_Z z) = Some z.
Proof.
  intros [L U]. unfold F.to_int, F.of_Z, F.truncate.
  rewrite Qfloor_Z, Qceiling_Z.
  destruct (Qle_bool 0 (inject_Z z));
    now rewrite (proj2 (Z.leb_le _ _) L), (proj2 (Z.leb_le _ _) U).
Qed.

(** A tick count that casts to a positive [int] is a finite number, at
    least 1. *)
Lemma to_int_positive (n : float) (nx : Z) :
  F.to_int n = Some nx -> (1 <= nx)%Z -> exists qn : Q, n = F.Fin qn /\ 1 <= qn.
Proof.
  destruct n as [| s | qn]; try discriminate.
  unfold F.to_int, F.truncate. intros H Hn. exists qn. split; [reflexivity |].
  destruct (_ && _); [| discriminate]. injection H as H.
  destruct (Qle_bool 0 qn) eqn:S.
  - pose proof (Qfloor_le qn) as L.
    assert (inject_Z 1 <= inject_Z (Qfloor qn)) by (rewrite <- Zle_Qle; lia).
    change (inject_Z 1) with 1 in *. lra.
  - assert (~ 0 <= qn) as N by (rewrite <- Qle_bool_iff; congruence).
    pose proof (Qceiling_lt qn) as L.
    assert (inject_Z 0 <= inject_Z (Qceiling qn - 1))
      by (rewrite <- Zle_Qle; lia).
    change (inject_Z 0) with 0 in *. lra.
Qed.

Lemma rnd_nonneg (q : Q) (n k : Z) : 0 <= q -> 0 <= rnd q n k.
Proof.
  intros Hq. unfold rnd. pose proof (tp_pos (n - k)) as HD.
  apply Qle_shift_div_l; [exact HD |]. rewrite Qmult_0_l.
  change 0 with (inject_Z 0). rewrite <- Zle_Qle.
  rewrite <- (Qfloor_Z 0). apply Qfloor_resp_le.
  assert (0 <= q * tp (n - k)) by (apply Qmult_le_0_compat; lra).
  change (inject_Z 0) with 0. lra.
Qed.

(** The spacing of a range that is not inverted, over a count of at least
    one, is not negative once rounded, when it is a number at all. *)
Lemma spacing_nonneg (lo : Q) (hi n d : float) (sig : Z) (qn : Q) :
  F.ltb hi (F.Fin lo) = false -> n = F.Fin qn -> 1 <= qn ->
  round_off_elem ((hi - F.Fin lo) / n)%flt sig = Some d ->
  forall qd : Q, d = F.Fin qd -> 0 <= qd.
Proof.
  intros Hlt -> Hqn Hr qd ->.
  destruct hi as [| [] | qhi]; try discriminate.
  - cbn in Hr. rewrite Qltb_false in Hr by lra.
    now rewrite round_off_elem_pos_inf in Hr.
  - assert (lo <= qhi) as L.
    { destruct (Qlt_le_dec qhi lo) as [C | C]; [| exact C].
      apply ltb_fin in C. congruence. }
    cbn [F.sub F.opp F.add F.div F.fin] in Hr.
    rewrite Qeq_bool_false in Hr by lra.
    destruct (digits_total (Qred (Qred (qhi + Qred (- lo)) / qn)))
      as (k & _ & Hk).
    unfold F.fin in Hr. rewrite (round_off_elem_fin sig Hk) in Hr.
    unfold F.fin in Hr.
    assert (qd = Qred (rnd (Qred (Qred (qhi + Qred (- lo)) / qn)) sig
                         (Z.of_nat k))) as -> by congruence.
    rewrite Qred_correct. apply rnd_nonneg.
    rewrite !Qred_correct.
    apply Qle_shift_div_l; lra.
Qed.

(** One line of ticks, as the two loops compute it. *)
Lemma tick_line (lo hi n d : float) (sig nx : Z) (t0 : Q) :
  F.ltb hi lo = false ->
  round_off_elem ((hi - lo) / n)%flt sig = Some d ->
  F.to_int n = Some nx -> (1 <= nx)%Z ->
  (F.ceil (lo / d) * d + F.of_Z 0 * d)%flt = F.Fin t0 ->
  exists (qlo qd : Q) (z : Z),
    lo = F.Fin qlo /\ 0 < qd /\
    t0 == inject_Z z * qd /\ qlo <= t0 /\ t0 < qlo + qd /\
    forall i : Z,
      exists ti : Q,
        (F.ceil (lo / d) * d + F.of_Z i * d)%flt = F.Fin ti /\
        ti == t0 + inject_Z i * qd.
Proof.
  intros Hlt Hr Hn Hnx Ht.
  destruct (to_int_positive n Hn Hnx) as (qn & En & Hqn).
  destruct d as [| sd | qd].
  { now destruct (F.ceil (lo / F.NaN) * F.NaN)%flt. }
  { now destruct (F.ceil (lo / F.Inf sd) * F.Inf sd)%flt. }
  destruct lo as [| slo | qlo].
  { discriminate. }
  { cbn in Ht. destruct (Qeq_bool qd 0), (xorb slo (F.Qltb qd 0));
      discriminate. }
  pose proof (@spacing_nonneg qlo hi n (F.Fin qd) sig qn Hlt En Hqn Hr qd
                eq_refl) as Hd0.
  destruct (Qeq_bool qd 0) eqn:Z0.
  { cbn in Ht. rewrite Z0 in Ht. cbn in Ht.
    destruct (Qeq_bool qlo 0); cbn in Ht; [discriminate |].
    rewrite Z0 in Ht. discriminate. }
  assert (~ qd == 0) as Hd1 by (rewrite <- Qeq_bool_iff; congruence).
  assert (0 < qd) as Hd by lra.
  set (z := Qceiling (Qred (qlo / qd))).
  assert (Eall : forall i : Z,
             (F.ceil (F.Fin qlo / F.Fin qd) * F.Fin qd
              + F.of_Z i * F.Fin qd)%flt
             = F.fin (inject_Z z * qd + inject_Z i * qd)).
  { intros i. cbn [F.div]. rewrite Z0.
    cbn [F.ceil F.fin F.of_Z F.mul F.add]. fold z.
    apply fin_eq. now rewrite !Qred_correct. }
  pose proof (Eall 0%Z) as E0. rewrite Ht in E0. unfold F.fin in E0.
  assert (T0 : t0 == inject_Z z * qd).
  { assert (t0 = Qred (inject_Z z * qd + inject_Z 0 * qd)) as ->
      by congruence.
    rewrite Qred_correct. change (inject_Z 0) with 0. ring. }
  pose proof (Qle_ceiling (Qred (qlo / qd))) as C1.
  pose proof (Qceiling_lt (Qred (qlo / qd))) as C2.
  fold z in C1, C2. rewrite Qred_correct in C1, C2.
  unfold Z.sub in C2. rewrite inject_Z_plus in C2.
  change (inject_Z (- (1))) with (- (1))%Q in C2.
  assert (Eq : qlo / qd * qd == qlo) by (field; exact Hd1).
  assert (M1 : qlo / qd * qd <= inject_Z z * qd)
    by (apply Qmult_le_compat_r; lra).
  assert (M2 : (inject_Z z + - (1)) * qd < qlo / qd * qd)
    by (apply Qmult_lt_compat_r; lra).
  exists qlo, qd, z. split; [reflexivity |]. split; [exact Hd |].
  split; [exact T0 |]. split; [lra |]. split; [lra |].
  intros i. exists (Qred (inject_Z z * qd + inject_Z i * qd)).
  split; [apply Eall |]. rewrite Qred_correct, T0. reflexivity.
Qed.

Lemma tick_line_on_grid (lo hi n d : float) (sig nx : Z) :
  F.ltb hi lo = false ->
  round_off_elem ((hi - lo) / n)%flt sig = Some d ->
  F.to_int n = Some nx ->
  on_grid lo (ticks_from F.add (Z.to_nat nx) 0 (F.ceil (lo / d) * d)%flt d).
Proof.
  intros Hlt Hr Hn t0 rest Ht.
  assert (1 <= nx)%Z as Hnx.
  { destruct (Z.to_nat nx) eqn:E; [discriminate | lia]. }
  assert ((F.ceil (lo / d) * d + F.of_Z 0 * d)%flt = F.Fin t0) as H0.
  { symmetry. apply (@ticks_from_nth F.add (Z.to_nat nx) 0 _ d 0).
    now rewrite Ht. }
  destruct (@tick_line lo hi n d sig nx t0 Hlt Hr Hn Hnx H0)
    as (qlo & qd & z & E1 & E2 & E3 & E4 & E5 & E6).
  exists qlo, qd, z. repeat (split; [assumption |]).
  intros i v Hi. apply ticks_from_nth in Hi. rewrite Z.add_0_l in Hi.
  destruct (E6 (Z.of_nat i)) as (ti & Eti & Hti).
  exists ti. split; [congruence | exact Hti].
Qed.

Section TickOutcomes.

Variable to_display : Aesthetic.t -> Axis -> float -> float.

(** What is known of a run that returns. *)
Lemma update_tick_information_inv (a a' : Axis) :
  update_tick_information to_display a = Ok a' ->
  exists (lo0 lo1 hi0 hi1 n0 n1 d0 d1 : float) (nx ny : Z),
    tick_limits a = {| bmin := [lo0; lo1]; bmax := [hi0; hi1] |} /\
    F.ltb hi0 lo0 = false /\ F.ltb hi1 lo1 = false /\
    calculate_num_ticks a = [n0; n1] /\
    round_off_elem ((hi0 - lo0) / n0)%flt (m_sig_digits a) = Some d0 /\
    round_off_elem ((hi1 - lo1) / n1)%flt (m_sig_digits a) = Some d1 /\
    F.to_int n0 = Some nx /\ F.to_int n1 = Some ny /\
    x_val (m_tick_info a') =
    ticks_from F.add (Z.to_nat nx) 0 (F.ceil (lo0 / d0) * d0)%flt d0 /\
    y_val (m_tick_info a') =
    ticks_from F.add (Z.to_nat ny) 0 (F.ceil (lo1 / d1) * d1)%flt d1.
Proof.
  unfold update_tick_information. fold (tick_limits a).
  destruct (tick_limits_two a) as (lo0 & lo1 & hi0 & hi1 & -> & L0 & L1 & _).
  destruct (calculate_num_ticks_two a) as (n0 & n1 & ->).
  unfold delta. cbn [bmin bmax vsub vdiv vzip].
  destruct (round_off _ _) as [tick_dx |] eqn:R; [| discriminate].
  apply round_off_cons_inv in R. destruct R as (d0 & rs & -> & R0 & R).
  apply round_off_cons_inv in R. destruct R as (d1 & rs' & -> & R1 & R).
  cbn in R. injection R as <-.
  cbn [of_option rbind vget nth].
  destruct (F.to_int n0) as [nx |] eqn:N0; [| discriminate].
  destruct (F.to_int n1) as [ny |] eqn:N1; [| discriminate].
  cbn [of_option rbind]. intros [= <-].
  exists lo0, lo1, hi0, hi1, n0, n1, d0, d1, nx, ny.
  repeat split; solve [assumption | reflexivity].
Qed.



Lemma to_int_floor (q : Q) :
  1 <= q -> q <= inject_Z F.int_max -> F.to_int (F.Fin q) = Some (Qfloor q).
Proof.
  intros L U. unfold F.to_int, F.truncate.
  rewrite (proj2 (Qle_bool_iff 0 q)) by lra.
  assert (0 <= Qfloor q)%Z as P.
  { rewrite <- (Qfloor_Z 0). apply Qfloor_resp_le.
    change (inject_Z 0) with 0. lra. }
  assert (Qfloor q <= F.int_max)%Z as B.
  { rewrite <- (Qfloor_Z F.int_max). now apply Qfloor_resp_le. }
  rewrite (proj2 (Z.leb_le _ _) B).
  assert (F.int_min <= Qfloor q)%Z as A by (unfold F.int_min; lia).
  now rewrite (proj2 (Z.leb_le _ _) A).
Qed.

Lemma spacing_finite (lo hi : float) (qn : Q) :
  F.is_finite lo = true -> F.is_finite hi = true -> 1 <= qn ->
  exists e : Q, ((hi - lo) / F.Fin qn)%flt = F.Fin e.
Proof.
  destruct lo as [| | qlo], hi as [| | qhi]; try discriminate.
  intros _ _ Hq. cbn [F.sub F.opp F.add F.div F.fin].
  rewrite Qeq_bool_false by lra. now eexists.
Qed.


Lemma spacing_over_inf (lo hi : float) (s : bool) :
  F.is_finite lo = true -> F.is_finite hi = true ->
  ((hi - lo) / F.Inf s)%flt = F.zero.
Proof. destruct lo as [| | qlo], hi as [| | qhi]; try discriminate. easy. Qed.


Hypothesis to_display_ignores_ticks :
  forall (c : Aesthetic.t) (ax : Axis) (ti : TickInfo) (v : float),
    to_display c (set_tick_info ax ti) v = to_display c ax v.

Lemma update_tick_information_fresh (a : Axis) (ti : TickInfo) :
  update_tick_information to_display (set_tick_info a ti) =
  update_tick_information to_display a.
Proof.
  unfold update_tick_information.
  change (calculate_num_ticks (set_tick_info a ti))
    with (calculate_num_ticks a).
  cbn [set_tick_info m_limits m_pixels m_sig_digits].
  destruct (of_option NonTermination _) as [tick_dx | f];
    [| reflexivity]. cbn [rbind].
  destruct (of_option UndefinedCast _) as [nx | f]; [| reflexivity].
  cbn [rbind].
  destruct (of_option UndefinedCast _) as [ny | f]; [| reflexivity].
  cbn [rbind]. now rewrite !to_display_ignores_ticks.
Qed.

(** X23.  [update_tick_information] starts from scratch.  When the axis
    transform does not read the tick information, the outcome does not
    depend on the tick information the axis held before, and running it
    again on the axis it returned returns the same axis. *)
Theorem update_tick_information_idempotent (a a' : Axis) (ti : TickInfo) :
  update_tick_information to_display (set_tick_info a ti) =
  update_tick_information to_display a /\
  (update_tick_information to_display a = Ok a' ->
   update_tick_information to_display a' = Ok a').
Proof.
  split; [apply update_tick_information_fresh |].
  intros H.
  assert (exists ti' : TickInfo, a' = set_tick_info a ti') as (ti' & E).
  { revert H. unfold update_tick_information.
    destruct (of_option NonTermination _) as [tick_dx | f];
      [| discriminate]. cbn [rbind].
    destruct (of_option UndefinedCast _) as [nx | f]; [| discriminate].
    cbn [rbind].
    destruct (of_option UndefinedCast _) as [ny | f]; [| discriminate].
    cbn [rbind]. intros [= <-]. now eexists. }
  rewrite E, update_tick_information_fresh, <- E. exact H.
Qed.

End TickOutcomes.



Lemma update_tick_information_idempotent_witness :
  update_tick_information plain_display (set_tick_info unit_axis no_ticks) =
  update_tick_information plain_display unit_axis /\
  update_tick_information plain_display unit_axis_ticks = Ok unit_axis_ticks.
Proof.
  destruct (@update_tick_information_idempotent plain_display
              ltac:(reflexivity) unit_axis unit_axis_ticks no_ticks)
    as [A B].
  split; [exact A | exact (B eq_refl)].
Defined.


(** ** Drawing one frame, and frames that do not fit *)

Section DrawingOneFrame.

Variable Color : Type.
Variable to_color : float -> Color.
Variable to_display : Aesthetic.t -> Axis -> float -> float.

Ltac read_at :=
  lazymatch goal with
  | |- yields (bind (deref ?it ?i) _) _ _ =>
      apply yields_quiet with (1 := @yields_deref Color it i ltac:(cbn [it_col]; lia));
      cbn [it_col]
  end.

Ltac open_at :=
  lazymatch goal with
  | |- yields (bind (frame_begin ?p ?f ?a) _) _ _ =>
      eapply yields_quiet;
      [eapply yields_frame_begin; [eassumption | eassumption] |]
  | |- yields (bind (ret _) _) _ _ => rewrite bind_ret_l
  end.

(** X24.  When the frame info has [w2 = 0] and the frame it names is
    usable, [draw_plot] sends [stroke_width(0)] and then, for each row of
    the first frame in turn, one [fill_color] and one [circle] at the axis
    transform of that row of the named frame: nothing is blended, and rows
    that the named frame has beyond the row count of the first frame are
    not drawn. *)
Theorem draw_plot_on_frame (p : Points) (first d : DataWithAesthetic) :
  F.eqb (w2 (m_frame_info p)) F.zero = true ->
  (0 <= frame_above (m_frame_info p))%Z ->
  nth_error (m_data p) 0 = Some first ->
  nth_error (m_data p) (Z.to_nat (frame_above (m_frame_info p))) = Some d ->
  frame_ok (rows first) d = true ->
  let calls :=
    stroke_width F.zero
    :: flat_map
         (fun i => circle_calls to_color (row_pixel to_display (m_axis p) d i))
         (seq 0 (rows first)) in
  yields (draw_plot to_color to_display p) calls tt /\
  length (filter is_circle calls) = rows first.
Proof.
  intros Hw Hf Hfirst Hd Hok calls.
  split; [| unfold calls; cbn [filter is_circle];
            now rewrite count_circles, length_seq].
  assert (Fd : @frame Color p (frame_above (m_frame_info p)) = ret d)
    by (apply frame_at; [lia | exact Hd]).
  unfold frame_ok in Hok.
  apply andb_prop in Hok as [Hok Hs]. apply andb_prop in Hok as [Hok Hc].
  apply andb_prop in Hok as [Hx Hy].
  apply column_ok_required in Hx as (x & Ex & Lx).
  apply column_ok_required in Hy as (y & Ey & Ly).
  pose proof (fun c => @column_ok_optional _ _ _ c Hc) as Lc.
  pose proof (fun c => @column_ok_optional _ _ _ c Hs) as Ls.
  unfold calls, draw_plot.
  apply yields_quiet with (1 := yields_check_aesthetic p _ Aesthetic.color Fd).
  apply yields_quiet with (1 := yields_check_aesthetic p _ Aesthetic.size Fd).
  apply yields_call; [reflexivity |].
  rewrite Hw.
  unfold circle_calls, row_pixel, value, has.
  rewrite Ex, Ey.
  destruct (column d Aesthetic.color) as [c |] eqn:Ec;
    destruct (column d Aesthetic.size) as [s |] eqn:Es;
    try specialize (Lc _ eq_refl); try specialize (Ls _ eq_refl);
    repeat open_at;
    (apply yields_all_rows with (1 := Hfirst);
     intros i Hi; repeat read_at;
     apply yields_call; [reflexivity |]; apply yields_emit; reflexivity).
Qed.

End DrawingOneFrame.

Lemma draw_plot_on_frame_witness :
  yields (draw_plot plain_color plain_display
            (series [xy_frame [1; 2]%Z [3; 4]%Z; xy_frame [5; 6; 9]%Z [7; 8; 9]%Z]
               {| frame_above := 1; w1 := F.one; w2 := F.zero |}))
    [stroke_width F.zero;
     fill_color (F.of_Z 0); circle (F.of_Z 5) (F.of_Z 7) (F.of_Z 1);
     fill_color (F.of_Z 0); circle (F.of_Z 6) (F.of_Z 8) (F.of_Z 1)] tt /\
  length (filter is_circle
            [stroke_width F.zero;
             fill_color (F.of_Z 0); circle (F.of_Z 5) (F.of_Z 7) (F.of_Z 1);
             fill_color (F.of_Z 0); circle (F.of_Z 6) (F.of_Z 8) (F.of_Z 1)])
  = 2%nat.
Proof.
  apply (@draw_plot_on_frame _ plain_color plain_display
           (series [xy_frame [1; 2]%Z [3; 4]%Z;
                    xy_frame [5; 6; 9]%Z [7; 8; 9]%Z]
              {| frame_above := 1; w1 := F.one; w2 := F.zero |})
           (xy_frame [1; 2]%Z [3; 4]%Z) (xy_frame [5; 6; 9]%Z [7; 8; 9]%Z));
    solve [reflexivity | cbn; lia].
Defined.

Section FramesThatDoNotFit.

Variable Color : Type.
Variable to_color : float -> Color.
Variable to_display : Aesthetic.t -> Axis -> float -> float.

Lemma stops_here {A B : Type} (m : M Color A) (k : A -> M Color B)
    (c : list (event Color)) (f : fault) :
  stops m c f -> stops (bind m k) c f.
Proof.
  unfold stops. destruct m as [tr r]. cbn [fst snd]. intros [-> Hc].
  now split.
Qed.

Lemma stops_after {A B : Type} (m : M Color A) (k : A -> M Color B)
    (c c' : list (event Color)) (a : A) (f : fault) :
  yields m c a -> stops (k a) c' f -> stops (bind m k) (c ++ c') f.
Proof.
  unfold yields, stops. intros [Hm Hc] [Hk Hc']. destruct m as [tr r].
  cbn [fst snd] in Hm, Hc. subst r.
  rewrite (bind_ok k eq_refl). cbn [fst snd]. split; [exact Hk |].
  now rewrite backend_calls_app, Hc, Hc'.
Qed.

Lemma stops_quiet {A B : Type} (m : M Color A) (k : A -> M Color B)
    (c : list (event Color)) (a : A) (f : fault) :
  yields m [] a -> stops (k a) c f -> stops (bind m k) c f.
Proof. intros H1 H2. exact (stops_after k H1 H2). Qed.

Lemma stops_call {B : Type} (e : event Color) (k : unit -> M Color B)
    (c : list (event Color)) (f : fault) :
  is_backend e = true -> stops (k tt) c f -> stops (bind (emit e) k) (e :: c) f.
Proof. intros He Hk. exact (stops_after k (yields_emit e He) Hk). Qed.

Lemma stops_frame_begin (p : Points) (f : Z) (a : Aesthetic.t)
    (d : DataWithAesthetic) :
  @frame Color p f = ret d -> column d a = None ->
  stops (@frame_begin Color p f a) [] Thrown.
Proof.
  intros H Hc. unfold frame_begin. rewrite H. cbn. rewrite Hc. now split.
Qed.

Lemma stops_frame (p : Points) (f : Z) :
  (f < 0 \/ Z.of_nat (length (m_data p)) <= f)%Z ->
  @frame Color p f = fail OutOfBounds.
Proof.
  intros H. unfold frame. destruct (Z.ltb_spec f 0) as [N | N];
    [reflexivity |].
  destruct (nth_error (m_data p) (Z.to_nat f)) eqn:E; [| reflexivity].
  assert (Z.to_nat f < length (m_data p))%nat
    by (apply nth_error_Some; congruence).
  lia.
Qed.

Lemma stops_deref (it : iterator) (i : nat) :
  (length (it_col it) <= i)%nat -> stops (@deref Color it i) [] OutOfBounds.
Proof.
  intros H. unfold deref. cbn.
  rewrite (proj2 (nth_error_None (it_col it) i) H). now split.
Qed.

(** A step of a run that stops: a column that is there is opened, a column
    that is not stops the run. *)
Ltac open_or_stop :=
  lazymatch goal with
  | |- stops (bind (frame_begin ?p ?f ?a) _) _ _ =>
      first
        [ eapply stops_quiet;
          [eapply yields_frame_begin; [eassumption | eassumption] |]
        | apply stops_here; eapply stops_frame_begin; eassumption ]
  | |- stops (bind (ret _) _) _ _ => rewrite bind_ret_l
  end.

(** X25.  Frames with different aesthetics, blended.  When the frame info
    has [w2 <> 0] and the frame it names maps color (or size) while the
    frame before does not, [draw_plot] ends with the exception of the
    missing channel, uncaught, after [stroke_width(0)] and before any
    point is drawn. *)
Theorem draw_plot_mismatched_aesthetics (p : Points)
    (d1 d0 : DataWithAesthetic) (a : Aesthetic.t) :
  F.eqb (w2 (m_frame_info p)) F.zero = false ->
  (1 <= frame_above (m_frame_info p))%Z ->
  nth_error (m_data p) (Z.to_nat (frame_above (m_frame_info p))) = Some d1 ->
  nth_error (m_data p) (Z.to_nat (frame_above (m_frame_info p) - 1)) = Some d0 ->
  a = Aesthetic.color \/ a = Aesthetic.size ->
  has d1 a = true -> has d0 a = false ->
  stops (draw_plot to_color to_display p) [stroke_width F.zero] Thrown.
Proof.
  intros Hw Hf H1 H0 Ha Hd1 Hd0.
  assert (F1 : @frame Color p (frame_above (m_frame_info p)) = ret d1)
    by (apply frame_at; [lia | exact H1]).
  assert (F0 : @frame Color p (frame_above (m_frame_info p) - 1) = ret d0)
    by (apply frame_at; [lia | exact H0]).
  unfold draw_plot.
  apply stops_quiet with (1 := yields_check_aesthetic p _ Aesthetic.color F1).
  apply stops_quiet with (1 := yields_check_aesthetic p _ Aesthetic.size F1).
  apply stops_call; [reflexivity |].
  rewrite Hw. unfold has in *.
  destruct Ha as [-> | ->];
    destruct (column d1 Aesthetic.color) as [c1 |] eqn:Ec1;
    destruct (column d1 Aesthetic.size) as [s1 |] eqn:Es1;
    try discriminate Hd1;
    destruct (column d0 Aesthetic.x) as [x0 |] eqn:Ex0;
    destruct (column d0 Aesthetic.y) as [y0 |] eqn:Ey0;
    destruct (column d0 Aesthetic.color) as [c0 |] eqn:Ec0;
    destruct (column d0 Aesthetic.size) as [s0 |] eqn:Es0;
    try discriminate Hd0;
    repeat open_or_stop.
Qed.

Lemma stops_frame_begin_outside (p : Points) (f : Z) (a : Aesthetic.t) :
  (f < 0 \/ Z.of_nat (length (m_data p)) <= f)%Z ->
  stops (@frame_begin Color p f a) [] OutOfBounds.
Proof.
  intros H. unfold frame_begin. rewrite (stops_frame p H). now split.
Qed.

(** X26.  [draw_plot] does not check the frame index.  When the frame info
    names a frame that is not there, the first statement indexes [m_data]
    out of bounds and nothing at all is sent or read.  When it names the
    first frame with [w2 <> 0], the blend indexes [m_data[-1]] after
    [stroke_width(0)]. *)
Theorem draw_plot_outside_frames (p : Points) :
  ((frame_above (m_frame_info p) < 0 \/
    Z.of_nat (length (m_data p)) <= frame_above (m_frame_info p))%Z ->
   draw_plot to_color to_display p = ([], Fault OutOfBounds)) /\
  (frame_above (m_frame_info p) = 0%Z -> m_data p <> [] ->
   F.eqb (w2 (m_frame_info p)) F.zero = false ->
   stops (draw_plot to_color to_display p) [stroke_width F.zero] OutOfBounds).
Proof.
  split.
  - intros H. unfold draw_plot, check_aesthetic, frame_begin.
    now rewrite (stops_frame p H).
  - intros Hf Hd Hw. unfold draw_plot. rewrite Hf, Hw.
    destruct (m_data p) as [| d rest] eqn:E; [contradiction |].
    assert (F0 : @frame Color p 0 = ret d)
      by (apply frame_at; [lia | now rewrite E]).
    apply stops_quiet
      with (1 := yields_check_aesthetic p _ Aesthetic.color F0).
    apply stops_quiet
      with (1 := yields_check_aesthetic p _ Aesthetic.size F0).
    apply stops_call; [reflexivity |].
    apply stops_here, stops_frame_begin_outside. left. lia.
Qed.

Lemma stops_for_rows (p : Points) (d0 : DataWithAesthetic)
    (body : nat -> M Color unit) (g : nat -> list (event Color))
    (k : nat) (c : list (event Color)) (f : fault) :
  @frame Color p 0 = ret d0 -> (k < rows d0)%nat ->
  (forall i, (i < k)%nat -> yields (body i) (g i) tt) ->
  stops (body k) c f ->
  forall fuel i,
    (i <= k)%nat -> (rows d0 - i <= fuel)%nat ->
    stops (for_rows p fuel i body) (flat_map g (seq i (k - i)) ++ c) f.
Proof.
  intros H0 Hk Hb Hs. induction fuel as [| fuel IH]; intros i Hi Hf;
    [lia |].
  cbn [for_rows]. apply stops_quiet with (1 := yields_frame_rows p 0 H0).
  destruct (Nat.ltb_spec i (rows d0)) as [L | L]; [| lia].
  destruct (Nat.eq_dec i k) as [-> | Hne].
  - rewrite Nat.sub_diag. cbn [seq flat_map app]. now apply stops_here.
  - replace (k - i)%nat with (S (k - S i)) by lia.
    cbn [seq flat_map]. rewrite <- app_assoc.
    apply stops_after with (a := tt); [apply Hb; lia |].
    apply IH; lia.
Qed.

Ltac read_here :=
  lazymatch goal with
  | |- yields (bind (deref ?it ?i) _) _ _ =>
      apply yields_quiet
        with (1 := @yields_deref Color it i ltac:(cbn [it_col]; lia));
      cbn [it_col]
  end.

Ltac open_here :=
  lazymatch goal with
  | |- stops (bind (frame_begin ?p ?f ?a) _) _ _ =>
      eapply stops_quiet;
      [eapply yields_frame_begin; [eassumption | eassumption] |]
  | |- stops (bind (ret _) _) _ _ => rewrite bind_ret_l
  end.

(** X27.  A frame with fewer rows than the first.  When the frame info has
    [w2 = 0] and the x column of the frame it names has [k] entries, fewer
    than the row count of the first frame, [draw_plot] draws the [k] rows
    that are there and then reads the x column past its end. *)
Theorem draw_plot_short_frame (p : Points) (first d : DataWithAesthetic)
    (xs : list float) :
  F.eqb (w2 (m_frame_info p)) F.zero = true ->
  (0 <= frame_above (m_frame_info p))%Z ->
  nth_error (m_data p) 0 = Some first ->
  nth_error (m_data p) (Z.to_nat (frame_above (m_frame_info p))) = Some d ->
  column d Aesthetic.x = Some xs -> (length xs < rows first)%nat ->
  frame_ok (length xs) d = true ->
  stops (draw_plot to_color to_display p)
    (stroke_width F.zero
     :: flat_map
          (fun i => circle_calls to_color (row_pixel to_display (m_axis p) d i))
          (seq 0 (length xs)))
    OutOfBounds.
Proof.
  intros Hw Hf Hfirst Hd Hxs Hk Hok.
  assert (Fd : @frame Color p (frame_above (m_frame_info p)) = ret d)
    by (apply frame_at; [lia | exact Hd]).
  assert (F0 : @frame Color p 0 = ret first)
    by (apply frame_at; [lia | exact Hfirst]).
  assert (Hfuel : rows_fuel p = rows first).
  { unfold rows_fuel. destruct (m_data p); [discriminate |].
    now injection Hfirst as ->. }
  unfold frame_ok in Hok.
  apply andb_prop in Hok as [Hok Hs]. apply andb_prop in Hok as [Hok Hc].
  apply andb_prop in Hok as [_ Hy].
  apply column_ok_required in Hy as (y & Ey & Ly).
  pose proof (fun c => @column_ok_optional _ _ _ c Hc) as Lc.
  pose proof (fun c => @column_ok_optional _ _ _ c Hs) as Ls.
  unfold draw_plot.
  apply stops_quiet with (1 := yields_check_aesthetic p _ Aesthetic.color Fd).
  apply stops_quiet with (1 := yields_check_aesthetic p _ Aesthetic.size Fd).
  apply stops_call; [reflexivity |].
  rewrite Hw, Hfuel.
  unfold circle_calls, row_pixel, value, has.
  rewrite Hxs, Ey.
  destruct (column d Aesthetic.color) as [c |] eqn:Ec;
    destruct (column d Aesthetic.size) as [s |] eqn:Es;
    try specialize (Lc _ eq_refl); try specialize (Ls _ eq_refl);
    repeat open_here;
    (match goal with
     | |- stops _ (flat_map ?g _) _ =>
         rewrite <- (app_nil_r (flat_map g (seq 0 (length xs))));
         rewrite <- (Nat.sub_0_r (length xs)) at 1
     end;
     apply stops_for_rows with (d0 := first);
     [ exact F0 | exact Hk
     | intros i Hi; repeat read_here;
       apply yields_call; [reflexivity |]; apply yields_emit; reflexivity
     | apply stops_here, stops_deref; cbn [it_col]; lia
     | lia | lia ]).
Qed.

End FramesThatDoNotFit.

Lemma draw_plot_mismatched_aesthetics_witness :
  stops (draw_plot plain_color plain_display
           (series [xy_frame [1]%Z [2]%Z; full_frame [3]%Z [4]%Z [5]%Z [6]%Z]
              {| frame_above := 1; w1 := F.half; w2 := F.half |}))
    [stroke_width F.zero] Thrown.
Proof.
  apply (@draw_plot_mismatched_aesthetics _ plain_color plain_display
           (series [xy_frame [1]%Z [2]%Z; full_frame [3]%Z [4]%Z [5]%Z [6]%Z]
              {| frame_above := 1; w1 := F.half; w2 := F.half |})
           (full_frame [3]%Z [4]%Z [5]%Z [6]%Z) (xy_frame [1]%Z [2]%Z)
           Aesthetic.color);
    solve [reflexivity | cbn; lia | now left].
Defined.

Lemma draw_plot_outside_frames_witness :
  draw_plot plain_color plain_display
    (series [xy_frame [1]%Z [2]%Z]
       {| frame_above := 1; w1 := F.one; w2 := F.zero |})
  = ([], Fault OutOfBounds) /\
  stops (draw_plot plain_color plain_display
           (series [xy_frame [1]%Z [2]%Z]
              {| frame_above := 0; w1 := F.half; w2 := F.half |}))
    [stroke_width F.zero] OutOfBounds.
Proof.
  split.
  - apply (@draw_plot_outside_frames _ plain_color plain_display
             (series [xy_frame [1]%Z [2]%Z]
                {| frame_above := 1; w1 := F.one; w2 := F.zero |})).
    right. cbn. lia.
  - apply (@draw_plot_outside_frames _ plain_color plain_display
             (series [xy_frame [1]%Z [2]%Z]
                {| frame_above := 0; w1 := F.half; w2 := F.half |}));
      solve [reflexivity | discriminate].
Defined.

Lemma draw_plot_short_frame_witness :
  stops (draw_plot plain_color plain_display
           (series [xy_frame [1; 2; 3]%Z [4; 5; 6]%Z; xy_frame [7]%Z [8]%Z]
              {| frame_above := 1; w1 := F.one; w2 := F.zero |}))
    [stroke_width F.zero;
     fill_color (F.of_Z 0); circle (F.of_Z 7) (F.of_Z 8) (F.of_Z 1)]
    OutOfBounds.
Proof.
  apply (@draw_plot_short_frame _ plain_color plain_display
           (series [xy_frame [1; 2; 3]%Z [4; 5; 6]%Z; xy_frame [7]%Z [8]%Z]
              {| frame_above := 1; w1 := F.one; w2 := F.zero |})
           (xy_frame [1; 2; 3]%Z [4; 5; 6]%Z) (xy_frame [7]%Z [8]%Z)
           [F.of_Z 7]);
    solve [reflexivity | cbn; lia].
Defined.

(** ** The keyframes of an animated drawing *)

Section Keyframes.

Variable Color : Type.
Variable to_color : float -> Color.
Variable to_display : Aesthetic.t -> Axis -> float -> float.

Lemma yields_for_frames (body : Z -> float -> M Color unit)
    (g : DataWithAesthetic -> float -> list (event Color)) :
  forall (ts : list float) (ds : list DataWithAesthetic) (f : Z),
    length ts = length ds ->
    (forall j d t,
        nth_error ds j = Some d -> nth_error ts j = Some t ->
        yields (body (f + Z.of_nat j)%Z t) (g d t) tt) ->
    yields (for_frames ts f body)
      (flat_map (fun dt => g (fst dt) (snd dt)) (combine ds ts)) tt.
Proof.
  induction ts as [| t ts IH]; intros [| d ds] f Hl Hb; try discriminate.
  - apply yields_ret.
  - cbn [for_frames combine flat_map fst snd].
    apply yields_bind with (a := tt).
    + specialize (Hb 0%nat d t eq_refl eq_refl).
      now rewrite Z.add_0_r in Hb.
    + apply IH; [cbn in Hl; lia |].
      intros j d' t' Hd Ht. specialize (Hb (S j) d' t' Hd Ht).
      now replace (f + 1 + Z.of_nat j)%Z with (f + Z.of_nat (S j))%Z by lia.
Qed.

Ltac open_frame :=
  lazymatch goal with
  | |- yields (bind (bind (frame_begin ?p ?f ?a) _) _) _ _ =>
      eapply yields_quiet;
      [ eapply yields_quiet;
        [ eapply yields_frame_begin; [eassumption | eassumption]
        | apply yields_deref; cbn [it_col]; lia ]
      | cbn [it_col] ]
  | |- yields (bind (frame_begin ?p ?f ?a) _) _ _ =>
      eapply yields_quiet;
      [eapply yields_frame_begin; [eassumption | eassumption] |]
  | |- yields (bind (deref ?it ?i) _) _ _ =>
      apply yields_quiet
        with (1 := @yields_deref Color it i ltac:(cbn [it_col]; lia));
      cbn [it_col]
  | |- yields (bind (ret _) _) _ _ => rewrite bind_ret_l
  end.

(** [draw_frames] is its two loops around [keyframe]. *)
Lemma draw_frames_loops (p : Points) :
  draw_frames to_color to_display p =
  bind (check_aesthetic p 0 Aesthetic.color) (fun have_color =>
  bind (check_aesthetic p 0 Aesthetic.size) (fun have_size =>
  bind (emit (stroke_width F.zero)) (fun _ =>
  for_rows p (rows_fuel p) 0 (fun i =>
    bind (for_frames (m_times p) 0
            (keyframe to_color to_display p have_color have_size i))
         (fun _ => emit end_animated_circle))))).
Proof. reflexivity. Qed.

(** One keyframe of a usable frame that maps the optional channels of the
    first frame. *)
Lemma yields_keyframe (p : Points) (first d : DataWithAesthetic) (i : nat)
    (f : Z) (t : float) :
  @frame Color p f = ret d -> (i < rows first)%nat ->
  frame_ok (rows first) d = true -> same_aesthetics first d = true ->
  yields (keyframe to_color to_display p
            (has first Aesthetic.color) (has first Aesthetic.size) i f t)
    (keyframe_calls to_color (row_pixel to_display (m_axis p) d i) t) tt.
Proof.
  intros Fd Hi Hok Hsame.
  unfold frame_ok in Hok.
  apply andb_prop in Hok as [Hok Hs]. apply andb_prop in Hok as [Hok Hc].
  apply andb_prop in Hok as [Hx Hy].
  apply column_ok_required in Hx as (x & Ex & Lx).
  apply column_ok_required in Hy as (y & Ey & Ly).
  pose proof (fun c => @column_ok_optional _ _ _ c Hc) as Lc.
  pose proof (fun c => @column_ok_optional _ _ _ c Hs) as Ls.
  unfold same_aesthetics, has in *.
  unfold keyframe, keyframe_calls, row_pixel, value, has.
  rewrite Ex, Ey.
  destruct (column first Aesthetic.color) as [c0 |];
    destruct (column d Aesthetic.color) as [c |] eqn:Ec;
    try discriminate Hsame;
    destruct (column first Aesthetic.size) as [s0 |];
    destruct (column d Aesthetic.size) as [s |] eqn:Es;
    try discriminate Hsame;
    try specialize (Lc _ eq_refl); try specialize (Ls _ eq_refl);
    repeat open_frame;
    (apply yields_call; [reflexivity |]; apply yields_emit; reflexivity).
Qed.

(** X28.  The animated drawing of a well-formed series: every frame has a
    timestamp, is usable for the rows of the first frame and maps the same
    optional channels as the first frame.  [draw_frames] sends
    [stroke_width(0)] and then, for each row of the first frame in turn,
    one keyframe per frame in the order of the frames (a [fill_color] and
    an [add_animated_circle] at the axis transform of that row of that
    frame, with the timestamp of the frame), closed by one
    [end_animated_circle]. *)
Theorem draw_frames_keyframes (p : Points) (first : DataWithAesthetic) :
  nth_error (m_data p) 0 = Some first ->
  length (m_times p) = length (m_data p) ->
  Forall (fun d => frame_ok (rows first) d = true /\
                   same_aesthetics first d = true) (m_data p) ->
  yields (draw_frames to_color to_display p)
    (stroke_width F.zero
     :: flat_map
          (fun i =>
             flat_map
               (fun dt =>
                  keyframe_calls to_color
                    (row_pixel to_display (m_axis p) (fst dt) i) (snd dt))
               (combine (m_data p) (m_times p))
             ++ [end_animated_circle])
          (seq 0 (rows first)))
    tt.
Proof.
  intros Hfirst Hlen Hall.
  assert (F0 : @frame Color p 0 = ret first)
    by (apply frame_at; [lia | exact Hfirst]).
  rewrite draw_frames_loops.
  apply yields_quiet with (1 := yields_check_aesthetic p _ Aesthetic.color F0).
  apply yields_quiet with (1 := yields_check_aesthetic p _ Aesthetic.size F0).
  apply yields_call; [reflexivity |].
  apply yields_all_rows with (1 := Hfirst). intros i Hi.
  apply yields_bind with (a := tt); [| now apply yields_emit].
  apply yields_for_frames
    with (g := fun d t =>
                 keyframe_calls to_color
                   (row_pixel to_display (m_axis p) d i) t);
    [exact Hlen |].
  intros j d t Hd Ht. rewrite Z.add_0_l.
  assert (Fd : @frame Color p (Z.of_nat j) = ret d)
    by (apply frame_at; [lia | now rewrite Nat2Z.id]).
  rewrite Forall_forall in Hall.
  destruct (Hall d (nth_error_In _ _ Hd)) as [Hok Hsame].
  now apply yields_keyframe.
Qed.

Lemma stops_for_frames (body : Z -> float -> M Color unit)
    (g : DataWithAesthetic -> float -> list (event Color))
    (c : list (event Color)) (e : fault) :
  forall (front : list DataWithAesthetic) (ts : list float) (f : Z),
    (length front < length ts)%nat ->
    (forall j d t,
        nth_error front j = Some d -> nth_error ts j = Some t ->
        yields (body (f + Z.of_nat j)%Z t) (g d t) tt) ->
    (forall t, nth_error ts (length front) = Some t ->
               stops (body (f + Z.of_nat (length front))%Z t) c e) ->
    stops (for_frames ts f body)
      (flat_map (fun dt => g (fst dt) (snd dt)) (combine front ts) ++ c) e.
Proof.
  induction front as [| d front IH]; intros [| t ts] f Hl Hb Hs;
    try (cbn in Hl; lia).
  - cbn [for_frames combine flat_map app]. apply stops_here.
    specialize (Hs t eq_refl). cbn [length] in Hs.
    now rewrite Z.add_0_r in Hs.
  - cbn [for_frames combine flat_map fst snd]. rewrite <- app_assoc.
    apply stops_after with (a := tt).
    + specialize (Hb 0%nat d t eq_refl eq_refl).
      now rewrite Z.add_0_r in Hb.
    + apply IH; [cbn in Hl; lia | |].
      * intros j d' t' Hd Ht. specialize (Hb (S j) d' t' Hd Ht).
        now replace (f + 1 + Z.of_nat j)%Z
          with (f + Z.of_nat (S j))%Z by lia.
      * intros t' Ht. specialize (Hs t' Ht). cbn [length] in Hs.
        now replace (f + 1 + Z.of_nat (length front))%Z
          with (f + Z.of_nat (S (length front)))%Z by lia.
Qed.

Ltac open_or_throw :=
  lazymatch goal with
  | |- stops (bind (bind (frame_begin ?p ?f ?a) _) _) _ _ =>
      first
        [ eapply stops_quiet;
          [ eapply yields_quiet;
            [ eapply yields_frame_begin; [eassumption | eassumption]
            | apply yields_deref; cbn [it_col]; lia ]
          | cbn [it_col] ]
        | apply stops_here, stops_here; eapply stops_frame_begin;
          eassumption ]
  | |- stops (bind (frame_begin ?p ?f ?a) _) _ _ =>
      eapply stops_quiet;
      [eapply yields_frame_begin; [eassumption | eassumption] |]
  | |- stops (bind (deref ?it ?i) _) _ _ =>
      apply stops_quiet
        with (1 := @yields_deref Color it i ltac:(cbn [it_col]; lia));
      cbn [it_col]
  | |- stops (bind (ret _) _) _ _ => rewrite bind_ret_l
  end.

(** X29.  Frames with different aesthetics, animated.  The first frame
    decides which optional channels are read from every frame.  When the
    first frame has rows and maps color (or size), the frames before [d]
    are well-formed, and the otherwise usable frame [d] does not map that
    channel, [draw_frames] sends [stroke_width(0)] and the keyframes of
    the first row for the frames before [d], and then ends with the
    exception of the missing channel, uncaught. *)
Theorem draw_frames_mismatched_aesthetics (p : Points)
    (first d : DataWithAesthetic) (front back : list DataWithAesthetic)
    (a : Aesthetic.t) :
  m_data p = front ++ d :: back ->
  nth_error (m_data p) 0 = Some first ->
  length (m_times p) = length (m_data p) ->
  (0 < rows first)%nat ->
  Forall (fun d' => frame_ok (rows first) d' = true /\
                    same_aesthetics first d' = true) front ->
  frame_ok (rows first) d = true ->
  a = Aesthetic.color \/ a = Aesthetic.size ->
  has first a = true -> has d a = false ->
  stops (draw_frames to_color to_display p)
    (stroke_width F.zero
     :: flat_map
          (fun dt =>
             keyframe_calls to_color
               (row_pixel to_display (m_axis p) (fst dt) 0) (snd dt))
          (combine front (m_times p)))
    Thrown.
Proof.
  intros Hdata Hfirst Hlen Hrows Hall Hok Ha Hf Hd.
  assert (F0 : @frame Color p 0 = ret first)
    by (apply frame_at; [lia | exact Hfirst]).
  assert (Hfuel : rows_fuel p = rows first).
  { unfold rows_fuel. destruct (m_data p); [discriminate |].
    now injection Hfirst as ->. }
  assert (Ffront : forall j d', nth_error front j = Some d' ->
                     @frame Color p (Z.of_nat j) = ret d').
  { intros j d' Hj. apply frame_at; [lia |].
    rewrite Nat2Z.id, Hdata, nth_error_app1; [exact Hj |].
    apply nth_error_Some. congruence. }
  assert (Fd : @frame Color p (Z.of_nat (length front)) = ret d).
  { apply frame_at; [lia |].
    now rewrite Nat2Z.id, Hdata, nth_error_app2, Nat.sub_diag by lia. }
  rewrite draw_frames_loops.
  apply stops_quiet with (1 := yields_check_aesthetic p _ Aesthetic.color F0).
  apply stops_quiet with (1 := yields_check_aesthetic p _ Aesthetic.size F0).
  apply stops_call; [reflexivity |]. rewrite Hfuel.
  match goal with
  | |- stops _ ?c _ => change c with (flat_map (fun _ : nat => @nil (event Color)) (seq 0 (0 - 0)) ++ c)
  end.
  apply stops_for_rows with (d0 := first);
    [exact F0 | exact Hrows | intros i Hi; lia | | lia | lia].
  apply stops_here.
  rewrite <- (app_nil_r (flat_map _ _)).
  apply stops_for_frames
    with (g := fun d' t =>
                 keyframe_calls to_color
                   (row_pixel to_display (m_axis p) d' 0) t).
  - rewrite Hlen, Hdata, length_app. cbn. lia.
  - intros j d' t Hj Ht. rewrite Z.add_0_l.
    rewrite Forall_forall in Hall.
    destruct (Hall d' (nth_error_In _ _ Hj)) as [Hok' Hsame'].
    apply yields_keyframe; auto.
  - intros t Ht. rewrite Z.add_0_l.
    unfold frame_ok in Hok.
    apply andb_prop in Hok as [Hok Hs]. apply andb_prop in Hok as [Hok Hc].
    apply andb_prop in Hok as [Hx Hy].
    apply column_ok_required in Hx as (x & Ex & Lx).
    apply column_ok_required in Hy as (y & Ey & Ly).
    pose proof (fun c => @column_ok_optional _ _ _ c Hc) as Lc.
    pose proof (fun c => @column_ok_optional _ _ _ c Hs) as Ls.
    unfold has in *. unfold keyframe.
    destruct Ha as [-> | ->];
      destruct (column first Aesthetic.color) as [c0 |];
      destruct (column first Aesthetic.size) as [s0 |];
      try discriminate Hf;
      destruct (column d Aesthetic.color) as [c |] eqn:Ec;
      destruct (column d Aesthetic.size) as [s |] eqn:Es;
      try discriminate Hd;
      try specialize (Lc _ eq_refl); try specialize (Ls _ eq_refl);
      repeat open_or_throw.
Qed.

End Keyframes.

Lemma draw_frames_keyframes_witness :
  yields (draw_frames plain_color plain_display
            (series [xy_frame [1; 2]%Z [3; 4]%Z; xy_frame [5; 6]%Z [7; 8]%Z]
               {| frame_above := 0; w1 := F.one; w2 := F.zero |}))
    [stroke_width F.zero;
     fill_color (F.of_Z 0);
     add_animated_circle (F.of_Z 1) (F.of_Z 3) (F.of_Z 1) (F.of_Z 0);
     fill_color (F.of_Z 0);
     add_animated_circle (F.of_Z 5) (F.of_Z 7) (F.of_Z 1) (F.of_Z 1);
     end_animated_circle;
     fill_color (F.of_Z 0);
     add_animated_circle (F.of_Z 2) (F.of_Z 4) (F.of_Z 1) (F.of_Z 0);
     fill_color (F.of_Z 0);
     add_animated_circle (F.of_Z 6) (F.of_Z 8) (F.of_Z 1) (F.of_Z 1);
     end_animated_circle]
    tt.
Proof.
  apply (@draw_frames_keyframes _ plain_color plain_display
           (series [xy_frame [1; 2]%Z [3; 4]%Z; xy_frame [5; 6]%Z [7; 8]%Z]
              {| frame_above := 0; w1 := F.one; w2 := F.zero |})
           (xy_frame [1; 2]%Z [3; 4]%Z));
    [reflexivity | reflexivity | repeat constructor].
Defined.

Lemma draw_frames_mismatched_aesthetics_witness :
  stops (draw_frames plain_color plain_display
           (series [full_frame [1]%Z [2]%Z [3]%Z [4]%Z; xy_frame [5]%Z [6]%Z]
              {| frame_above := 0; w1 := F.one; w2 := F.zero |}))
    [stroke_width F.zero;
     fill_color (F.of_Z 3);
     add_animated_circle (F.of_Z 1) (F.of_Z 2) (F.of_Z 4) (F.of_Z 0)]
    Thrown.
Proof.
  apply (@draw_frames_mismatched_aesthetics _ plain_color plain_display
           (series [full_frame [1]%Z [2]%Z [3]%Z [4]%Z; xy_frame [5]%Z [6]%Z]
              {| frame_above := 0; w1 := F.one; w2 := F.zero |})
           (full_frame [1]%Z [2]%Z [3]%Z [4]%Z) (xy_frame [5]%Z [6]%Z)
           [full_frame [1]%Z [2]%Z [3]%Z [4]%Z] [] Aesthetic.color);
    solve [reflexivity | cbn; lia | now left | repeat constructor].
Defined.
